(** * A shallow embedding of the ISO9660 reader (package iso9660)

    The development follows the layering of the Go package:
    [MultiFile] (several OS files seen as one buffer), [Image] (a buffer
    cut into sectors, with the sector format probed), and the file system
    proper ([findVolumes], [buildPaths], [File.ReadAt], [File.Readdir]).

    Conventions.  Go's [int64] values are integers in [Z]; where the
    source can overflow the wrap-around is written out with [wrap64].
    A Go slice expression [b[lo:hi]] is [slice b lo hi].  A read that
    fills a caller-supplied slice is modelled by the list of bytes it
    stored (its length is the count [n] the Go function returns)
    together with the error; callers that keep using their slice
    afterwards store those bytes back with [blit]. *)

From Stdlib Require Import String Ascii.
From Stdlib Require Import Strings.Byte.
From Stdlib Require Import ZArith List Lia Bool.
Import ListNotations.
Open Scope Z_scope.

Set Implicit Arguments.

(** ** Bytes, slices and machine integers *)

Definition b2z (b : byte) : Z := Z.of_N (Byte.to_N b).

Definition zlen {A} (l : list A) : Z := Z.of_nat (length l).

(** [b[lo:hi]] *)
Definition slice {A} (b : list A) (lo hi : Z) : list A :=
  firstn (Z.to_nat (hi - lo)) (skipn (Z.to_nat lo) b).

(** Storing [d] into [b] from index [at_]: what a read into [b[at_:]]
    that obtained the bytes [d] leaves in [b]. *)
Definition blit {A} (b : list A) (at_ : Z) (d : list A) : list A :=
  firstn (Z.to_nat at_) b ++ d ++ skipn (Z.to_nat at_ + length d) b.

(** [copy(dst, src)]: the new contents of [dst]; the count Go returns is
    [Z.min (zlen dst) (zlen src)]. *)
Definition copy {A} (dst src : list A) : list A :=
  firstn (length dst) src ++ skipn (length src) dst.

Definition wrap64 (z : Z) : Z := (z + 2 ^ 63) mod 2 ^ 64 - 2 ^ 63.

(** Little- and big-endian integers, as [encoding/binary] reads them
    from the front of a slice. *)
Definition byte_at (b : list byte) (i : Z) : Z := b2z (nth (Z.to_nat i) b x00).

Inductive ByteOrder := LittleEndian | BigEndian.

Definition Uint16 (r : ByteOrder) (b : list byte) : Z :=
  match r with
  | LittleEndian => Z.lor (byte_at b 0) (Z.shiftl (byte_at b 1) 8)
  | BigEndian => Z.lor (byte_at b 1) (Z.shiftl (byte_at b 0) 8)
  end.

Definition Uint32 (r : ByteOrder) (b : list byte) : Z :=
  match r with
  | LittleEndian =>
      Z.lor (Z.lor (Z.lor (byte_at b 0) (Z.shiftl (byte_at b 1) 8))
                   (Z.shiftl (byte_at b 2) 16)) (Z.shiftl (byte_at b 3) 24)
  | BigEndian =>
      Z.lor (Z.lor (Z.lor (byte_at b 3) (Z.shiftl (byte_at b 2) 8))
                   (Z.shiftl (byte_at b 1) 16)) (Z.shiftl (byte_at b 0) 24)
  end.

(** ** Errors

    The error values the package returns or passes on.  [EOF],
    [ErrUnexpectedEOF] and [ErrShortBuffer] are those of package io,
    [ErrInvalid] and [ErrNotExist] those of package os, [ErrFormat] is
    [image.ErrFormat]; the others are the package's own, or the
    [fmt.Errorf] values it builds. *)
Inductive error :=
| EOF
| ErrUnexpectedEOF
| ErrShortBuffer
| ErrInvalid
| ErrNegativeOffset
| ErrFormat
| ErrOpen (name : string)
| ErrStat (name : string)
| ErrTooLarge
| ErrReadingImage (e : error)
| ErrNoVolumeDescriptor
| ErrBlockSize (blockSize sectorSize : Z)
| ErrIsDir (name : string)
| ErrNotDir (name : string).

Definition is_EOF (e : option error) : bool :=
  match e with Some EOF => true | _ => false end.

(** ** The operating system: files that can be opened, read and closed *)

(** A file of the host, as [os.Open] and [Stat] see it. *)
Record hostFile := { h_data : list byte; h_stat_ok : bool }.

(** The host file system; a name that is absent cannot be opened. *)
Definition hostfs := string -> option hostFile.

(** An open [os.File] pointer.  Two handles are the same pointer exactly when
    their descriptors are equal. *)
Record osFile := { fd : nat; f_data : list byte; f_stat_ok : bool }.

(** The process state the package changes: which descriptors are open. *)
Record World := { next_fd : nat; open_fds : list nat }.

(** A small state monad over [World]. *)
Definition M (A : Type) : Type := World -> A * World.
Definition ret {A} (a : A) : M A := fun w => (a, w).
Definition bind {A B} (m : M A) (k : A -> M B) : M B :=
  fun w => let (a, w') := m w in k a w'.

Declare Scope io_scope.
Delimit Scope io_scope with io.
Notation "x <- m ;; k" := (bind m (fun x => k))
  (at level 61, m at next level, right associativity) : io_scope.
Notation "m ;;; k" := (bind m (fun _ => k))
  (at level 61, right associativity) : io_scope.

Definition os_Open (h : hostfs) (name : string) : M (osFile + error) :=
  fun w =>
    match h name with
    | None => (inr (ErrOpen name), w)
    | Some hf =>
        (inl {| fd := next_fd w; f_data := h_data hf; f_stat_ok := h_stat_ok hf |},
         {| next_fd := S (next_fd w); open_fds := next_fd w :: open_fds w |})
    end.

(** [f.Stat()], reduced to the size it reports. *)
Definition os_Stat (f : osFile) : Z + error :=
  if f_stat_ok f then inl (zlen (f_data f)) else inr ErrInvalid.

Definition remove_fd (x : nat) (l : list nat) : list nat :=
  filter (fun y => negb (Nat.eqb x y)) l.

(** [f.Close()]; on a nil pointer it returns [ErrInvalid] and does nothing. *)
Definition os_Close (f : option osFile) : M (option error) :=
  fun w =>
    match f with
    | None => (Some ErrInvalid, w)
    | Some f =>
        if existsb (Nat.eqb (fd f)) (open_fds w)
        then (None, {| next_fd := next_fd w; open_fds := remove_fd (fd f) (open_fds w) |})
        else (Some ErrInvalid, w)
    end.

(** [ReadAt] of [os.File] on an open handle: [len] is the length of the
    destination, the result the bytes stored and the error. *)
Definition os_ReadAt (f : osFile) (len off : Z) : list byte * option error :=
  if off <? 0 then ([], Some ErrNegativeOffset)
  else
    let d := slice (f_data f) off (off + len) in
    (d, if zlen d <? len then Some EOF else None).

(** ** MultiFile *)

Module MultiFile.

Record MultiFile := {
  files : list (option osFile);
  offs : list Z;
  size : Z;
  pos : Z
}.

Definition set_nth {A} (i : nat) (x : A) (l : list A) : list A :=
  firstn i l ++ x :: skipn (S i) l.

(** [Close]: every entry of [files] is closed, in order. *)
Fixpoint close_all (fs : list (option osFile)) : M unit :=
  match fs with
  | [] => ret tt
  | f :: fs' => (os_Close f ;;; close_all fs')%io
  end.

Definition Close (r : MultiFile) : M (option error) :=
  (close_all (files r) ;;; ret None)%io.

(** The body of the [for i, name := range name] loop of [NewMultiFile].
    The result is the record built so far, the error the function
    returns (if it returns from inside the loop) and the value of the
    variable [err] at that point, which is what the deferred function
    tests. *)
Fixpoint NewMultiFile_loop (h : hostfs) (names : list string) (i : nat)
    (r : MultiFile) : M (MultiFile * option error * option error) :=
  match names with
  | [] => ret (r, None, None)
  | name :: rest =>
      (o <- os_Open h name ;;
       match o with
       | inr e => ret (r, Some e, Some e)
       | inl f =>
           match os_Stat f with
           | inr e => ret (r, Some (ErrStat name), Some e)
           | inl sz =>
               let r1 := {| files := set_nth i (Some f) (files r);
                            offs := offs r;
                            size := wrap64 (size r + sz);
                            pos := pos r |} in
               let r2 :=
                 match i with
                 | O => r1
                 | S j => {| files := files r1;
                             offs := set_nth i (wrap64 (nth j (offs r1) 0 + sz)) (offs r1);
                             size := size r1;
                             pos := pos r1 |}
                 end in
               if nth i (offs r2) 0 <? 0
               then ret (r2, Some ErrTooLarge, None)
               else NewMultiFile_loop h rest (S i) r2
           end
       end)%io
  end.

Definition NewMultiFile (h : hostfs) (names : list string) : M (MultiFile + error) :=
  (let r0 := {| files := repeat None (length names);
                offs := repeat 0 (length names);
                size := 0; pos := 0 |} in
   res <- NewMultiFile_loop h names 0 r0 ;;
   let '(r, result, err) := res in
   match err with
   | Some _ => Close r ;;; ret tt
   | None => ret tt
   end ;;;
   match result with
   | Some e => ret (inr e)
   | None => ret (inl r)
   end)%io.

(** The binary search of [fileAt]; each round shrinks [hi - lo], so
    [hi - lo] rounds are enough. *)
Fixpoint fileAt_search (fuel : nat) (offs : list Z) (pos : Z) (lo hi : nat) : nat :=
  match fuel with
  | O => lo
  | S k =>
      if (lo <? hi)%nat then
        let mid := (lo + (hi - lo) / 2)%nat in
        if nth mid offs 0 <? pos
        then fileAt_search k offs pos (mid + 1)%nat hi
        else fileAt_search k offs pos lo mid
      else lo
  end.

Definition fileAt (r : MultiFile) (pos : Z) : option osFile :=
  if (length (files r) =? 0)%nat || (pos <? 0) then None
  else
    let lo := fileAt_search (length (files r)) (offs r) pos 0 (length (files r) - 1) in
    let lo := if (0 <? lo)%nat then (lo - 1)%nat else lo in
    if nth lo (offs r) 0 >? pos then None
    else nth lo (files r) None.

Definition same_file (a b : osFile) : bool := Nat.eqb (fd a) (fd b).

(** The [for] loop of [ReadAt].  [acc] is [p[:n]], the bytes stored so
    far.  [None] means the fuel ran out before the loop returned. *)
Fixpoint ReadAt_loop (fuel : nat) (r : MultiFile) (f : osFile) (len : Z)
    (acc : list byte) (off : Z) : option (list byte * option error) :=
  match fuel with
  | O => None
  | S k =>
      let '(d, err) := os_ReadAt f (len - zlen acc) off in
      let nr := zlen d in
      let acc := acc ++ d in
      match err with
      | Some EOF =>
          if zlen acc =? len then Some (acc, Some EOF)
          else
            let off := wrap64 (off + nr) in
            match fileAt r off with
            | None => Some (acc, Some EOF)
            | Some xf =>
                if same_file xf f then Some (acc, Some EOF)
                else ReadAt_loop k r xf len acc off
            end
      | Some e => Some (acc, Some e)
      | None => Some (acc, None)
      end
  end.

Definition ReadAt_fuel (fuel : nat) (r : MultiFile) (len off : Z)
  : option (list byte * option error) :=
  match fileAt r off with
  | None => Some ([], Some EOF)
  | Some f => ReadAt_loop fuel r f len [] off
  end.

(** Every round but the last stores at least one byte, so [len + 1]
    rounds always suffice (see [ReadAt_loop_enough]). *)
Definition ReadAt (r : MultiFile) (len off : Z) : list byte * option error :=
  match ReadAt_fuel (S (Z.to_nat len)) r len off with
  | Some res => res
  | None => ([], Some ErrInvalid)
  end.

(** What the documentation promises: the files as one contiguous file. *)
Definition contiguous (datas : list (list byte)) : list byte := concat datas.

Definition contiguous_ReadAt (datas : list (list byte)) (len off : Z)
  : list byte * option error :=
  if off <? 0 then ([], Some EOF)
  else
    let d := slice (contiguous datas) off (off + len) in
    (d, if zlen d <? len then Some EOF else None).

End MultiFile.

(** ** Image: a buffer cut into sectors *)

(** The [Buffer] interface ([io.ReaderAt] and [Size]; [Close] plays no
    part in what follows).  [buf_ReadAt b len off] is a read into a
    destination of [len] bytes. *)
Class Buffer (B : Type) := {
  buf_ReadAt : B -> Z -> Z -> list byte * option error;
  buf_Size : B -> Z
}.

#[export] Instance MultiFile_Buffer : Buffer MultiFile.MultiFile := {
  buf_ReadAt := MultiFile.ReadAt;
  buf_Size := MultiFile.size
}.

(** The [Reader] interface of the file system: what a CD drive provides. *)
Class Reader (R : Type) := {
  NumSectors : R -> Z;
  SectorSize : R -> Z;
  ReadSector : R -> Z -> Z -> list byte * option error
}.

Fixpoint bytes_eqb (a b : list byte) : bool :=
  match a, b with
  | [], [] => true
  | x :: a', y :: b' => Byte.eqb x y && bytes_eqb a' b'
  | _, _ => false
  end.

Definition minSectorLength : Z := 2048.
Definition maxSectorLength : Z := 2456.

(** "CD001" *)
Definition magic : list byte := [x43; x44; x30; x30; x31].

Module Image.

Record sectorFormat := { size : Z; offset : Z; start : Z }.

Definition sectorFormats : list sectorFormat := [
  {| size := 2048; offset := 0; start := 0 |};
  {| size := 2336; offset := 0; start := 0 |};
  {| size := 2352; offset := 0; start := 24 |};
  {| size := 2448; offset := 0; start := 24 |};
  {| size := 2048; offset := 150 * 2048; start := 0 |};
  {| size := 2352; offset := 150 * 2048; start := 24 |};
  {| size := 2448; offset := 150 * 2048; start := 24 |};
  {| size := 2048; offset := -8; start := 0 |};
  {| size := 2352; offset := -8; start := 24 |};
  {| size := 2448; offset := -8; start := 24 |}
].

Record Image (B : Type) := { buffer : B; sector : sectorFormat }.

Section WithBuffer.
Context {B : Type} `{Buffer B}.

(** The physical offset [ReadSector] computes for [lba]. *)
Definition sector_pos (s : sectorFormat) (lba : Z) : Z :=
  wrap64 (wrap64 (wrap64 (lba * size s) + start s) + offset s).

(** [ReadSector(lba, b)] with [blen = len(b)]. *)
Definition ReadSector (m : Image B) (lba : Z) (blen : Z) : list byte * option error :=
  let length := if blen >? size (sector m) then size (sector m) else blen in
  let pos := sector_pos (sector m) lba in
  let '(d, err) := buf_ReadAt (buffer m) length pos in
  match err with
  | Some e => (d, Some e)
  | None =>
      if blen <? size (sector m) then (d, Some ErrShortBuffer)
      else if zlen d <? minSectorLength then (d, Some ErrUnexpectedEOF)
      else (d, None)
  end.

(** The loop of [NewImage] over the formats still to try; [p] is the
    array the sectors are read into. *)
Fixpoint NewImage_loop (b : B) (fmts : list sectorFormat) (p : list byte)
  : Image B + error :=
  match fmts with
  | [] => inr ErrFormat
  | s :: rest =>
      let m := {| buffer := b; sector := s |} in
      let '(d, err) := ReadSector m 16 (zlen p) in
      let p := blit p 0 d in
      match err with
      | Some e => inr (ErrReadingImage e)
      | None =>
          if bytes_eqb (slice p 1 6) magic then inl m
          else NewImage_loop b rest p
      end
  end.

Definition NewImage (b : B) : Image B + error :=
  NewImage_loop b sectorFormats (repeat x00 (Z.to_nat maxSectorLength)).

Definition NumSectors (m : Image B) : Z :=
  let length := buf_Size (buffer m) in
  let n := Z.quot length (size (sector m)) in
  if Z.rem length (size (sector m)) =? 0 then n else n + 1.

Definition SectorSize (m : Image B) : Z := size (sector m).

End WithBuffer.

End Image.

#[export] Instance Image_Reader {B : Type} `{Buffer B} : Reader (Image.Image B) := {
  NumSectors := Image.NumSectors;
  SectorSize := Image.SectorSize;
  ReadSector := Image.ReadSector
}.

(** ** The file system *)

(** How a loop of the model ends: with a value, with a run-time panic
    (a division by zero or a slice out of range), or without an answer
    because the fuel given to it was too small. *)
Inductive run (A : Type) :=
| Done (a : A)
| Panic
| OutOfFuel.
Arguments Done {A} a.
Arguments Panic {A}.
Arguments OutOfFuel {A}.

Record directory := {
  Siz : Z;
  ExSize : Z;
  LBA : Z;
  Length : Z;
  Time : list byte;
  Flags : Z;
  Interleave_Size : Z;
  Interleave_Gap : Z;
  Seq : Z;
  Nam : string
}.

Definition modeDir : Z := 2.

(** [directory{}] *)
Definition directory_zero : directory :=
  {| Siz := 0; ExSize := 0; LBA := 0; Length := 0; Time := repeat x00 7;
     Flags := 0; Interleave_Size := 0; Interleave_Gap := 0; Seq := 0;
     Nam := EmptyString |}.

Definition IsDir (d : directory) : bool := negb (Z.land (Flags d) modeDir =? 0).

Record path := {
  p_Size : Z;
  p_ExSize : Z;
  p_LBA : Z;
  p_Parent : Z;
  p_Name : string
}.

Record primaryVolumeDescriptor := {
  BlockSize : Z;
  Root : directory;
  PathTableSize : Z;
  PathTable0 : Z;
  PathTable1 : Z
}.

Definition pvd_zero : primaryVolumeDescriptor :=
  {| BlockSize := 0; Root := directory_zero; PathTableSize := 0;
     PathTable0 := 0; PathTable1 := 0 |}.

(** The rolling buffer that [buildPaths] and [Readdir] both keep: an
    array [rb_buf] of which [rb_buf[rb_start:rb_end]] is still to be
    decoded, and the sector to read next. *)
Record rolling := {
  rb_buf : list byte;
  rb_start : Z;
  rb_end : Z;
  rb_lba : Z
}.

Definition window (rb : rolling) : list byte :=
  slice (rb_buf rb) (rb_start rb) (rb_end rb).

Section FileSystem.

(** [path.Clean] of Go's standard library. *)
Variable Clean : string -> string.

Context {R : Type} `{Reader R}.

(** The name of a record: the two special one-byte names stand for "."
    and "..", and every name is cleaned. *)
Definition record_name (raw : list byte) : string :=
  let s := string_of_list_byte raw in
  let s := if String.eqb s (String "000" EmptyString) then "."%string
           else if String.eqb s (String "001" EmptyString) then ".."%string
           else s in
  Clean s.

(** [readPath].  The size of the record is computed in [uint16]; the
    end of the name, [8+b[0]], is computed in [uint8] and wraps around
    for a name length of 248 or more, and the slice [b[8:8+b[0]]] of
    an end below its start is a run-time panic. *)
Definition readPath (r : ByteOrder) (b : list byte) : run (path + error) :=
  if zlen b =? 0 then Done (inr ErrUnexpectedEOF)
  else
    let size := 8 + byte_at b 0 in
    let size := if Z.land (byte_at b 0) 1 =? 0 then size else size + 1 in
    if size >? zlen b then Done (inr ErrUnexpectedEOF)
    else
      let hi := (8 + byte_at b 0) mod 256 in
      if hi <? 8 then Panic
      else
        Done (inl {| p_Size := size;
                     p_ExSize := byte_at b 1;
                     p_LBA := Uint32 r (slice b 2 (zlen b));
                     p_Parent := Uint16 r (slice b 6 (zlen b));
                     p_Name := record_name (slice b 8 hi) |}).

(** [readDir].  The three guards are computed in [int]; the end of
    the name, [33+p[32]], is computed in [uint8] and wraps around for
    a name length of 223 or more, and the slice [p[33:33+p[32]]] of an
    end below its start is a run-time panic. *)
Definition readDir (p : list byte) : run (directory + error) :=
  if (zlen p <? 34)
     || (zlen p <? 34 + byte_at p 32)
     || (negb (Z.land (byte_at p 25) modeDir =? 0) && (zlen p <? byte_at p 0))
  then Done (inr ErrUnexpectedEOF)
  else
    let hi := (33 + byte_at p 32) mod 256 in
    if hi <? 33 then Panic
    else
      Done (inl {| Siz := byte_at p 0;
                   ExSize := byte_at p 1;
                   LBA := Uint32 LittleEndian (slice p 2 (zlen p));
                   Length := Uint32 LittleEndian (slice p 10 (zlen p));
                   Time := slice p 18 25;
                   Flags := byte_at p 25;
                   Interleave_Size := byte_at p 26;
                   Interleave_Gap := byte_at p 27;
                   Seq := Uint16 LittleEndian (slice p 28 (zlen p));
                   Nam := record_name (slice p 33 hi) |}).

Record FileSystem := {
  r : R;
  pvd : primaryVolumeDescriptor;
  svd : primaryVolumeDescriptor;
  paths : list path
}.

(** The descriptor fields [findVolumes] takes from a sector; the error
    of [readDir] is dropped, its panic is not. *)
Definition decode_volume (buf : list byte) : run primaryVolumeDescriptor :=
  match readDir (slice buf 156 (zlen buf)) with
  | Done root =>
      Done {| BlockSize := Uint16 LittleEndian (slice buf 128 (zlen buf));
              Root := match root with
                      | inl d => d
                      | inr _ => directory_zero
                      end;
              PathTableSize := Uint32 LittleEndian (slice buf 132 (zlen buf));
              PathTable0 := Uint32 LittleEndian (slice buf 140 (zlen buf));
              PathTable1 := Uint32 BigEndian (slice buf 148 (zlen buf)) |}
  | Panic => Panic
  | OutOfFuel => OutOfFuel
  end.

(** The loop of [findVolumes]: [k] sectors remain, [sector] is the next
    one.  The file system is returned as the loop left it, with the
    error ([None] for success). *)
Fixpoint findVolumes_loop (k : nat) (fs : FileSystem) (sector : Z) (buf : list byte)
  : run (FileSystem * option error) :=
  match k with
  | O => Done (fs, Some ErrNoVolumeDescriptor)
  | S k' =>
      let '(d, err) := ReadSector (r fs) sector (zlen buf) in
      let buf := blit buf 0 d in
      match err with
      | Some e => Done (fs, Some e)
      | None =>
          let type := byte_at buf 0 in
          if (type =? 1) || (type =? 2) then
            match decode_volume buf with
            | Done p =>
                let fs := if type =? 2
                          then {| r := r fs; pvd := pvd fs; svd := p; paths := paths fs |}
                          else {| r := r fs; pvd := p; svd := svd fs; paths := paths fs |} in
                if BlockSize p >? SectorSize (r fs)
                then Done (fs, Some (ErrBlockSize (BlockSize p) (SectorSize (r fs))))
                else findVolumes_loop k' fs (sector + 1) buf
            | Panic => Panic
            | OutOfFuel => OutOfFuel
            end
          else if type =? 255 then Done (fs, None)
          else findVolumes_loop k' fs (sector + 1) buf
      end
  end.

Definition findVolumes (fs : FileSystem) : run (FileSystem * option error) :=
  findVolumes_loop (Z.to_nat (NumSectors (r fs) - 16)) fs 16
                   (repeat x00 (Z.to_nat maxSectorLength)).

(** The refill step of the rolling buffer: move the undecoded tail to
    the front, read sector [rb_lba] behind it, and keep at most one
    block of what was read. *)
Definition refill (rd : R) (blockSize : Z) (rb : rolling) : rolling * option error :=
  let tail := window rb in
  let b1 := copy (rb_buf rb) tail in
  let keep := rb_end rb - rb_start rb in
  let '(d, err) := ReadSector rd (rb_lba rb) (zlen b1 - keep) in
  let b2 := blit b1 keep d in
  match err with
  | Some e =>
      ({| rb_buf := b2; rb_start := rb_start rb; rb_end := rb_end rb;
          rb_lba := rb_lba rb |}, Some e)
  | None =>
      let nr := if zlen d >? blockSize then blockSize else zlen d in
      ({| rb_buf := b2; rb_start := 0; rb_end := nr + keep;
          rb_lba := rb_lba rb + 1 |}, None)
  end.

(** Consuming a decoded record of [n] bytes. *)
Definition advance (rb : rolling) (n : Z) : rolling :=
  let s := rb_start rb + n in
  {| rb_buf := rb_buf rb;
     rb_start := if s >? rb_end rb then rb_end rb else s;
     rb_end := rb_end rb;
     rb_lba := rb_lba rb |}.

(** The byte order and the first sector of the path table. *)
Definition path_table_source (v : primaryVolumeDescriptor) : ByteOrder * Z :=
  if PathTable0 v =? 0 then (BigEndian, PathTable1 v) else (LittleEndian, PathTable0 v).

(** The loop of [buildPaths]; [n] is the number of table bytes decoded
    and [acc] the value of [fs.paths]. *)
Fixpoint buildPaths_loop (fuel : nat) (fs : FileSystem) (order : ByteOrder)
    (rb : rolling) (n : Z) (acc : list path) : run (list path) :=
  match fuel with
  | O => OutOfFuel
  | S k =>
      if n <? PathTableSize (pvd fs) then
        match readPath order (window rb) with
        | Done (inr _) =>
            match refill (r fs) (BlockSize (pvd fs)) rb with
            | (_, Some _) => Done acc
            | (rb', None) => buildPaths_loop k fs order rb' n acc
            end
        | Done (inl p) =>
            buildPaths_loop k fs order (advance rb (p_Size p)) (n + p_Size p) (acc ++ [p])
        | Panic => Panic
        | OutOfFuel => OutOfFuel
        end
      else Done acc
  end.

Definition buildPaths (fuel : nat) (fs : FileSystem) : run FileSystem :=
  let '(order, lba) := path_table_source (pvd fs) in
  let rb := {| rb_buf := repeat x00 (Z.to_nat (maxSectorLength * 2));
               rb_start := 0; rb_end := 0; rb_lba := lba |} in
  match buildPaths_loop fuel fs order rb 0 (paths fs) with
  | Done ps => Done {| r := r fs; pvd := pvd fs; svd := svd fs; paths := ps |}
  | Panic => Panic
  | OutOfFuel => OutOfFuel
  end.

(** A [File]: a directory record with its own read offset and its own
    directory stream [dp]. *)
Record File := {
  fs : FileSystem;
  fi : directory;
  dp : rolling;
  dp_eof : bool;
  off : Z
}.

Definition makeFile (fs : FileSystem) (d : directory) : File :=
  {| fs := fs; fi := d;
     dp := {| rb_buf := repeat x00 (Z.to_nat (maxSectorLength * 2));
              rb_start := 0; rb_end := 0; rb_lba := LBA d |};
     dp_eof := false; off := 0 |}.

(** The loop of [File.ReadAt].  [len] is [len(p)], [acc] is [p[:n]],
    [buf] the sector array and [s] the offset into the block. *)
Fixpoint ReadAt_loop (fuel : nat) (f : File) (len off lba s : Z)
    (buf acc : list byte) : run (list byte) :=
  match fuel with
  | O => OutOfFuel
  | S k =>
      let blockSize := BlockSize (pvd (fs f)) in
      let '(d, err) := ReadSector (r (fs f)) lba (zlen buf) in
      let buf := blit buf 0 d in
      match err with
      | Some _ => Done acc
      | None =>
          let e := zlen d in
          let e := if e >? blockSize then blockSize else e in
          let left := Length (fi f) - (off + zlen acc) in
          let e := if left <? e - s then s + left else e in
          if e <? s then Panic
          else
            let b := slice buf s e in
            let m := Z.min (len - zlen acc) (zlen b) in
            let acc := acc ++ firstn (Z.to_nat m) b in
            if (zlen acc >=? len) || (off + m >=? Length (fi f)) then Done acc
            else ReadAt_loop k f len off (lba + 1) 0 buf acc
      end
  end.

(** [f.ReadAt(p, off)] with [len = len(p)]: the bytes stored in [p] and
    the error.  The error of a failed sector read stays in the
    variable the loop declares, so the function returns [nil] then. *)
Definition ReadAt (fuel : nat) (f : File) (len off : Z) : run (list byte * option error) :=
  if IsDir (fi f) then Done ([], Some (ErrIsDir (Nam (fi f))))
  else if off >=? Length (fi f) then Done ([], Some EOF)
  else if off <? 0 then Done ([], Some ErrInvalid)
  else
    let blockSize := BlockSize (pvd (fs f)) in
    if blockSize =? 0 then Panic
    else
      match ReadAt_loop fuel f len off
              (LBA (fi f) + Z.quot off blockSize) (Z.rem off blockSize)
              (repeat x00 (Z.to_nat (maxSectorLength * 2))) [] with
      | Done acc => Done (acc, None)
      | Panic => Panic
      | OutOfFuel => OutOfFuel
      end.

Definition resetDir (f : File) : File :=
  {| fs := fs f; fi := fi f;
     dp := {| rb_buf := rb_buf (dp f); rb_start := 0; rb_end := 0;
              rb_lba := LBA (fi f) |};
     dp_eof := false; off := off f |}.

(** Why the loop of [Readdir] stopped. *)
Inductive dir_exit :=
| ExitLength
| ExitMarker
| ExitCount
| ExitError (e : error).

(** The loop of [Readdir]: [i] counts the record bytes consumed in this
    call and [acc] is the result slice. *)
Fixpoint Readdir_loop (fuel : nat) (f : File) (n : Z) (rb : rolling) (i : Z)
    (acc : list directory) : run (rolling * list directory * dir_exit) :=
  match fuel with
  | O => OutOfFuel
  | S k =>
      if negb (Length (fi f) =? 0) && (i >=? Length (fi f)) then Done (rb, acc, ExitLength)
      else
        match readDir (window rb) with
        | Done (inr _) =>
            match refill (r (fs f)) (BlockSize (pvd (fs f))) rb with
            | (rb', Some e) => Done (rb', acc, ExitError e)
            | (rb', None) => Readdir_loop k f n rb' i acc
            end
        | Done (inl d) =>
            if Siz d =? 0 then Done (rb, acc, ExitMarker)
            else
              let rb := advance rb (Siz d) in
              let acc := acc ++ [d] in
              if (n >? 0) && (zlen acc >=? n) then Done (rb, acc, ExitCount)
              else Readdir_loop k f n rb (i + Siz d) acc
        | Panic => Panic
        | OutOfFuel => OutOfFuel
        end
  end.

Definition with_dp (f : File) (rb : rolling) (eof : bool) : File :=
  {| fs := fs f; fi := fi f; dp := rb; dp_eof := eof; off := off f |}.

(** [f.Readdir(n)]: the handle afterwards, the records and the error. *)
Definition Readdir (fuel : nat) (f : File) (n : Z)
  : run (File * list directory * option error) :=
  if negb (IsDir (fi f)) then Done (f, [], Some (ErrNotDir (Nam (fi f))))
  else if dp_eof f then Done (resetDir f, [], Some EOF)
  else
    match Readdir_loop fuel f n (dp f) 0 [] with
    | Done (rb, acc, ExitError e) =>
        (* the function returns before the cursor is stored; only the
           array, which the loop works on in place, has changed *)
        Done (with_dp f {| rb_buf := rb_buf rb; rb_start := rb_start (dp f);
                           rb_end := rb_end (dp f); rb_lba := rb_lba (dp f) |} false,
              acc, Some e)
    | Done (rb, acc, ExitMarker) =>
        match acc with
        | [] => Done (resetDir (with_dp f rb true), [], Some EOF)
        | _ => Done (with_dp f rb true, acc, None)
        end
    | Done (rb, acc, _) => Done (with_dp f rb false, acc, None)
    | Panic => Panic
    | OutOfFuel => OutOfFuel
    end.

End FileSystem.

(** ** Notions used to state the properties of MultiFile *)

Module MultiFileSpec.

(** Every open descriptor was handed out by [os_Open]. *)
Definition world_ok (w : World) : Prop :=
  forall d, In d (open_fds w) -> (d < next_fd w)%nat.

Definition fds_of (fs : list osFile) : list nat := map fd fs.

Definition remove_all (xs : list nat) (l : list nat) : list nat :=
  fold_left (fun acc x => remove_fd x acc) xs l.

(** A source that opens and whose [Stat] succeeds, and its size. *)
Definition source_ok (h : hostfs) (name : string) : bool :=
  match h name with
  | Some hf => h_stat_ok hf
  | None => false
  end.

Definition source_size (h : hostfs) (name : string) : Z :=
  match h name with
  | Some hf => zlen (h_data hf)
  | None => 0
  end.

Definition total_size (h : hostfs) (names : list string) : Z :=
  fold_right Z.add 0 (map (source_size h) names).

(** A descriptor is open. *)
Definition is_open (w : World) (d : nat) : Prop := In d (open_fds w).

End MultiFileSpec.

(** ** Concrete hosts and media for the examples *)

Module Examples.

Definition w0 : World := {| next_fd := 0; open_fds := [] |}.

(** Two files, "a" of three bytes and "b" of two. *)
Definition host_ab : hostfs :=
  fun name =>
    if String.eqb name "a" then Some {| h_data := [x01; x02; x03]; h_stat_ok := true |}
    else if String.eqb name "b" then Some {| h_data := [x04; x05]; h_stat_ok := true |}
    else None.

(** The MultiFile whose only source holds [data], as [NewMultiFile]
    builds it. *)
Definition single (data : list byte) : MultiFile.MultiFile :=
  {| MultiFile.files := [Some {| fd := 0; f_data := data; f_stat_ok := true |}];
     MultiFile.offs := [0];
     MultiFile.size := zlen data;
     MultiFile.pos := 0 |}.

(** Seventeen plain sectors of 2048 bytes with the magic in sector 16. *)
Definition iso2048_17 : list byte :=
  repeat x00 (16 * 2048 + 1) ++ magic ++ repeat x00 (2048 - 6).

(** Seventeen raw sectors of 2352 bytes (payload after a 24-byte
    header) with the magic in the payload of sector 16. *)
Definition raw2352_17 : list byte :=
  repeat x00 (16 * 2352 + 24 + 1) ++ magic ++ repeat x00 (2352 - 24 - 6).

Definition format_iso2048 : Image.sectorFormat :=
  {| Image.size := 2048; Image.offset := 0; Image.start := 0 |}.

Definition format_raw2352 : Image.sectorFormat :=
  {| Image.size := 2352; Image.offset := 0; Image.start := 24 |}.

(** A medium of ten bytes. *)
Definition ten_bytes : list byte := repeat x41 10.

Definition ten_image : Image.Image MultiFile.MultiFile :=
  {| Image.buffer := single ten_bytes; Image.sector := format_iso2048 |}.

Definition iso2048_image : Image.Image MultiFile.MultiFile :=
  {| Image.buffer := single iso2048_17; Image.sector := format_iso2048 |}.

(** A buffer of [total] bytes, all zero but for the magic at bytes
    [1,6) of sector 16 of format [s]. *)
Definition synthetic (s : Image.sectorFormat) (total : Z) : list byte :=
  let pos := Image.sector_pos s 16 in
  repeat x00 (Z.to_nat (pos + 1)) ++ magic ++ repeat x00 (Z.to_nat (total - pos - 6)).

(** The format [NewImage] selects for a medium, if any. *)
Definition selected (data : list byte) : option Image.sectorFormat :=
  match Image.NewImage (single data) with
  | inl m => Some (Image.sector m)
  | inr _ => None
  end.

(** *** A small volume

    Twenty-one sectors of 2048 bytes: the primary descriptor in sector
    16, the terminator in 17, the little-endian path table (one
    record, the root) in 18, the root directory (".", ".." and the
    file "A") in 19, and the five bytes of "A" in 20. *)

Definition z2b (z : Z) : byte :=
  match Byte.of_N (Z.to_N z) with
  | Some b => b
  | None => x00
  end.

Definition le32 (z : Z) : list byte :=
  [z2b (z mod 256); z2b (z / 256 mod 256); z2b (z / 65536 mod 256);
   z2b (z / 16777216 mod 256)].

Definition be32 (z : Z) : list byte := rev (le32 z).

Definition pad (n : nat) (l : list byte) : list byte :=
  l ++ repeat x00 (n - length l).

(** A directory record with a name of one byte. *)
Definition dir_record (lba len flags : Z) (name : byte) : list byte :=
  [z2b 34; x00] ++ le32 lba ++ be32 lba ++ le32 len ++ be32 len
  ++ repeat x00 7 ++ [z2b flags; x00; x00] ++ [x01; x00; x00; x01] ++ [x01; name].

Definition pvd_sector : list byte :=
  pad 2048 ([x01] ++ magic ++ [x01] ++ repeat x00 121
            ++ [x00; x08; x08; x00] ++ le32 10 ++ be32 10
            ++ le32 18 ++ le32 0 ++ be32 0 ++ be32 0
            ++ dir_record 19 2048 2 x00).

Definition terminator_sector : list byte := pad 2048 ([xff] ++ magic ++ [x01]).

Definition path_table_sector : list byte :=
  pad 2048 ([x01; x00] ++ le32 19 ++ [x01; x00] ++ [x00; x00]).

Definition root_sector : list byte :=
  pad 2048 (dir_record 19 2048 2 x00 ++ dir_record 19 2048 2 x01
            ++ dir_record 20 5 0 x41).

(** "HELLO" *)
Definition hello : list byte := [x48; x45; x4c; x4c; x4f].

Definition file_sector : list byte := pad 2048 hello.

Definition volume_bytes : list byte :=
  repeat x00 (16 * 2048) ++ pvd_sector ++ terminator_sector
  ++ path_table_sector ++ root_sector ++ file_sector.

Definition volume_image : Image.Image MultiFile.MultiFile :=
  {| Image.buffer := single volume_bytes; Image.sector := format_iso2048 |}.

(** On the names of this volume [path.Clean] changes nothing. *)
Definition clean_id (s : string) : string := s.

Definition root_record : directory :=
  {| Siz := 34; ExSize := 0; LBA := 19; Length := 2048; Time := repeat x00 7;
     Flags := 2; Interleave_Size := 0; Interleave_Gap := 0; Seq := 1;
     Nam := "."%string |}.

Definition file_record : directory :=
  {| Siz := 34; ExSize := 0; LBA := 20; Length := 5; Time := repeat x00 7;
     Flags := 0; Interleave_Size := 0; Interleave_Gap := 0; Seq := 1;
     Nam := "A"%string |}.

(** The file system before and after [findVolumes]. *)
Definition volume_fs0 : FileSystem :=
  {| r := volume_image; pvd := pvd_zero; svd := pvd_zero; paths := [] |}.

Definition volume_fs : FileSystem :=
  {| r := volume_image;
     pvd := {| BlockSize := 2048; Root := root_record; PathTableSize := 10;
               PathTable0 := 18; PathTable1 := 0 |};
     svd := pvd_zero;
     paths := [] |}.

Definition root_path : path :=
  {| p_Size := 10; p_ExSize := 0; p_LBA := 19; p_Parent := 1; p_Name := "."%string |}.

(** A handle on the root directory and one on the file "A". *)
Definition root_handle : File := makeFile volume_fs root_record.

Definition file_handle : File := makeFile volume_fs file_record.

(** The handle a call of [Readdir] leaves behind. *)
Definition handle_after (res : run (File * list directory * option error)) : File :=
  match res with
  | Done (f, _, _) => f
  | _ => root_handle
  end.








(** The small volume with a big-endian path table only: the
    descriptor gives zero as the address of the little-endian table
    and 18 as that of the big-endian one, and sector 18 holds the
    record of the root with big-endian fields. *)
Definition pvd_sector_be : list byte :=
  pad 2048 ([x01] ++ magic ++ [x01] ++ repeat x00 121
            ++ [x00; x08; x08; x00] ++ le32 10 ++ be32 10
            ++ le32 0 ++ le32 0 ++ be32 18 ++ be32 0
            ++ dir_record 19 2048 2 x00).

Definition path_table_sector_be : list byte :=
  pad 2048 ([x01; x00] ++ be32 19 ++ [x00; x01] ++ [x00; x00]).

Definition volume_be_bytes : list byte :=
  repeat x00 (16 * 2048) ++ pvd_sector_be ++ terminator_sector
  ++ path_table_sector_be ++ root_sector ++ file_sector.

Definition volume_be_image : Image.Image MultiFile.MultiFile :=
  {| Image.buffer := single volume_be_bytes; Image.sector := format_iso2048 |}.

Definition volume_be_fs0 : FileSystem :=
  {| r := volume_be_image; pvd := pvd_zero; svd := pvd_zero; paths := [] |}.

Definition volume_be_fs : FileSystem :=
  {| r := volume_be_image;
     pvd := {| BlockSize := 2048; Root := root_record; PathTableSize := 10;
               PathTable0 := 0; PathTable1 := 18 |};
     svd := pvd_zero;
     paths := [] |}.

Definition root_listing : list directory :=
  [root_record;
   {| Siz := 34; ExSize := 0; LBA := 19; Length := 2048; Time := repeat x00 7;
      Flags := 2; Interleave_Size := 0; Interleave_Gap := 0; Seq := 1;
      Nam := ".."%string |};
   file_record].

End Examples.

(** ** Notions used to state the properties of Image *)

Module ImageSpec.
Import Image.

Section WithBuffer.
Context {B : Type} `{Buffer B}.

(** A read never stores more than the destination holds. *)
Definition buffer_ok (b : B) : Prop :=
  forall len off, 0 <= len -> zlen (fst (buf_ReadAt b len off)) <= len.

(** What a candidate format gets when [NewImage] reads its sector 16. *)
Definition probe_read (b : B) (s : sectorFormat) : list byte * option error :=
  ReadSector {| buffer := b; sector := s |} 16 maxSectorLength.

Definition readable (b : B) (s : sectorFormat) : Prop := snd (probe_read b s) = None.

Definition has_magic (b : B) (s : sectorFormat) : Prop :=
  slice (fst (probe_read b s)) 1 6 = magic.

(** Every format before position [k] of the table could be read and
    did not show the magic. *)
Definition passed_over (b : B) (fmts : list sectorFormat) (k : nat) : Prop :=
  forall j s, (j < k)%nat -> nth_error fmts j = Some s ->
              readable b s /\ ~ has_magic b s.

(** What the probing loop has established when it stops. *)
Definition probe_result (b : B) (fmts : list sectorFormat) (res : Image B + error) : Prop :=
  match res with
  | inl m =>
      buffer m = b /\
      exists k, nth_error fmts k = Some (sector m) /\
                readable b (sector m) /\ has_magic b (sector m) /\
                passed_over b fmts k
  | inr ErrFormat => passed_over b fmts (length fmts)
  | inr (ErrReadingImage e) =>
      exists k s, nth_error fmts k = Some s /\
                  snd (probe_read b s) = Some e /\ passed_over b fmts k
  | inr _ => False
  end.

End WithBuffer.

(** The bytes of a medium laid out with format [s]: at least seventeen
    whole sectors, and the magic at bytes [1,6) of the payload of
    sector 16. *)
Definition laid_out (s : sectorFormat) (data : list byte) : Prop :=
  offset s + 17 * size s <= zlen data /\
  slice data (16 * size s + start s + offset s + 1)
             (16 * size s + start s + offset s + 6) = magic.

(** No overflow in the arithmetic of [sector_pos]. *)
Definition pos_fits (s : sectorFormat) (lba : Z) : Prop :=
  - 2 ^ 63 <= lba * size s < 2 ^ 63 /\
  - 2 ^ 63 <= lba * size s + start s < 2 ^ 63 /\
  - 2 ^ 63 <= lba * size s + start s + offset s < 2 ^ 63.

End ImageSpec.

(** ** Notions used to state the properties of the file system *)

Section FileSystemSpec.

Context {R : Type} `{Reader R}.

(** What every reader guarantees: a read stores no more than the
    destination holds, and a read without error stores at least the
    2048 bytes of a sector. *)
Definition reader_ok (rd : R) : Prop :=
  forall lba blen,
    0 <= blen ->
    zlen (fst (ReadSector rd lba blen)) <= blen /\
    (snd (ReadSector rd lba blen) = None ->
     minSectorLength <= zlen (fst (ReadSector rd lba blen))).

(** Once the destination holds a whole sector its size does not matter. *)
Definition reader_stable (rd : R) : Prop :=
  forall lba l1 l2,
    SectorSize rd <= l1 -> SectorSize rd <= l2 ->
    ReadSector rd lba l1 = ReadSector rd lba l2.

(** The sector [findVolumes] reads at [k], and what it takes from it. *)
Definition vd_read (rd : R) (k : Z) : list byte * option error :=
  ReadSector rd k maxSectorLength.

Definition vd_readable (rd : R) (k : Z) : Prop := snd (vd_read rd k) = None.

Definition vd_type (rd : R) (k : Z) : Z := byte_at (fst (vd_read rd k)) 0.








(** How a call of [findVolumes] ends, the file system left aside. *)
Definition verdict {F : Type} (res : run (F * option error)) : run (option error) :=
  match res with
  | Done (_, e) => Done e
  | Panic => Panic
  | OutOfFuel => OutOfFuel
  end.


(** The rolling buffer is in range. *)
Definition rolling_ok (rb : rolling) : Prop :=
  zlen (rb_buf rb) = maxSectorLength * 2 /\
  0 <= rb_start rb <= rb_end rb /\ rb_end rb <= maxSectorLength * 2.

(** Sector [lba] as the decoders see it: the first [blockSize] bytes
    of what a read into the whole array stores. *)
Definition block (rd : R) (blockSize : Z) (lba : Z) : option (list byte) :=
  match ReadSector rd lba (maxSectorLength * 2) with
  | (d, None) => Some (firstn (Z.to_nat (Z.min (zlen d) blockSize)) d)
  | (_, Some _) => None
  end.

(** The blocks of [k] sectors from [lba] on, up to the first that
    cannot be read, one after the other. *)
Fixpoint blocks (rd : R) (blockSize : Z) (k : nat) (lba : Z) : list byte :=
  match k with
  | O => []
  | S k' =>
      match block rd blockSize lba with
      | Some blk => blk ++ blocks rd blockSize k' (lba + 1)
      | None => []
      end
  end.

(** Sectors [lba .. lba+k-1] can be read and sector [lba+k] cannot. *)
Definition medium_ends (rd : R) (lba : Z) (k : nat) : Prop :=
  (forall j, 0 <= j < Z.of_nat k ->
             snd (ReadSector rd (lba + j) (maxSectorLength * 2)) = None) /\
  snd (ReadSector rd (lba + Z.of_nat k) (maxSectorLength * 2)) <> None.

End FileSystemSpec.

(** ** The records of the format, as its layout describes them

    These definitions follow the description of the binary layout, not
    the decoders: a field is the value of its bytes in the byte order
    of the copy in use. *)

(** The value of a sequence of bytes, least significant first. *)
Fixpoint le_value (bs : list Z) : Z :=
  match bs with
  | [] => 0
  | b :: rest => b + 256 * le_value rest
  end.

(** The field of [n] bytes at offset [lo] of [t]. *)
Definition field (order : ByteOrder) (t : list byte) (lo n : nat) : Z :=
  let bs := map b2z (firstn n (skipn lo t)) in
  match order with
  | LittleEndian => le_value bs
  | BigEndian => le_value (rev bs)
  end.

Section RecordLayout.

Variable Clean : string -> string.

(** A path table record: byte 0 is the length of the name, byte 1 the
    length of the extended attribute record, bytes [2,6) the address
    of the directory, bytes [6,8) the number of the parent, and the
    name follows, with one pad byte when its length is odd. *)
Definition path_record_size (t : list byte) : Z :=
  8 + byte_at t 0 + (if Z.odd (byte_at t 0) then 1 else 0).

Definition path_record (order : ByteOrder) (t : list byte) : path :=
  {| p_Size := path_record_size t;
     p_ExSize := byte_at t 1;
     p_LBA := field order t 2 4;
     p_Parent := field order t 6 2;
     p_Name := record_name Clean (firstn (Z.to_nat (byte_at t 0)) (skipn 8 t)) |}.

(** The path table [t] holds the records [ps]: they lie one after the
    other, each taking the bytes of its size, until [size] bytes have
    been accounted for, or until the bytes end before or inside a
    record.  [n] is the number of bytes accounted for so far.  A name
    is at most 247 bytes long. *)
Inductive table_holds (order : ByteOrder) (size : Z)
  : list byte -> Z -> list path -> Prop :=
| table_done t n :
    size <= n -> table_holds order size t n []
| table_cut t n :
    n < size -> zlen t < path_record_size t -> table_holds order size t n []
| table_record t n ps :
    n < size -> path_record_size t <= zlen t -> byte_at t 0 <= 247 ->
    table_holds order size (skipn (Z.to_nat (path_record_size t)) t)
                (n + path_record_size t) ps ->
    table_holds order size t n (path_record order t :: ps).

(** A directory record: byte 0 is the length of the record, byte 1 the
    length of the extended attribute record, bytes [2,6) the address
    and bytes [10,14) the data length (the little-endian copies),
    bytes [18,25) the time, byte 25 the flags, bytes 26 and 27 the
    interleave unit and gap, bytes [28,30) the volume sequence
    number, byte 32 the length of the name and the name follows. *)
Definition directory_record (t : list byte) : directory :=
  {| Siz := byte_at t 0;
     ExSize := byte_at t 1;
     LBA := field LittleEndian t 2 4;
     Length := field LittleEndian t 10 4;
     Time := firstn 7 (skipn 18 t);
     Flags := byte_at t 25;
     Interleave_Size := byte_at t 26;
     Interleave_Gap := byte_at t 27;
     Seq := field LittleEndian t 28 2;
     Nam := record_name Clean (firstn (Z.to_nat (byte_at t 32)) (skipn 33 t)) |}.




End RecordLayout.



Section FileSpec.

Context {R : Type} `{Reader R}.

(** The file [f] is known by its content: the content has the declared
    length of the record, and block [k] of the file's extent carries
    the bytes of the content from [k * blockSize] on. *)
Definition backed_by (f : @File R) (content : list byte) : Prop :=
  let bs := BlockSize (pvd (fs f)) in
  let len := Length (fi f) in
  zlen content = len /\
  forall k, 0 <= k -> k * bs < len ->
    exists d,
      ReadSector (r (fs f)) (LBA (fi f) + k) (maxSectorLength * 2) = (d, None) /\
      bs <= zlen d /\
      slice d 0 (Z.min bs (len - k * bs))
      = slice content (k * bs) (Z.min (k * bs + bs) len).

(** The bytes a call of [ReadAt] stored. *)
Definition stored (res : run (list byte * option error)) : list byte :=
  match res with
  | Done (b, _) => b
  | _ => []
  end.


(** What a caller of [Readdir] sees: the records and the error. *)
Definition listing (res : run (@File R * list directory * option error))
  : run (list directory * option error) :=
  match res with
  | Done (_, recs, err) => Done (recs, err)
  | Panic => Panic
  | OutOfFuel => OutOfFuel
  end.

End FileSpec.

(** ** The states of a directory handle

    What a handle on the directory [d] of the file system [v] has yet
    to return, read off its cursor: the bytes still to be decoded are
    the window of its rolling buffer followed by the blocks not yet
    read, up to the first sector [LBA d + K] that cannot be read. *)

Section DirectoryHandle.

Variable Clean : string -> string.
Context {R : Type} `{Reader R}.





End DirectoryHandle.

(** ** The cursors of MultiFile and File, and the rest of the package *)

(** [os.SEEK_SET], [os.SEEK_CUR] and [os.SEEK_END]. *)
Definition SEEK_SET : Z := 0.
Definition SEEK_CUR : Z := 1.
Definition SEEK_END : Z := 2.

(** The [switch whence] that the two [Seek] methods both spell out:
    the absolute offset asked for, [cur] being the position and [end_]
    the size; nothing for an unknown [whence]. *)
Definition seek_target (off whence cur end_ : Z) : option Z :=
  if whence =? SEEK_SET then Some off
  else if whence =? SEEK_CUR then Some (wrap64 (off + cur))
  else if whence =? SEEK_END then Some (wrap64 (off + end_))
  else None.

Module MultiFileCursor.
Import MultiFile.

Definition with_pos (r : MultiFile) (p : Z) : MultiFile :=
  {| files := files r; offs := offs r; size := size r; pos := p |}.

(** [r.Seek(off, whence)]: the MultiFile afterwards, the position
    returned and the error. *)
Definition Seek (r : MultiFile) (off whence : Z) : MultiFile * Z * option error :=
  match seek_target off whence (pos r) (size r) with
  | None => (r, 0, Some ErrInvalid)
  | Some off =>
      if off <? 0 then (r, 0, Some ErrInvalid)
      else (with_pos r off, off, None)
  end.

(** [r.Read(p)] with [len = len(p)]: the position moves only when
    [ReadAt] returned no error. *)
Definition Read (r : MultiFile) (len : Z) : MultiFile * list byte * option error :=
  let '(d, err) := ReadAt r len (pos r) in
  match err with
  | Some e => (r, d, Some e)
  | None => (with_pos r (wrap64 (pos r + zlen d)), d, None)
  end.

Definition Size (r : MultiFile) : Z := size r.

(** The boundaries [NewMultiFile] computes from the sizes of the
    sources: the entry of the first source is left at zero, and every
    later entry is the entry before it plus the size of its own
    source. *)
Fixpoint boundaries (first : bool) (prev : Z) (sizes : list Z) : list Z :=
  match sizes with
  | [] => []
  | sz :: rest =>
      let v := if first then 0 else prev + sz in
      v :: boundaries false v rest
  end.

Definition source_data (h : hostfs) (name : string) : list byte :=
  match h name with
  | Some hf => h_data hf
  | None => []
  end.

(** A MultiFile over the single source [data]. *)
Definition one_source (r : MultiFile) (data : list byte) : Prop :=
  exists f, files r = [Some f] /\ f_data f = data /\ offs r = [0].

End MultiFileCursor.

Section FileCursor.

Context {R : Type} `{Reader R}.

Definition with_off (f : @File R) (o : Z) : @File R :=
  {| fs := fs f; fi := fi f; dp := dp f; dp_eof := dp_eof f; off := o |}.

(** [f.Read(p)]: the offset moves by the count whatever the error. *)
Definition Read (fuel : nat) (f : @File R) (len : Z)
  : run (@File R * list byte * option error) :=
  match ReadAt fuel f len (off f) with
  | Done (d, err) => Done (with_off f (wrap64 (off f + zlen d)), d, err)
  | Panic => Panic
  | OutOfFuel => OutOfFuel
  end.

(** [f.Seek(off, whence)]. *)
Definition Seek (f : @File R) (o whence : Z) : @File R * Z * option error :=
  match seek_target o whence (off f) (Length (fi f)) with
  | None => (f, 0, Some ErrInvalid)
  | Some o =>
      if o <? 0 then (f, 0, Some ErrInvalid)
      else (with_off f o, o, None)
  end.

(** [f.Stat()] and the size the record reports. *)
Definition Stat (f : @File R) : directory * option error := (fi f, None).

Definition Size (d : directory) : Z := Length d.

End FileCursor.

(** ** The driver: the one pure helper of qemu.go *)

Module Driver.

(** The loop of [contains] from index [i] on. *)
Fixpoint contains_from (a : list Z) (v : Z) (i : Z) : Z :=
  match a with
  | [] => -1
  | iv :: rest => if iv =? v then i else contains_from rest v (i + 1)
  end.

Definition contains (a : list Z) (v : Z) : Z := contains_from a v 0.

(** How [getTCPPort] ends: with a port, with the error of a failed
    attempt to listen (or to parse the address), or with the error
    "unable to allocate tcp port". *)
Inductive port_outcome :=
| Port (p : Z)
| ListenFailed
| NoPort.

(** The loop of [getTCPPort]: [k] attempts remain, [i] is the number of
    the next one, and [listen i] is the port the system hands out at
    attempt [i] ([None] when listening or parsing fails). *)
Fixpoint getTCPPort_loop (k i : nat) (listen : nat -> option Z) (OpenPorts : list Z)
  : port_outcome :=
  match k with
  | O => NoPort
  | S k' =>
      match listen i with
      | None => ListenFailed
      | Some p =>
          let p := if contains OpenPorts p >=? 0 then 0 else p in
          if negb (p =? 0) then Port p
          else getTCPPort_loop k' (S i) listen OpenPorts
      end
  end.

Definition getTCPPort (listen : nat -> option Z) (OpenPorts : list Z) : port_outcome :=
  getTCPPort_loop 6 0 listen OpenPorts.

(** An attempt that does not yield a port: the system handed out port
    zero or a port that is already in the list. *)
Definition rejected (listen : nat -> option Z) (OpenPorts : list Z) (j : nat) : Prop :=
  exists q, listen j = Some q /\ (q = 0 \/ In q OpenPorts).

End Driver.

Module MoreExamples.

(** A host where "a" is a regular file of three bytes and "x" opens
    but cannot be examined. *)
Definition host_nostat : hostfs :=
  fun name =>
    if String.eqb name "a" then Some {| h_data := [x01; x02; x03]; h_stat_ok := true |}
    else if String.eqb name "x" then Some {| h_data := [x04]; h_stat_ok := false |}
    else None.

(** The MultiFile over "a" and "b" of [Examples.host_ab], as the
    constructor leaves it. *)
Definition multifile_ab : MultiFile.MultiFile :=
  {| MultiFile.files :=
       [Some {| fd := 0; f_data := [x01; x02; x03]; f_stat_ok := true |};
        Some {| fd := 1; f_data := [x04; x05]; f_stat_ok := true |}];
     MultiFile.offs := [0; 2];
     MultiFile.size := 5;
     MultiFile.pos := 0 |}.

(** A medium of eighteen sectors of 2048 bytes with no volume
    descriptor: sector 16 carries the magic under a type byte of
    zero, and sector 17 is the set terminator. *)
Definition blank_bytes : list byte := Examples.iso2048_17 ++ Examples.terminator_sector.

Definition blank_image : Image.Image MultiFile.MultiFile :=
  {| Image.buffer := Examples.single blank_bytes;
     Image.sector := Examples.format_iso2048 |}.

(** The file system as [NewFileSystem] sets it up before [findVolumes]. *)
Definition blank_fs : FileSystem :=
  {| r := blank_image; pvd := pvd_zero; svd := pvd_zero; paths := [] |}.

(** A record of five bytes whose extent lies beyond the end of the
    small volume. *)
Definition far_record : directory :=
  {| Siz := 34; ExSize := 0; LBA := 100; Length := 5; Time := repeat x00 7;
     Flags := 0; Interleave_Size := 0; Interleave_Gap := 0; Seq := 1;
     Nam := "B"%string |}.

End MoreExamples.

(** The number of table bytes a list of path records accounts for. *)
Definition table_bytes (ps : list path) : Z :=
  fold_right (fun p s => p_Size p + s) 0 ps.

(** ** Full paths of path-table entries *)

Definition path_zero : path :=
  {| p_Size := 0; p_ExSize := 0; p_LBA := 0; p_Parent := 0; p_Name := EmptyString |}.

Section FullPath.

Variable Clean : string -> string.
Context {R : Type} `{Reader R}.

(** The loop of [fullPath]: [p] is the entry the walk has reached and
    [s] the path collected so far.  [None] means that the fuel ran out
    before the loop left. *)
Fixpoint fullPath_loop (fuel : nat) (paths : list path) (p : path) (s : string)
  : option string :=
  match fuel with
  | O => None
  | S k =>
      if negb ((0 <=? p_Parent p) && (p_Parent p <? zlen paths)) then Some s
      else
        let pp := p in
        let p := nth (Z.to_nat (p_Parent p)) paths path_zero in
        if p_Parent p =? p_Parent pp then Some s
        else fullPath_loop k paths p (p_Name p ++ "/" ++ s)%string
  end.

Definition fullPath (fuel : nat) (v : @FileSystem R) (p : path) : option string :=
  option_map (fun s => Clean ("/" ++ s)%string)
             (fullPath_loop fuel (paths v) p (p_Name p)).

End FullPath.

(** A table of two entries that name each other as parent. *)
Definition cyclic_paths : list path :=
  [{| p_Size := 10; p_ExSize := 0; p_LBA := 19; p_Parent := 1; p_Name := "." |};
   {| p_Size := 10; p_ExSize := 0; p_LBA := 20; p_Parent := 0; p_Name := "A" |}].

(** A table of four entries in which each entry but the first names
    a parent number that is not larger than its own index. *)
Definition nested_paths : list path :=
  [{| p_Size := 10; p_ExSize := 0; p_LBA := 19; p_Parent := 1; p_Name := "." |};
   {| p_Size := 10; p_ExSize := 0; p_LBA := 20; p_Parent := 1; p_Name := "A" |};
   {| p_Size := 10; p_ExSize := 0; p_LBA := 21; p_Parent := 1; p_Name := "B" |};
   {| p_Size := 10; p_ExSize := 0; p_LBA := 22; p_Parent := 2; p_Name := "C" |}].

(** * Properties *)

(** ** Lists, slices and integers *)

Lemma zlen_nonneg {A} (l : list A) : 0 <= zlen l.
Proof. unfold zlen; lia. Qed.

Lemma zlen_app {A} (a b : list A) : zlen (a ++ b) = zlen a + zlen b.
Proof. unfold zlen; rewrite length_app; lia. Qed.

Lemma zlen_nil {A} : zlen (@nil A) = 0.
Proof. reflexivity. Qed.

Lemma zlen_repeat {A} (x : A) (n : nat) : zlen (repeat x n) = Z.of_nat n.
Proof. unfold zlen; now rewrite repeat_length. Qed.

Lemma slice_length {A} (b : list A) (lo hi : Z) :
  length (slice b lo hi) = Nat.min (Z.to_nat (hi - lo)) (length b - Z.to_nat lo).
Proof. unfold slice; now rewrite length_firstn, length_skipn. Qed.

Lemma zlen_slice_le {A} (b : list A) (lo hi : Z) :
  0 <= hi - lo -> zlen (slice b lo hi) <= hi - lo.
Proof. intros; unfold zlen; rewrite slice_length; lia. Qed.

Lemma zlen_slice {A} (b : list A) (lo hi : Z) :
  0 <= lo <= hi -> hi <= zlen b -> zlen (slice b lo hi) = hi - lo.
Proof. unfold zlen; intros; rewrite slice_length; lia. Qed.

Lemma wrap64_small (z : Z) : - 2 ^ 63 <= z < 2 ^ 63 -> wrap64 z = z.
Proof. intros; unfold wrap64; rewrite Z.mod_small; lia. Qed.

Lemma wrap64_range (z : Z) : - 2 ^ 63 <= wrap64 z < 2 ^ 63.
Proof.
  unfold wrap64.
  pose proof (Z.mod_pos_bound (z + 2 ^ 63) (2 ^ 64) ltac:(lia)); lia.
Qed.

(** ** MultiFile *)

Module MultiFileProofs.
Import MultiFile MultiFileSpec.

(** *** Reading: the loop always returns *)

Lemma os_ReadAt_length (f : osFile) (len off : Z) :
  0 <= len -> zlen (fst (os_ReadAt f len off)) <= len.
Proof.
  intros Hlen; unfold os_ReadAt.
  destruct (off <? 0); cbn [fst].
  - rewrite zlen_nil; lia.
  - pose proof (@zlen_slice_le byte (f_data f) off (off + len)); lia.
Qed.

Lemma same_file_refl (f : osFile) : same_file f f = true.
Proof. apply Nat.eqb_refl. Qed.

Lemma ReadAt_loop_enough (r : MultiFile) (len : Z) :
  forall (fuel : nat) (f : osFile) (acc : list byte) (off : Z),
    - 2 ^ 63 <= off < 2 ^ 63 ->
    fileAt r off = Some f ->
    zlen acc <= len ->
    (Z.to_nat (len - zlen acc) < fuel)%nat ->
    exists res, ReadAt_loop fuel r f len acc off = Some res /\ zlen (fst res) <= len.
Proof.
  induction fuel as [|fuel IH]; intros f acc off Hoff Hf Hacc Hfuel; [lia|].
  cbn [ReadAt_loop].
  pose proof (@os_ReadAt_length f (len - zlen acc) off ltac:(lia)) as Hd.
  destruct (os_ReadAt f (len - zlen acc) off) as [d err] eqn:Hrd; cbn [fst] in Hd.
  assert (Hlen : zlen (acc ++ d) <= len) by (rewrite zlen_app; lia).
  destruct err as [e|]; [|eexists; split; [reflexivity|exact Hlen]].
  destruct e; try (eexists; split; [reflexivity|exact Hlen]).
  destruct (zlen (acc ++ d) =? len); [eexists; split; [reflexivity|exact Hlen]|].
  destruct (fileAt r (wrap64 (off + zlen d))) as [xf|] eqn:Hxf;
    [|eexists; split; [reflexivity|exact Hlen]].
  destruct (same_file xf f) eqn:Hsame; [eexists; split; [reflexivity|exact Hlen]|].
  assert (Hpos : zlen d <> 0).
  { intros Hz. rewrite Hz, Z.add_0_r, wrap64_small in Hxf by exact Hoff.
    rewrite Hf in Hxf; inversion Hxf; subst xf.
    rewrite same_file_refl in Hsame; discriminate. }
  pose proof (zlen_nonneg d).
  apply IH; auto using wrap64_range.
  rewrite zlen_app; lia.
Qed.

Lemma ReadAt_fuel_enough (r : MultiFile) (len off : Z) :
  0 <= len -> - 2 ^ 63 <= off < 2 ^ 63 ->
  exists res, ReadAt_fuel (S (Z.to_nat len)) r len off = Some res /\ zlen (fst res) <= len.
Proof.
  intros Hlen Hoff; unfold ReadAt_fuel.
  destruct (fileAt r off) as [f|] eqn:Hf.
  - apply ReadAt_loop_enough; auto; rewrite zlen_nil; lia.
  - eexists; split; [reflexivity|]; cbn; lia.
Qed.

(** The binary search does not run out of rounds. *)
Lemma fileAt_search_enough (offs : list Z) (pos : Z) :
  forall (fuel extra lo hi : nat),
    (hi - lo <= fuel)%nat ->
    fileAt_search (fuel + extra) offs pos lo hi = fileAt_search fuel offs pos lo hi.
Proof.
  induction fuel as [|fuel IH]; intros extra lo hi Hfuel.
  - cbn [Nat.add fileAt_search]. destruct extra as [|extra]; [reflexivity|].
    cbn [fileAt_search]. destruct (Nat.ltb_spec lo hi); [lia|reflexivity].
  - cbn [Nat.add fileAt_search].
    destruct (Nat.ltb_spec lo hi) as [Hlt|]; [|reflexivity].
    assert (Hhalf : ((hi - lo) / 2 < hi - lo)%nat) by (apply Nat.div_lt; lia).
    destruct (nth (lo + (hi - lo) / 2) offs 0 <? pos); apply IH; lia.
Qed.

(** *** Construction and closing *)

Lemma remove_fd_absent (x : nat) (l : list nat) : ~ In x l -> remove_fd x l = l.
Proof.
  unfold remove_fd; induction l as [|y l IH]; intros Hn; cbn; [reflexivity|].
  destruct (Nat.eqb_spec x y) as [->|Hxy]; cbn.
  - exfalso; apply Hn; now left.
  - f_equal; apply IH; intros Hin; apply Hn; now right.
Qed.

Lemma os_Close_open (f : osFile) (w : World) :
  snd (os_Close (Some f) w)
  = {| next_fd := next_fd w; open_fds := remove_fd (fd f) (open_fds w) |}.
Proof.
  unfold os_Close.
  destruct (existsb (Nat.eqb (fd f)) (open_fds w)) eqn:Hex; cbn [snd]; [reflexivity|].
  rewrite remove_fd_absent; [now destruct w|].
  intros Hin.
  assert (existsb (Nat.eqb (fd f)) (open_fds w) = true)
    by (apply existsb_exists; exists (fd f); split; [exact Hin|apply Nat.eqb_refl]).
  congruence.
Qed.

Lemma close_all_files (fs : list osFile) (k : nat) (w : World) :
  snd (close_all (map Some fs ++ repeat None k) w)
  = {| next_fd := next_fd w; open_fds := remove_all (fds_of fs) (open_fds w) |}.
Proof.
  revert w; induction fs as [|f fs IH]; intros w; cbn [map app fds_of remove_all fold_left].
  - induction k as [|k IHk]; cbn; [now destruct w|exact IHk].
  - cbn [close_all]; unfold bind at 1.
    pose proof (os_Close_open f w) as Hc.
    destruct (os_Close (Some f) w) as [e w1]; cbn [snd] in Hc; subst w1.
    rewrite IH; reflexivity.
Qed.

Lemma remove_fd_app (x : nat) (a b : list nat) :
  remove_fd x (a ++ b) = remove_fd x a ++ remove_fd x b.
Proof. unfold remove_fd; apply filter_app. Qed.

Lemma remove_fd_head (x : nat) (l : list nat) : remove_fd x (x :: l) = remove_fd x l.
Proof. unfold remove_fd; cbn [filter]; now rewrite Nat.eqb_refl. Qed.

Lemma remove_all_cons (x : nat) (xs l : list nat) :
  remove_all (x :: xs) l = remove_all xs (remove_fd x l).
Proof. reflexivity. Qed.

Lemma remove_all_fresh (a n : nat) (l : list nat) :
  (forall d, In d l -> (d < a)%nat) ->
  remove_all (seq a n) (rev (seq a n) ++ l) = l.
Proof.
  revert a l; induction n as [|n IH]; intros a l Hl; [reflexivity|].
  cbn [seq rev]; rewrite remove_all_cons.
  rewrite <- app_assoc, remove_fd_app; cbn [app].
  rewrite (@remove_fd_absent a (rev (seq (S a) n))).
  2:{ rewrite <- in_rev, in_seq; lia. }
  rewrite remove_fd_head, remove_fd_absent.
  2:{ intros Hin; apply Hl in Hin; lia. }
  apply (IH (S a) l); intros d Hd; apply Hl in Hd; lia.
Qed.


Lemma set_nth_files (fs : list osFile) (f : osFile) (k : nat) :
  set_nth (length fs) (Some f) (map Some fs ++ repeat None (S k))
  = map Some (fs ++ [f]) ++ repeat None k.
Proof.
  unfold set_nth.
  rewrite firstn_app, length_map, Nat.sub_diag, firstn_O, app_nil_r.
  rewrite firstn_all2 by (rewrite length_map; lia).
  rewrite skipn_app, length_map.
  rewrite skipn_all2 by (rewrite length_map; lia).
  replace (S (length fs) - length fs)%nat with 1%nat by lia.
  cbn [repeat skipn app]. rewrite map_app, <- app_assoc. reflexivity.
Qed.

(** The shape of the record and of the world wherever the loop stops:
    [fs'] are the handles it opened and stored, [leaked] a handle it
    opened and did not store. *)
Lemma NewMultiFile_loop_inv (h : hostfs) :
  forall names fs r w r' result err w',
    files r = map Some fs ++ repeat None (length names) ->
    NewMultiFile_loop h names (length fs) r w = (r', result, err, w') ->
    exists fs' leaked,
      files r' = map Some (fs ++ fs') ++ repeat None (length names - length fs') /\
      (length fs' <= length names)%nat /\
      fds_of fs' = seq (next_fd w) (length fs') /\
      open_fds w' = leaked ++ rev (fds_of fs') ++ open_fds w /\
      next_fd w' = (next_fd w + length fs' + length leaked)%nat /\
      (forall n, result = Some (ErrOpen n) -> leaked = []) /\
      (result = None -> leaked = [] /\ length fs' = length names /\ err = None).
Proof.
  induction names as [|name rest IH]; intros fs r w r' result err w' Hfiles Hrun.
  - cbn in Hrun; inversion Hrun; subst.
    exists [], []; cbn in Hfiles |- *; rewrite !app_nil_r in *.
    repeat split; auto; lia.
  - cbn [NewMultiFile_loop] in Hrun. unfold bind, os_Open in Hrun.
    destruct (h name) as [hf|] eqn:Hh.
    + set (f := {| fd := next_fd w; f_data := h_data hf; f_stat_ok := h_stat_ok hf |}) in *.
      set (w1 := {| next_fd := S (next_fd w); open_fds := next_fd w :: open_fds w |}) in *.
      destruct (os_Stat f) as [sz|e] eqn:Hstat.
      * match type of Hrun with
        | context [if nth _ (offs ?x) 0 <? 0 then _ else _] => set (r2 := x) in *
        end.
        assert (Hf2 : files r2 = map Some (fs ++ [f]) ++ repeat None (length rest)).
        { assert (files r2 = set_nth (length fs) (Some f) (files r))
            by (subst r2; destruct (length fs); reflexivity).
          rewrite H, Hfiles. apply set_nth_files. }
        destruct (nth (length fs) (offs r2) 0 <? 0).
        -- unfold ret in Hrun; inversion Hrun; subst.
           exists [f], []. cbn [length app rev fds_of map].
           rewrite Hf2.
           replace (S (length rest) - 1)%nat with (length rest) by lia.
           repeat split; auto; try lia; try discriminate; try (cbn; lia).
        -- replace (S (length fs)) with (length (fs ++ [f])) in Hrun
             by (rewrite length_app; cbn; lia).
           destruct (IH _ _ _ _ _ _ _ Hf2 Hrun)
             as (fs' & leaked & H1 & H2 & H3 & H4 & H5 & H6 & H7).
           exists (f :: fs'), leaked. cbn [length fds_of map rev] in *.
           rewrite <- app_assoc in H1; cbn [app] in H1.
           repeat split; auto; try lia; try (cbn in *; lia).
           ++ fold (fds_of fs'); rewrite H3; reflexivity.
           ++ rewrite H4. fold (fds_of fs'). rewrite <- !app_assoc. reflexivity.
           ++ apply H7; auto.
           ++ f_equal; apply H7; auto.
           ++ apply H7; auto.
      * unfold ret in Hrun; inversion Hrun; subst.
        exists [], [next_fd w]. cbn [length app rev fds_of map seq].
        rewrite app_nil_r, Nat.sub_0_r.
        repeat split; auto; try lia; try discriminate; try (cbn; lia).
    + unfold ret in Hrun; inversion Hrun; subst.
      exists [], []. cbn [length app rev fds_of map seq].
      rewrite app_nil_r, Nat.sub_0_r.
      repeat split; auto; try lia; try discriminate; try (cbn; lia).
Qed.


Lemma set_nth_length {A} (i : nat) (x : A) (l : list A) :
  (i < length l)%nat -> length (set_nth i x l) = length l.
Proof.
  intros; unfold set_nth.
  rewrite length_app, length_firstn; cbn [length]; rewrite length_skipn; lia.
Qed.

Lemma nth_set_nth {A} (l : list A) (i j : nat) (v d : A) :
  (i < length l)%nat ->
  nth j (set_nth i v l) d = if (j =? i)%nat then v else nth j l d.
Proof.
  intros Hi; unfold set_nth.
  destruct (Nat.eqb_spec j i) as [->|Hji].
  - rewrite app_nth2 by (rewrite length_firstn; lia).
    rewrite length_firstn.
    replace (i - Nat.min i (length l))%nat with 0%nat by lia. reflexivity.
  - destruct (Nat.lt_ge_cases j i) as [Hlt|Hge].
    + rewrite app_nth1 by (rewrite length_firstn; lia).
      rewrite nth_firstn.
      destruct (Nat.ltb_spec j i); [reflexivity|lia].
    + rewrite app_nth2 by (rewrite length_firstn; lia).
      rewrite length_firstn.
      replace (j - Nat.min i (length l))%nat with (S (j - S i)) by lia.
      cbn [nth]. rewrite nth_skipn. f_equal; lia.
Qed.

Lemma total_size_nonneg (h : hostfs) (names : list string) : 0 <= total_size h names.
Proof.
  unfold total_size; induction names as [|n names IH]; cbn; [lia|].
  assert (0 <= source_size h n)
    by (unfold source_size; destruct (h n); [apply zlen_nonneg|lia]).
  lia.
Qed.

(** When the sources before [k] open, report a size and keep the
    running offsets within [int64], the loop stops at source [k] with
    the error of [os.Open] in [err]. *)
Lemma NewMultiFile_loop_open_failure (h : hostfs) :
  forall names k (fs : list osFile) r w,
    (k < length names)%nat ->
    h (nth k names ""%string) = None ->
    (forall j, (j < k)%nat -> source_ok h (nth j names ""%string) = true) ->
    length (offs r) = (length fs + length names)%nat ->
    (forall j, 0 <= nth j (offs r) 0) ->
    nth (length fs - 1) (offs r) 0 + total_size h (firstn k names) < 2 ^ 63 ->
    exists r' w',
      NewMultiFile_loop h names (length fs) r w
      = (r', Some (ErrOpen (nth k names ""%string)),
         Some (ErrOpen (nth k names ""%string)), w') /\
      next_fd w' = (next_fd w + k)%nat.
Proof.
  induction names as [|name rest IH]; intros k fs r w Hk Hfail Hok Hlen Hpos Hsum;
    [cbn in Hk; lia|].
  cbn [NewMultiFile_loop]; unfold bind, os_Open.
  destruct k as [|k].
  - cbn in Hfail; rewrite Hfail. unfold ret; do 2 eexists; split; [reflexivity|lia].
  - pose proof (Hok 0%nat ltac:(lia)) as H0; unfold source_ok in H0; cbn [nth] in H0.
    destruct (h name) as [hf|] eqn:Hh; [|discriminate].
    unfold os_Stat; cbn [f_stat_ok f_data]; rewrite H0.
    set (f := {| fd := next_fd w; f_data := h_data hf; f_stat_ok := h_stat_ok hf |}).
    set (w1 := {| next_fd := S (next_fd w); open_fds := next_fd w :: open_fds w |}).
    set (sz := zlen (h_data hf)).
    assert (Hsz : 0 <= sz) by apply zlen_nonneg.
    cbn [firstn] in Hsum; unfold total_size in Hsum; cbn [map fold_right] in Hsum.
    unfold source_size in Hsum at 1; rewrite Hh in Hsum; fold sz in Hsum.
    fold (total_size h (firstn k rest)) in Hsum.
    pose proof (total_size_nonneg h (firstn k rest)) as Htot.
    match goal with
    | |- context [if nth _ (offs ?x) 0 <? 0 then _ else _] => set (r2 := x)
    end.
    assert (Hoffs2 : offs r2 = match length fs with
                               | O => offs r
                               | S j => set_nth (length fs) (nth j (offs r) 0 + sz) (offs r)
                               end).
    { subst r2; destruct (length fs) as [|j] eqn:Hl; cbn [offs]; [reflexivity|].
      rewrite wrap64_small; [reflexivity|].
      replace (S j - 1)%nat with j in Hsum by lia.
      pose proof (Hpos j); lia. }
    assert (Hlen2 : length (offs r2) = (length (fs ++ [f]) + length rest)%nat).
    { rewrite Hoffs2, length_app; cbn [length] in *.
      destruct (length fs); [lia|]. rewrite set_nth_length; lia. }
    assert (Hpos2 : forall j, 0 <= nth j (offs r2) 0).
    { intros j; rewrite Hoffs2.
      destruct (length fs) as [|i] eqn:Hl; [apply Hpos|].
      rewrite nth_set_nth by (cbn [length] in Hlen; lia).
      destruct (j =? S i)%nat; [pose proof (Hpos i); lia|apply Hpos]. }
    assert (Hcur : nth (length (fs ++ [f]) - 1) (offs r2) 0
                   <= nth (length fs - 1) (offs r) 0 + sz).
    { rewrite Hoffs2, length_app; cbn [length].
      replace (length fs + 1 - 1)%nat with (length fs) by lia.
      destruct (length fs) as [|i] eqn:Hl; [cbn; lia|].
      rewrite nth_set_nth by (cbn [length] in Hlen; lia).
      rewrite Nat.eqb_refl. replace (S i - 1)%nat with i by lia. lia. }
    destruct (Z.ltb_spec (nth (length fs) (offs r2) 0) 0) as [Hneg|_];
      [pose proof (Hpos2 (length fs)); lia|].
    replace (S (length fs)) with (length (fs ++ [f])) by (rewrite length_app; cbn; lia).
    cbn [nth].
    destruct (IH k (fs ++ [f]) r2 w1) as (r' & w' & Hrun & Hfd); auto.
    + cbn [length] in Hk; lia.
    + intros j Hj; apply (Hok (S j)); lia.
    + lia.
    + exists r', w'; split; [exact Hrun|]. rewrite Hfd; cbn; lia.
Qed.

(** [C8]  If opening the k-th source fails during the construction of
    a MultiFile (the sources before it having been opened and
    recorded), the construction surfaces that error only after every
    one of the [k] handles it opened has been closed: no descriptor
    handed out by the call is still open, and the open descriptors
    are those of before the call.  And [Close] on a fully constructed
    MultiFile closes every underlying source: after it the open
    descriptors are again those of before the construction. *)
Theorem NewMultiFile_closes_opened_sources (h : hostfs) (names : list string) (w : World) :
  world_ok w ->
  (forall k,
      (k < length names)%nat ->
      h (nth k names ""%string) = None ->
      (forall j, (j < k)%nat -> source_ok h (nth j names ""%string) = true) ->
      total_size h (firstn k names) < 2 ^ 63 ->
      exists w',
        NewMultiFile h names w = (inr (ErrOpen (nth k names ""%string)), w') /\
        next_fd w' = (next_fd w + k)%nat /\
        (forall d, (next_fd w <= d < next_fd w + k)%nat -> ~ is_open w' d) /\
        open_fds w' = open_fds w)
  /\
  (forall m w1,
      NewMultiFile h names w = (inl m, w1) ->
      exists fs,
        files m = map Some fs /\
        length fs = length names /\
        fds_of fs = seq (next_fd w) (length names) /\
        (forall f, In f fs -> is_open w1 (fd f)) /\
        (forall f, In f fs -> ~ is_open (snd (Close m w1)) (fd f)) /\
        open_fds (snd (Close m w1)) = open_fds w).
Proof.
  intros Hw; split.
  - intros k Hk Hfail Hok Hsum.
    set (r0 := {| files := repeat None (length names); offs := repeat 0 (length names);
                  size := 0; pos := 0 |}).
    destruct (@NewMultiFile_loop_open_failure h names k (@nil osFile) r0 w Hk Hfail Hok)
      as (r' & w' & Hrun & Hfd).
    + cbn; apply repeat_length.
    + intros j; cbn [offs r0].
      destruct (Nat.lt_ge_cases j (length names)).
      * rewrite nth_repeat_lt; lia.
      * rewrite nth_overflow; [lia|rewrite repeat_length; lia].
    + cbn [offs r0 length]. replace (nth (0 - 1) (repeat 0 (length names)) 0) with 0; [lia|].
      destruct names; [reflexivity|]; reflexivity.
    + destruct (@NewMultiFile_loop_inv h names (@nil osFile) r0 w _ _ _ _ eq_refl Hrun)
        as (fs' & leaked & H1 & H2 & H3 & H4 & H5 & H6 & _).
      specialize (H6 _ eq_refl); subst leaked.
      cbn [app length] in *.
      pose proof (close_all_files fs' (length names - length fs') w') as Hc.
      rewrite <- H1 in Hc. rewrite H4, H3 in Hc.
      rewrite remove_all_fresh in Hc by exact Hw.
      exists (snd (close_all (files r') w')).
      assert (Hres : NewMultiFile h names w
                     = (inr (ErrOpen (nth k names ""%string)), snd (close_all (files r') w'))).
      { unfold NewMultiFile; fold r0. unfold bind at 1. cbn [length] in Hrun. rewrite Hrun.
        cbv [bind Close ret].
        destruct (close_all (files r') w'); reflexivity. }
      rewrite Hres, Hc; cbn [next_fd open_fds].
      repeat split; auto.
      intros d Hd Hopen; apply Hw in Hopen; lia.
  - intros m w1 Hnew.
    set (r0 := {| files := repeat None (length names); offs := repeat 0 (length names);
                  size := 0; pos := 0 |}) in *.
    unfold NewMultiFile in Hnew; fold r0 in Hnew. unfold bind at 1 in Hnew.
    destruct (NewMultiFile_loop h names 0 r0 w) as [[[r' result] err] w'] eqn:Hrun.
    destruct (@NewMultiFile_loop_inv h names (@nil osFile) r0 w _ _ _ _ eq_refl Hrun)
      as (fs' & leaked & H1 & H2 & H3 & H4 & H5 & _ & H7).
    assert (Hres : result = None).
    { destruct result; [|reflexivity].
      cbv [bind ret] in Hnew.
      destruct err; [destruct (Close r' w')|]; discriminate. }
    destruct (H7 Hres) as (-> & Hlen & ->); subst result.
    unfold bind, ret in Hnew; inversion Hnew; subst m w1; clear Hnew.
    cbn [app] in *. rewrite Hlen, Nat.sub_diag in H1; cbn [repeat] in H1.
    rewrite app_nil_r in H1.
    assert (Hclose : snd (Close r' w')
                     = {| next_fd := next_fd w'; open_fds := open_fds w |}).
    { cbv [Close bind ret].
      pose proof (close_all_files fs' 0 w') as Hc; cbn [repeat] in Hc.
      rewrite app_nil_r, <- H1 in Hc.
      destruct (close_all (files r') w') as [u w2]; cbn [snd] in *.
      rewrite Hc, H4, H3, remove_all_fresh by exact Hw. reflexivity. }
    exists fs'. rewrite Hclose, <- Hlen; cbn [open_fds].
    repeat split; auto.
    + intros f Hf; unfold is_open; rewrite H4.
      apply in_or_app; left. rewrite <- in_rev. now apply in_map.
    + intros f Hf Hopen; apply Hw in Hopen.
      assert (Hin : In (fd f) (fds_of fs')) by now apply in_map.
      rewrite H3 in Hin; apply in_seq in Hin; lia.
Qed.


(** [ReadAt] never stores more than the destination holds. *)
Lemma ReadAt_loop_length (r : MultiFile) (len : Z) :
  forall (fuel : nat) (f : osFile) (acc : list byte) (off : Z) res,
    zlen acc <= len ->
    ReadAt_loop fuel r f len acc off = Some res ->
    zlen (fst res) <= len.
Proof.
  induction fuel as [|fuel IH]; intros f acc off res Hacc Hrun; [discriminate|].
  cbn [ReadAt_loop] in Hrun.
  pose proof (@os_ReadAt_length f (len - zlen acc) off ltac:(lia)) as Hd.
  destruct (os_ReadAt f (len - zlen acc) off) as [d err]; cbn [fst] in Hd.
  assert (Hlen : zlen (acc ++ d) <= len) by (rewrite zlen_app; lia).
  destruct err as [e|]; [|inversion Hrun; subst; exact Hlen].
  destruct e; try (inversion Hrun; subst; exact Hlen).
  destruct (zlen (acc ++ d) =? len); [inversion Hrun; subst; exact Hlen|].
  destruct (fileAt r (wrap64 (off + zlen d))) as [xf|];
    [|inversion Hrun; subst; exact Hlen].
  destruct (same_file xf f); [inversion Hrun; subst; exact Hlen|].
  eapply IH; eauto.
Qed.

Lemma ReadAt_length (r : MultiFile) (len off : Z) :
  0 <= len -> zlen (fst (ReadAt r len off)) <= len.
Proof.
  intros Hlen; unfold ReadAt, ReadAt_fuel.
  destruct (fileAt r off) as [f|]; [|cbn; lia].
  destruct (ReadAt_loop (S (Z.to_nat len)) r f len [] off) as [res|] eqn:Hrun; [|cbn; lia].
  eapply ReadAt_loop_length; eauto. rewrite zlen_nil; lia.
Qed.

(** The MultiFile of the examples is the one the constructor builds
    from a single source. *)
Lemma single_is_constructed (data : list byte) :
  zlen data < 2 ^ 63 ->
  NewMultiFile (fun _ => Some {| h_data := data; h_stat_ok := true |})
               ["img"%string] Examples.w0
  = (inl (Examples.single data), {| next_fd := 1; open_fds := [0%nat] |}).
Proof.
  intros Hlen. pose proof (zlen_nonneg data).
  cbv [NewMultiFile NewMultiFile_loop bind ret os_Open os_Stat Examples.w0].
  cbn -[wrap64 Z.add zlen Z.pow].
  rewrite Z.add_0_l, wrap64_small by lia. reflexivity.
Qed.

(** With a single source the MultiFile reads as the file does. *)
Lemma single_ReadAt (data : list byte) (len off : Z) :
  0 <= len -> 0 <= off < 2 ^ 63 ->
  ReadAt (Examples.single data) len off
  = (slice data off (off + len),
     if zlen (slice data off (off + len)) <? len then Some EOF else None).
Proof.
  intros Hlen Hoff.
  set (f := {| fd := 0; f_data := data; f_stat_ok := true |}).
  assert (Hat : forall p, 0 <= p -> fileAt (Examples.single data) p = Some f).
  { intros p Hp; unfold fileAt; cbn.
    destruct (Z.ltb_spec p 0); [lia|]. cbn.
    destruct p; try reflexivity; lia. }
  unfold ReadAt, ReadAt_fuel; rewrite Hat by lia.
  cbn [ReadAt_loop]. unfold os_ReadAt.
  destruct (Z.ltb_spec off 0); [lia|].
  rewrite zlen_nil, Z.sub_0_r; cbn [app f_data f].
  set (d := slice data off (off + len)).
  destruct (Z.ltb_spec (zlen d) len) as [Hshort|Hfull]; [|reflexivity].
  destruct (Z.eqb_spec (zlen d) len); [lia|].
  pose proof (zlen_nonneg d).
  destruct (Z.le_gt_cases (2 ^ 63) (off + zlen d)) as [Hbig|Hsmall].
  - unfold fileAt; cbn [files Examples.single length Nat.eqb orb].
    pose proof (wrap64_range (off + zlen d)).
    destruct (wrap64 (off + zlen d) <? 0) eqn:Hneg; [reflexivity|].
    assert (Hz : fileAt (Examples.single data) (wrap64 (off + zlen d)) = Some f)
      by (apply Hat; lia).
    unfold fileAt in Hz; cbn [files Examples.single length Nat.eqb orb] in Hz.
    rewrite Hneg in Hz. rewrite Hz, same_file_refl. reflexivity.
  - rewrite wrap64_small by lia. rewrite Hat by lia.
    rewrite same_file_refl. reflexivity.
Qed.

(** [C1]  Two sources "a" (bytes 1 2 3) and "b" (bytes 4 5): the
    constructor records the boundaries 0 and 2, and a read of two
    bytes at offset 3, which the contiguous file answers with 4 5,
    returns no byte and end-of-data; a read of five bytes at offset 0
    stops after the first source. *)
Theorem MultiFile_ReadAt_never_reaches_second_source :
  exists m w,
    NewMultiFile Examples.host_ab ["a"; "b"]%string Examples.w0 = (inl m, w) /\
    offs m = [0; 2] /\
    ReadAt m 2 3 = ([], Some EOF) /\
    contiguous_ReadAt [[x01; x02; x03]; [x04; x05]] 2 3 = ([x04; x05], None) /\
    ReadAt m 5 0 = ([x01; x02; x03], Some EOF) /\
    contiguous_ReadAt [[x01; x02; x03]; [x04; x05]] 5 0
    = ([x01; x02; x03; x04; x05], None).
Proof.
  do 2 eexists; split; [vm_compute; reflexivity|].
  repeat split; vm_compute; reflexivity.
Qed.

Lemma NewMultiFile_closes_opened_sources_witness :
  exists w',
    NewMultiFile Examples.host_ab ["a"; "b"; "c"]%string Examples.w0
    = (inr (ErrOpen "c"), w') /\
    next_fd w' = 2%nat /\ open_fds w' = [].
Proof.
  assert (Hw : world_ok Examples.w0) by (intros d []).
  destruct (proj1 (@NewMultiFile_closes_opened_sources Examples.host_ab
                     ["a"; "b"; "c"]%string Examples.w0 Hw) 2%nat)
    as (w' & H1 & H2 & _ & H4).
  - cbn; lia.
  - reflexivity.
  - intros j Hj; destruct j as [|[|j]]; [reflexivity|reflexivity|lia].
  - vm_compute; reflexivity.
  - exists w'; repeat split; assumption.
Defined.

End MultiFileProofs.

(** ** Image *)

Lemma bytes_eqb_eq (a b : list byte) : bytes_eqb a b = true <-> a = b.
Proof.
  revert b; induction a as [|x a IH]; intros [|y b]; cbn; split; intros Hab;
    try reflexivity; try discriminate.
  - apply andb_prop in Hab as [Hxy Hab].
    apply Byte.byte_dec_bl in Hxy. apply IH in Hab. congruence.
  - inversion Hab; subst. rewrite (proj2 (IH b) eq_refl), andb_true_r.
    apply Byte.byte_dec_lb; reflexivity.
Qed.

Lemma blit_0 {A} (p d : list A) : blit p 0 d = d ++ skipn (length d) p.
Proof. reflexivity. Qed.

Lemma zlen_blit_0 {A} (p d : list A) : zlen d <= zlen p -> zlen (blit p 0 d) = zlen p.
Proof.
  unfold zlen; intros Hd; rewrite blit_0, length_app, length_skipn; lia.
Qed.

Lemma slice_app_l {A} (a b : list A) (lo hi : Z) :
  0 <= lo -> hi <= zlen a -> slice (a ++ b) lo hi = slice a lo hi.
Proof.
  unfold zlen, slice; intros Hlo Hhi.
  rewrite skipn_app, firstn_app, length_skipn.
  replace (Z.to_nat (hi - lo) - (length a - Z.to_nat lo))%nat with 0%nat by lia.
  now rewrite firstn_O, app_nil_r.
Qed.

Lemma slice_blit_0 {A} (p d : list A) (lo hi : Z) :
  0 <= lo -> hi <= zlen d -> slice (blit p 0 d) lo hi = slice d lo hi.
Proof. intros; rewrite blit_0; now apply slice_app_l. Qed.

Module ImageProofs.
Import Image ImageSpec.

Section WithBuffer.
Context {B : Type} `{Buffer B}.

Lemma sector_pos_fits (s : sectorFormat) (lba : Z) :
  pos_fits s lba -> sector_pos s lba = lba * size s + start s + offset s.
Proof.
  intros (H1 & H2 & H3); unfold sector_pos.
  now rewrite (wrap64_small H1), (wrap64_small H2), (wrap64_small H3).
Qed.

Lemma ReadSector_length (m : Image B) (lba blen : Z) :
  buffer_ok (buffer m) -> 0 <= blen -> 0 <= size (sector m) ->
  zlen (fst (ReadSector m lba blen)) <= Z.min blen (size (sector m)).
Proof.
  intros Hb Hlen Hsize; unfold ReadSector.
  set (len := if blen >? size (sector m) then size (sector m) else blen).
  assert (Hmin : len = Z.min blen (size (sector m)))
    by (subst len; destruct (Z.gtb_spec blen (size (sector m))); lia).
  pose proof (Hb len (sector_pos (sector m) lba) ltac:(lia)) as Hd.
  destruct (buf_ReadAt (buffer m) len (sector_pos (sector m) lba)) as [d err].
  cbn [fst] in Hd.
  destruct err; [cbn; lia|].
  destruct (blen <? size (sector m)); [cbn; lia|].
  destruct (zlen d <? minSectorLength); cbn; lia.
Qed.

Lemma ReadSector_success (m : Image B) (lba blen : Z) :
  snd (ReadSector m lba blen) = None ->
  size (sector m) <= blen /\ minSectorLength <= zlen (fst (ReadSector m lba blen)).
Proof.
  unfold ReadSector.
  destruct (buf_ReadAt (buffer m) _ (sector_pos (sector m) lba)) as [d err].
  destruct err; [discriminate|].
  destruct (Z.ltb_spec blen (size (sector m))); [discriminate|].
  destruct (Z.ltb_spec (zlen d) minSectorLength); [discriminate|].
  cbn; lia.
Qed.

(** [C7]  [ReadSector(lba, b)] reads [min(len(b), sectorSize)] bytes at
    the physical offset [lba*sectorSize + start + offset] and returns
    what that read stored.  An error of the underlying read, which
    includes end-of-data when fewer bytes than asked for were there, is
    returned as it is; only when the underlying read reports no error
    does [ReadSector] return the short-buffer error for a destination
    smaller than the sector, and otherwise the unexpected-end-of-data
    error when fewer than 2048 bytes were stored. *)
Theorem ReadSector_outcome (m : Image B) (lba blen : Z) :
  pos_fits (sector m) lba ->
  let under := buf_ReadAt (buffer m) (Z.min blen (size (sector m)))
                          (lba * size (sector m) + start (sector m) + offset (sector m)) in
  let res := ReadSector m lba blen in
  fst res = fst under /\
  (forall e, snd under = Some e -> snd res = Some e) /\
  (snd under = None -> blen < size (sector m) -> snd res = Some ErrShortBuffer) /\
  (snd under = None -> size (sector m) <= blen -> zlen (fst under) < 2048 ->
   snd res = Some ErrUnexpectedEOF) /\
  (snd under = None -> size (sector m) <= blen -> 2048 <= zlen (fst under) ->
   snd res = None).
Proof.
  intros Hfits; cbv zeta. unfold ReadSector.
  rewrite (sector_pos_fits Hfits).
  replace (if blen >? size (sector m) then size (sector m) else blen)
    with (Z.min blen (size (sector m)))
    by (destruct (Z.gtb_spec blen (size (sector m))); lia).
  destruct (buf_ReadAt (buffer m) _ _) as [d err]; cbn [fst snd].
  destruct err as [e|].
  - repeat split; try discriminate. intros e' He; exact He.
  - unfold minSectorLength.
    destruct (Z.ltb_spec blen (size (sector m)));
      destruct (Z.ltb_spec (zlen d) 2048);
      repeat split; intros; try discriminate; try reflexivity; lia.
Qed.


Lemma passed_over_cons (b : B) (s : sectorFormat) (rest : list sectorFormat) (k : nat) :
  readable b s -> ~ has_magic b s -> passed_over b rest k ->
  passed_over b (s :: rest) (S k).
Proof.
  intros Hr Hm Hrest [|j] s' Hj Hnth; cbn in Hnth.
  - inversion Hnth; subst; auto.
  - apply (Hrest j); [lia|exact Hnth].
Qed.

Lemma NewImage_loop_spec (b : B) :
  buffer_ok b ->
  forall fmts p,
    zlen p = maxSectorLength ->
    (forall s, In s fmts -> 0 <= size s) ->
    probe_result b fmts (NewImage_loop b fmts p).
Proof.
  intros Hb; induction fmts as [|s rest IH]; intros p Hp Hsize.
  - cbn. intros j s Hj; cbn in Hj; lia.
  - cbn [NewImage_loop]. rewrite Hp. fold (probe_read b s).
    pose proof (@ReadSector_length {| buffer := b; sector := s |} 16 maxSectorLength Hb
                  ltac:(unfold maxSectorLength; lia) (Hsize s (or_introl eq_refl))) as Hlen.
    pose proof (@ReadSector_success {| buffer := b; sector := s |} 16 maxSectorLength) as Hok.
    fold (probe_read b s) in Hlen, Hok.
    destruct (probe_read b s) as [d err] eqn:Hrd; cbn [fst snd] in *.
    destruct err as [e|].
    + cbn. exists 0%nat, s. split; [reflexivity|]. split; [now rewrite Hrd|].
      intros j s' Hj; lia.
    + destruct (Hok eq_refl) as [_ Hmin]; unfold minSectorLength in Hmin.
      rewrite slice_blit_0 by lia.
      destruct (bytes_eqb (slice d 1 6) magic) eqn:Hmagic.
      * cbn. split; [reflexivity|]. exists 0%nat.
        split; [reflexivity|].
        split; [unfold readable; now rewrite Hrd|].
        split; [unfold has_magic; rewrite Hrd; now apply bytes_eqb_eq|].
        intros j s' Hj; lia.
      * assert (Hr : readable b s) by (unfold readable; now rewrite Hrd).
        assert (Hm : ~ has_magic b s).
        { unfold has_magic; rewrite Hrd; cbn [fst]; intros Heq.
          apply bytes_eqb_eq in Heq; congruence. }
        assert (Hp' : zlen (blit p 0 d) = maxSectorLength)
          by (rewrite zlen_blit_0; lia).
        specialize (IH (blit p 0 d) Hp' (fun s' Hs' => Hsize s' (or_intror Hs'))).
        destruct (NewImage_loop b rest (blit p 0 d)) as [m|e]; cbn in IH |- *.
        -- destruct IH as (Hbuf & k & H1 & H2 & H3 & H4).
           split; [exact Hbuf|]. exists (S k).
           split; [exact H1|]. split; [exact H2|]. split; [exact H3|].
           now apply passed_over_cons.
        -- destruct e; try contradiction.
           ++ now apply passed_over_cons.
           ++ destruct IH as (k & s' & H1 & H2 & H3).
              exists (S k), s'. split; [exact H1|]. split; [exact H2|].
              now apply passed_over_cons.
Qed.

Lemma sectorFormats_size (s : sectorFormat) : In s sectorFormats -> 2048 <= size s <= 2448.
Proof.
  cbn; intros Hin.
  repeat (destruct Hin as [<-|Hin]; [cbn; lia|]); contradiction.
Qed.

Lemma NewImage_spec (b : B) :
  buffer_ok b -> probe_result b sectorFormats (NewImage b).
Proof.
  intros Hb; unfold NewImage; apply NewImage_loop_spec; [exact Hb| |].
  - rewrite zlen_repeat, Z2Nat.id; [reflexivity|unfold maxSectorLength; lia].
  - intros s Hs; apply sectorFormats_size in Hs; lia.
Qed.

(** [C2]  The ten formats are tried in the order of the table; a format
    is accepted exactly when the read of its sector 16 succeeds and
    bytes [1,6) of what was read are the magic.  So for each format
    of the table, probing a buffer that carries the magic in that
    format's sector 16, from which every format up to and including it
    can read its sector 16, and in which no earlier format finds the
    magic, selects exactly that format.  A read that fails ends the
    probe with that read error, and the probe fails with the format
    error exactly when all ten reads succeed and none shows the
    magic. *)
Theorem NewImage_probe (b : B) :
  buffer_ok b ->
  (forall k s,
      nth_error sectorFormats k = Some s ->
      readable b s -> has_magic b s -> passed_over b sectorFormats k ->
      NewImage b = inl {| buffer := b; sector := s |})
  /\
  (forall m,
      NewImage b = inl m ->
      buffer m = b /\
      exists k, nth_error sectorFormats k = Some (sector m) /\
                readable b (sector m) /\ has_magic b (sector m) /\
                passed_over b sectorFormats k)
  /\
  (NewImage b = inr ErrFormat <->
   passed_over b sectorFormats (length sectorFormats))
  /\
  (forall e,
      NewImage b = inr (ErrReadingImage e) <->
      exists k s, nth_error sectorFormats k = Some s /\
                  snd (probe_read b s) = Some e /\ passed_over b sectorFormats k).
Proof.
  intros Hb. pose proof (NewImage_spec Hb) as Hspec.
  assert (Hsel : forall k s,
             nth_error sectorFormats k = Some s ->
             readable b s -> has_magic b s -> passed_over b sectorFormats k ->
             NewImage b = inl {| buffer := b; sector := s |}).
  { intros k s Hk Hr Hm Hp.
    destruct (NewImage b) as [m|e]; cbn in Hspec.
    - destruct Hspec as (Hbuf & k' & Hk' & _ & Hm' & Hp').
      destruct (Nat.lt_trichotomy k k') as [Hlt|[->|Hgt]].
      + destruct (Hp' k s Hlt Hk) as [_ Hn]; contradiction.
      + rewrite Hk in Hk'; inversion Hk'. destruct m; cbn in *; subst; reflexivity.
      + destruct (Hp k' (sector m) Hgt Hk') as [_ Hn]; contradiction.
    - destruct e; try contradiction.
      + assert (Hlt : (k < length sectorFormats)%nat)
          by (apply nth_error_Some; congruence).
        destruct (Hspec k s Hlt Hk) as [_ Hn]; contradiction.
      + destruct Hspec as (k' & s' & Hk' & He & Hp').
        destruct (Nat.lt_trichotomy k k') as [Hlt|[->|Hgt]].
        * destruct (Hp' k s Hlt Hk) as [_ Hn]; contradiction.
        * rewrite Hk in Hk'; inversion Hk'; subst s'.
          unfold readable in Hr; congruence.
        * destruct (Hp k' s' Hgt Hk') as [Hr' _]. unfold readable in Hr'; congruence. }
  split; [exact Hsel|].
  split; [intros m Hm; rewrite Hm in Hspec; exact Hspec|].
  split; [split|intros e; split].
  - intros He; rewrite He in Hspec; exact Hspec.
  - intros Hall.
    destruct (NewImage b) as [m|e]; cbn in Hspec.
    + destruct Hspec as (_ & k & Hk & _ & Hm & _).
      assert (Hlt : (k < length sectorFormats)%nat) by (apply nth_error_Some; congruence).
      destruct (Hall k _ Hlt Hk) as [_ Hn]; contradiction.
    + destruct e; try contradiction; [reflexivity|].
      destruct Hspec as (k & s & Hk & He & _).
      assert (Hlt : (k < length sectorFormats)%nat) by (apply nth_error_Some; congruence).
      destruct (Hall k _ Hlt Hk) as [Hr _]. unfold readable in Hr; congruence.
  - intros He; rewrite He in Hspec; exact Hspec.
  - intros (k & s & Hk & He & Hp).
    destruct (NewImage b) as [m|e'] eqn:Hnew; cbn in Hspec.
    + destruct Hspec as (_ & k' & Hk' & Hr' & Hm' & Hp').
      destruct (Nat.lt_trichotomy k k') as [Hlt|[->|Hgt]].
      * destruct (Hp' k s Hlt Hk) as [Hr _]. unfold readable in Hr; congruence.
      * rewrite Hk in Hk'; inversion Hk'; subst s. unfold readable in Hr'; congruence.
      * destruct (Hp k' _ Hgt Hk') as [_ Hn]; contradiction.
    + destruct e'; try contradiction.
      * assert (Hlt : (k < length sectorFormats)%nat) by (apply nth_error_Some; congruence).
        destruct (Hspec k s Hlt Hk) as [Hr _]. unfold readable in Hr; congruence.
      * destruct Hspec as (k' & s' & Hk' & He' & Hp').
        destruct (Nat.lt_trichotomy k k') as [Hlt|[->|Hgt]].
        -- destruct (Hp' k s Hlt Hk) as [Hr _]. unfold readable in Hr; congruence.
        -- rewrite Hk in Hk'; inversion Hk'; subst s'. congruence.
        -- destruct (Hp k' s' Hgt Hk') as [Hr _]. unfold readable in Hr; congruence.
Qed.

End WithBuffer.

End ImageProofs.

(** ** Image over a MultiFile *)

Lemma MultiFile_buffer_ok (r : MultiFile.MultiFile) : ImageSpec.buffer_ok r.
Proof. intros len off Hlen; apply MultiFileProofs.ReadAt_length; exact Hlen. Qed.

Module ImageExamples.
Import Image ImageSpec ImageProofs.

Lemma ReadSector_outcome_witness :
  pos_fits Examples.format_iso2048 16 /\
  ReadSector Examples.iso2048_image 16 2456
  = (slice Examples.iso2048_17 (16 * 2048) (17 * 2048), None).
Proof.
  assert (Hfits : pos_fits (sector Examples.iso2048_image) 16)
    by (unfold pos_fits; cbn; lia).
  split; [exact Hfits|].
  destruct (@ReadSector_outcome _ _ Examples.iso2048_image 16 2456 Hfits)
    as (Hfst & _ & _ & _ & Hnone).
  apply injective_projections; cbn [fst snd].
  - rewrite Hfst; vm_compute; reflexivity.
  - apply Hnone; vm_compute; [reflexivity|discriminate|discriminate].
Defined.

(** A medium of ten bytes read as a 2048-byte sector: fewer than 2048
    bytes are available at the offset, the destination has the sector
    size, and the error is plain end-of-data; with a destination
    smaller than the sector the error is end-of-data as well. *)
Lemma ReadSector_short_medium_returns_EOF :
  buf_Size (buffer Examples.ten_image) = 10 /\
  ReadSector Examples.ten_image 0 2048 = (Examples.ten_bytes, Some EOF) /\
  snd (ReadSector Examples.ten_image 0 2048) <> Some ErrUnexpectedEOF /\
  ReadSector Examples.ten_image 0 100 = (Examples.ten_bytes, Some EOF) /\
  snd (ReadSector Examples.ten_image 0 100) <> Some ErrShortBuffer.
Proof.
  repeat split; try (vm_compute; reflexivity); vm_compute; discriminate.
Qed.

Lemma NewImage_probe_witness :
  buffer_ok (Examples.single Examples.iso2048_17) /\
  NewImage (Examples.single Examples.iso2048_17) = inl Examples.iso2048_image.
Proof.
  split; [apply MultiFile_buffer_ok|].
  apply (proj1 (@NewImage_probe _ _ (Examples.single Examples.iso2048_17)
                  (MultiFile_buffer_ok _)) 0%nat Examples.format_iso2048).
  - reflexivity.
  - vm_compute; reflexivity.
  - vm_compute; reflexivity.
  - intros j s Hj; lia.
Defined.

(** Seventeen whole raw sectors of 2352 bytes with the magic in the
    payload of sector 16: the third format of the table is the one the
    medium is laid out with, and the probe ends with a read error,
    because the read of a whole sector from the payload offset runs 24
    bytes past the end of the medium. *)
Lemma NewImage_rejects_seventeen_raw_sectors :
  laid_out Examples.format_raw2352 Examples.raw2352_17 /\
  nth_error sectorFormats 2 = Some Examples.format_raw2352 /\
  NewImage (Examples.single Examples.raw2352_17) = inr (ErrReadingImage EOF).
Proof.
  split; [split|split].
  - vm_compute; discriminate.
  - vm_compute; reflexivity.
  - reflexivity.
  - vm_compute; reflexivity.
Qed.

(** On media of 348840 bytes, which is what the read of the farthest
    candidate needs, each format of the table is selected for the
    synthetic buffer laid out with it. *)
Example NewImage_selects_each_format :
  map (fun s => Examples.selected (Examples.synthetic s 348840)) sectorFormats
  = map Some sectorFormats.
Proof. vm_compute; reflexivity. Qed.

(** Seventeen plain sectors short of their first eight bytes, the
    eighth format of the table: the read of the second candidate ends
    the probe. *)
Example NewImage_short_medium :
  Examples.selected
    (Examples.synthetic {| size := 2048; offset := -8; start := 0 |} (17 * 2048 - 8))
  = None.
Proof. vm_compute; reflexivity. Qed.

End ImageExamples.

(** ** More on slices *)

Lemma byte_at_app_l (a b : list byte) (i : Z) :
  0 <= i < zlen a -> byte_at (a ++ b) i = byte_at a i.
Proof.
  unfold byte_at, zlen; intros Hi. rewrite app_nth1 by lia. reflexivity.
Qed.

Lemma byte_at_slice (b : list byte) (lo hi i : Z) :
  0 <= lo -> 0 <= i < hi - lo -> byte_at (slice b lo hi) i = byte_at b (lo + i).
Proof.
  unfold byte_at, slice; intros Hlo Hi.
  rewrite nth_firstn.
  destruct (Nat.ltb_spec (Z.to_nat i) (Z.to_nat (hi - lo))); [|lia].
  rewrite nth_skipn. do 2 f_equal. lia.
Qed.

Lemma byte_at_blit_0 (p d : list byte) (i : Z) :
  0 <= i < zlen d -> byte_at (blit p 0 d) i = byte_at d i.
Proof. intros; rewrite blit_0; now apply byte_at_app_l. Qed.

Lemma byte_at_range (b : list byte) (i : Z) : 0 <= byte_at b i <= 255.
Proof.
  unfold byte_at, b2z.
  pose proof (Byte.to_N_bounded (nth (Z.to_nat i) b x00)). lia.
Qed.


Lemma Uint32_ext (r : ByteOrder) (a b : list byte) :
  byte_at a 0 = byte_at b 0 -> byte_at a 1 = byte_at b 1 ->
  byte_at a 2 = byte_at b 2 -> byte_at a 3 = byte_at b 3 ->
  Uint32 r a = Uint32 r b.
Proof. intros H0 H1 H2 H3; unfold Uint32; destruct r; now rewrite H0, H1, H2, H3. Qed.

Lemma slice_0_app {A} (a b : list A) (n : Z) :
  zlen a <= n -> slice (a ++ b) 0 n = a ++ slice b 0 (n - zlen a).
Proof.
  unfold zlen, slice; intros Hn; cbn [Z.to_nat skipn].
  rewrite !Z.sub_0_r, firstn_app.
  rewrite firstn_all2 by lia. do 2 f_equal. lia.
Qed.

Lemma slice_0_firstn {A} (b : list A) (n : Z) : slice b 0 n = firstn (Z.to_nat n) b.
Proof. unfold slice; cbn [Z.to_nat skipn]; now rewrite Z.sub_0_r. Qed.

Lemma skipn_slice {A} (b : list A) (lo hi k : Z) :
  0 <= lo -> 0 <= k ->
  skipn (Z.to_nat k) (slice b lo hi) = slice b (lo + k) hi.
Proof.
  unfold slice; intros Hlo Hk.
  rewrite skipn_firstn_comm, skipn_skipn.
  f_equal; [lia|f_equal; lia].
Qed.

Lemma slice_empty {A} (b : list A) (lo hi : Z) : hi <= lo -> slice b lo hi = [].
Proof.
  unfold slice; intros Hle. replace (Z.to_nat (hi - lo)) with 0%nat by lia. reflexivity.
Qed.

Lemma firstn_slice {A} (b : list A) (lo hi m : Z) :
  0 <= m -> firstn (Z.to_nat m) (slice b lo hi) = slice b lo (Z.min hi (lo + m)).
Proof.
  unfold slice; intros Hm. rewrite firstn_firstn. f_equal. lia.
Qed.

Lemma firstn_plus {A} (a b : nat) (l : list A) :
  firstn (a + b) l = firstn a l ++ firstn b (skipn a l).
Proof.
  revert l; induction a as [|a IH]; intros [|x l]; cbn; try reflexivity.
  - now rewrite firstn_nil.
  - now rewrite IH.
Qed.

Lemma slice_cat {A} (l : list A) (a b c : Z) :
  0 <= a <= b -> b <= c -> slice l a b ++ slice l b c = slice l a c.
Proof.
  unfold slice; intros Hab Hbc.
  replace (Z.to_nat b) with (Z.to_nat (b - a) + Z.to_nat a)%nat by lia.
  rewrite <- skipn_skipn.
  replace (Z.to_nat (c - a)) with (Z.to_nat (b - a) + Z.to_nat (c - b))%nat by lia.
  rewrite firstn_plus. reflexivity.
Qed.

Lemma slice_slice_0 {A} (d : list A) (n lo hi : Z) :
  0 <= lo -> hi <= n -> slice (slice d 0 n) lo hi = slice d lo hi.
Proof.
  intros Hlo Hhi; unfold slice; cbn [Z.to_nat skipn]; rewrite Z.sub_0_r.
  rewrite skipn_firstn_comm, firstn_firstn. f_equal. lia.
Qed.

(** ** The volume descriptors *)

Section FindVolumes.

Variable Clean : string -> string.
Context {R : Type} `{Reader R}.






End FindVolumes.

(** ** The rolling buffer *)

Lemma zlen_blit {A} (b d : list A) (at_ : Z) :
  0 <= at_ -> at_ + zlen d <= zlen b -> zlen (blit b at_ d) = zlen b.
Proof.
  unfold zlen, blit; intros H0 Hd.
  rewrite !length_app, length_firstn, length_skipn. lia.
Qed.

Lemma zlen_copy {A} (dst src : list A) : zlen src <= zlen dst -> zlen (copy dst src) = zlen dst.
Proof.
  unfold zlen, copy; intros Hs.
  rewrite length_app, length_firstn, length_skipn. lia.
Qed.

Lemma copy_short {A} (dst src : list A) :
  zlen src <= zlen dst -> copy dst src = src ++ skipn (length src) dst.
Proof.
  unfold zlen, copy; intros Hs. rewrite firstn_all2 by lia. reflexivity.
Qed.

Section Rolling.

Context {R : Type} `{Reader R}.

Lemma window_length (rb : rolling) :
  rolling_ok rb -> zlen (window rb) = rb_end rb - rb_start rb.
Proof. intros (Hb & Hs & He); unfold window; apply zlen_slice; lia. Qed.

Lemma advance_spec (rb : rolling) (n : Z) :
  rolling_ok rb -> 0 <= n ->
  rolling_ok (advance rb n) /\
  window (advance rb n) = skipn (Z.to_nat n) (window rb) /\
  rb_lba (advance rb n) = rb_lba rb.
Proof.
  intros Hok Hn. pose proof (window_length Hok) as Hlen.
  destruct Hok as (Hb & Hs & He).
  unfold advance, rolling_ok, window in *; cbn [rb_buf rb_start rb_end rb_lba].
  destruct (Z.gtb_spec (rb_start rb + n) (rb_end rb)) as [Hover|Hin].
  - repeat split; try lia.
    rewrite slice_empty by lia.
    rewrite skipn_all2; [reflexivity|]. unfold zlen in Hlen; lia.
  - repeat split; try lia.
    now rewrite skipn_slice by lia.
Qed.

(** A refill appends the next block to the window, or fails with the
    error of the sector read. *)
Lemma refill_spec (rd : R) (blockSize : Z) (rb : rolling) :
  reader_ok rd -> reader_stable rd ->
  rolling_ok rb ->
  SectorSize rd + zlen (window rb) <= maxSectorLength * 2 ->
  0 <= blockSize ->
  match block rd blockSize (rb_lba rb) with
  | Some blk =>
      exists rb', refill rd blockSize rb = (rb', None) /\
                  rolling_ok rb' /\
                  window rb' = window rb ++ blk /\
                  rb_lba rb' = rb_lba rb + 1 /\
                  rb_start rb' = 0
  | None =>
      exists rb' e, refill rd blockSize rb = (rb', Some e) /\
                    snd (ReadSector rd (rb_lba rb) (maxSectorLength * 2)) = Some e /\
                    zlen (rb_buf rb') = maxSectorLength * 2
  end.
Proof.
  intros Hok Hstable Hrb Hroom Hbs.
  pose proof (window_length Hrb) as Hwin.
  pose proof (zlen_nonneg (window rb)) as Hwin0.
  destruct Hrb as (Hb & Hs & He).
  unfold refill, block.
  set (keep := rb_end rb - rb_start rb) in *.
  assert (Hc : zlen (copy (rb_buf rb) (window rb)) = maxSectorLength * 2)
    by (rewrite zlen_copy; lia).
  rewrite Hc.
  rewrite (Hstable (rb_lba rb) (maxSectorLength * 2 - keep) (maxSectorLength * 2))
    by lia.
  destruct (Hok (rb_lba rb) (maxSectorLength * 2 - keep) ltac:(lia)) as [Hle _].
  rewrite (Hstable (rb_lba rb) (maxSectorLength * 2 - keep) (maxSectorLength * 2)) in Hle
    by lia.
  destruct (ReadSector rd (rb_lba rb) (maxSectorLength * 2)) as [d err]; cbn [fst snd] in *.
  pose proof (zlen_nonneg d) as Hd0.
  destruct err as [e|].
  { do 2 eexists; split; [reflexivity|]. split; [reflexivity|].
    cbn [rb_buf]. rewrite zlen_blit; lia. }
  replace (if zlen d >? blockSize then blockSize else zlen d) with (Z.min (zlen d) blockSize)
    by (destruct (Z.gtb_spec (zlen d) blockSize); lia).
  eexists; split; [reflexivity|].
  split; [unfold rolling_ok; cbn [rb_buf rb_start rb_end]; rewrite zlen_blit by lia; lia|].
  split; [|split; reflexivity].
  unfold window at 1; cbn [rb_buf rb_start rb_end].
  unfold blit. rewrite copy_short by lia.
  rewrite firstn_app.
  replace (Z.to_nat keep - length (window rb))%nat with 0%nat
    by (unfold zlen in Hwin; lia).
  rewrite firstn_O, app_nil_r, firstn_all2 by (unfold zlen in Hwin; lia).
  rewrite slice_0_app by lia.
  f_equal. rewrite slice_0_firstn, firstn_app.
  replace (Z.to_nat (Z.min (zlen d) blockSize + keep - zlen (window rb)) - length d)%nat
    with 0%nat by (unfold zlen in *; lia).
  rewrite firstn_O, app_nil_r. f_equal. lia.
Qed.

End Rolling.

(** ** The path table *)

Lemma land_1_odd (n : Z) : 0 <= n -> Z.land n 1 = if Z.odd n then 1 else 0.
Proof.
  intros Hn. change 1 with (Z.ones 1) at 1.
  rewrite Z.land_ones by lia. change (2 ^ 1) with 2. apply Zmod_odd.
Qed.

(** *** The integers of the decoders are the fields of the layout *)

Lemma land_shiftl_low (x y k : Z) :
  0 <= k -> 0 <= x < 2 ^ k -> Z.land x (Z.shiftl y k) = 0.
Proof.
  intros Hk Hx. apply Z.bits_inj'. intros n Hn.
  rewrite Z.land_spec, Z.bits_0.
  destruct (Z.lt_ge_cases n k) as [Hlt|Hge].
  - rewrite Z.shiftl_spec_low by lia. apply andb_false_r.
  - destruct (Z.eq_dec x 0) as [->|Hnz]; [now rewrite Z.bits_0|].
    rewrite Z.bits_above_log2; [reflexivity|lia|].
    apply Z.lt_le_trans with k; [apply Z.log2_lt_pow2; lia|lia].
Qed.

Lemma lor_shiftl_add (x y k : Z) :
  0 <= k -> 0 <= x < 2 ^ k -> Z.lor x (Z.shiftl y k) = x + y * 2 ^ k.
Proof.
  intros Hk Hx.
  rewrite <- Z.lxor_lor, <- Z.add_nocarry_lxor by (apply land_shiftl_low; lia).
  now rewrite Z.shiftl_mul_pow2 by lia.
Qed.

Lemma Uint16_value (r : ByteOrder) (b : list byte) :
  Uint16 r b = match r with
               | LittleEndian => byte_at b 0 + 256 * byte_at b 1
               | BigEndian => byte_at b 1 + 256 * byte_at b 0
               end.
Proof.
  pose proof (byte_at_range b 0). pose proof (byte_at_range b 1).
  unfold Uint16; destruct r; rewrite lor_shiftl_add by lia; lia.
Qed.

Lemma Uint32_value (r : ByteOrder) (b : list byte) :
  Uint32 r b = match r with
               | LittleEndian =>
                   byte_at b 0 + 256 * (byte_at b 1 + 256 * (byte_at b 2 + 256 * byte_at b 3))
               | BigEndian =>
                   byte_at b 3 + 256 * (byte_at b 2 + 256 * (byte_at b 1 + 256 * byte_at b 0))
               end.
Proof.
  pose proof (byte_at_range b 0). pose proof (byte_at_range b 1).
  pose proof (byte_at_range b 2). pose proof (byte_at_range b 3).
  unfold Uint32; destruct r.
  - rewrite (@lor_shiftl_add (byte_at b 0) (byte_at b 1) 8) by lia.
    rewrite (@lor_shiftl_add _ (byte_at b 2) 16) by lia.
    rewrite (@lor_shiftl_add _ (byte_at b 3) 24) by lia. lia.
  - rewrite (@lor_shiftl_add (byte_at b 3) (byte_at b 2) 8) by lia.
    rewrite (@lor_shiftl_add _ (byte_at b 1) 16) by lia.
    rewrite (@lor_shiftl_add _ (byte_at b 0) 24) by lia. lia.
Qed.

Lemma firstn_skipn_cons (t : list byte) (lo n : nat) :
  (lo < length t)%nat ->
  firstn (S n) (skipn lo t) = nth lo t x00 :: firstn n (skipn (S lo) t).
Proof.
  revert lo; induction t as [|a t IH]; intros lo Hlo; [cbn in Hlo; lia|].
  destruct lo as [|lo]; [reflexivity|].
  cbn [skipn nth]. apply IH. cbn in Hlo; lia.
Qed.

Lemma byte_at_nat (t : list byte) (i : nat) : byte_at t (Z.of_nat i) = b2z (nth i t x00).
Proof. unfold byte_at. now rewrite Nat2Z.id. Qed.

Lemma field_2 (order : ByteOrder) (t : list byte) (lo : nat) :
  (lo + 2 <= length t)%nat ->
  field order t lo 2 = Uint16 order (slice t (Z.of_nat lo) (zlen t)).
Proof.
  intros Hlen. rewrite Uint16_value.
  rewrite !byte_at_slice by (unfold zlen; lia).
  change (Z.of_nat lo + 0) with (Z.of_nat lo + Z.of_nat 0).
  change (Z.of_nat lo + 1) with (Z.of_nat lo + Z.of_nat 1).
  rewrite <- !Nat2Z.inj_add, !byte_at_nat.
  unfold field. rewrite !firstn_skipn_cons by lia. cbn [firstn map rev app le_value].
  rewrite Nat.add_0_r, Nat.add_1_r. destruct order; lia.
Qed.

Lemma field_4 (order : ByteOrder) (t : list byte) (lo : nat) :
  (lo + 4 <= length t)%nat ->
  field order t lo 4 = Uint32 order (slice t (Z.of_nat lo) (zlen t)).
Proof.
  intros Hlen. rewrite Uint32_value.
  rewrite !byte_at_slice by (unfold zlen; lia).
  change (Z.of_nat lo + 0) with (Z.of_nat lo + Z.of_nat 0).
  change (Z.of_nat lo + 1) with (Z.of_nat lo + Z.of_nat 1).
  change (Z.of_nat lo + 2) with (Z.of_nat lo + Z.of_nat 2).
  change (Z.of_nat lo + 3) with (Z.of_nat lo + Z.of_nat 3).
  rewrite <- !Nat2Z.inj_add, !byte_at_nat.
  unfold field. rewrite !firstn_skipn_cons by lia. cbn [firstn map rev app le_value].
  rewrite Nat.add_0_r, Nat.add_1_r.
  replace (S (S lo)) with (lo + 2)%nat by lia.
  replace (S (lo + 2)) with (lo + 3)%nat by lia.
  destruct order; lia.
Qed.

Lemma field_app (order : ByteOrder) (t x : list byte) (lo n : nat) :
  (lo + n <= length t)%nat -> field order (t ++ x) lo n = field order t lo n.
Proof.
  intros Hlen. unfold field.
  rewrite skipn_app, firstn_app, length_skipn.
  replace (n - (length t - lo))%nat with 0%nat by lia.
  replace (lo - length t)%nat with 0%nat by lia.
  cbn [skipn firstn]. now rewrite app_nil_r.
Qed.

Lemma firstn_skipn_app {A} (t x : list A) (lo n : nat) :
  (lo + n <= length t)%nat -> firstn n (skipn lo (t ++ x)) = firstn n (skipn lo t).
Proof.
  intros Hlen. rewrite skipn_app, firstn_app, length_skipn.
  replace (n - (length t - lo))%nat with 0%nat by lia.
  replace (lo - length t)%nat with 0%nat by lia.
  cbn [skipn firstn]. now rewrite app_nil_r.
Qed.

Lemma slice_firstn_skipn {A} (t : list A) (lo n : Z) :
  0 <= n -> slice t lo (lo + n) = firstn (Z.to_nat n) (skipn (Z.to_nat lo) t).
Proof. intros Hn. unfold slice. do 2 f_equal. lia. Qed.

Section PathTable.

Variable Clean : string -> string.
Context {R : Type} `{Reader R}.

Lemma path_record_size_range (t : list byte) : 8 <= path_record_size t <= 264.
Proof.
  unfold path_record_size. pose proof (byte_at_range t 0).
  destruct (Z.odd (byte_at t 0)); lia.
Qed.

(** [readPath] against the layout: it asks for more bytes when the
    slice does not hold the record, panics when the name is longer
    than 247 bytes, and otherwise returns the record of the layout. *)
Lemma readPath_spec (order : ByteOrder) (b : list byte) :
  readPath Clean order b
  = if zlen b <? path_record_size b then Done (inr ErrUnexpectedEOF)
    else if 247 <? byte_at b 0 then Panic
         else Done (inl (path_record Clean order b)).
Proof.
  unfold readPath. pose proof (byte_at_range b 0) as Hr.
  pose proof (path_record_size_range b) as Hsz.
  rewrite land_1_odd by lia.
  set (size := if (if Z.odd (byte_at b 0) then 1 else 0) =? 0
               then 8 + byte_at b 0 else 8 + byte_at b 0 + 1).
  assert (Hsize : size = path_record_size b).
  { subst size; unfold path_record_size. destruct (Z.odd (byte_at b 0));
      [change (1 =? 0) with false|change (0 =? 0) with true]; cbv iota; lia. }
  rewrite Hsize.
  destruct (Z.eqb_spec (zlen b) 0) as [H0|H0].
  { destruct (Z.ltb_spec (zlen b) (path_record_size b)); [reflexivity|lia]. }
  destruct (Z.gtb_spec (path_record_size b) (zlen b)) as [Hgt|Hle];
    destruct (Z.ltb_spec (zlen b) (path_record_size b)); try lia; [reflexivity|].
  destruct (Z.ltb_spec 247 (byte_at b 0)) as [Hbig|Hsmall].
  - replace ((8 + byte_at b 0) mod 256) with (8 + byte_at b 0 - 256)
      by (apply Z.mod_unique with (q := 1); lia).
    destruct (Z.ltb_spec (8 + byte_at b 0 - 256) 8); [reflexivity|lia].
  - rewrite Z.mod_small by lia.
    destruct (Z.ltb_spec (8 + byte_at b 0) 8); [lia|].
    assert (Hlen : (8 <= length b)%nat) by (unfold zlen in *; lia).
    unfold path_record. do 3 f_equal.
    + symmetry. apply (@field_4 order b 2). lia.
    + symmetry. apply (@field_2 order b 6). lia.
    + f_equal. apply (@slice_firstn_skipn _ b 8 (byte_at b 0)). lia.
Qed.

Lemma readPath_inl (order : ByteOrder) (b : list byte) (p : path) :
  readPath Clean order b = Done (inl p) ->
  p = path_record Clean order b /\
  8 <= p_Size p <= zlen b /\ p_Size p <= 264 /\ byte_at b 0 <= 247.
Proof.
  rewrite readPath_spec. pose proof (path_record_size_range b).
  destruct (Z.ltb_spec (zlen b) (path_record_size b)); [discriminate|].
  destruct (Z.ltb_spec 247 (byte_at b 0)); [discriminate|].
  intros Hp; inversion Hp; subst p. cbn [path_record p_Size]. repeat split; lia.
Qed.

Lemma readPath_inr (order : ByteOrder) (b : list byte) (e : error) :
  readPath Clean order b = Done (inr e) -> zlen b < path_record_size b.
Proof.
  rewrite readPath_spec.
  destruct (Z.ltb_spec (zlen b) (path_record_size b)); [auto|].
  destruct (247 <? byte_at b 0); discriminate.
Qed.

(** The record at the front of a table does not depend on the bytes
    behind it. *)
Lemma path_record_app (order : ByteOrder) (b x : list byte) :
  path_record_size b <= zlen b ->
  path_record_size (b ++ x) = path_record_size b /\
  byte_at (b ++ x) 0 = byte_at b 0 /\
  path_record Clean order (b ++ x) = path_record Clean order b.
Proof.
  intros Hsz. pose proof (path_record_size_range b) as Hr.
  pose proof (byte_at_range b 0) as Hb.
  assert (Hb0 : byte_at (b ++ x) 0 = byte_at b 0) by (apply byte_at_app_l; lia).
  assert (Hb1 : byte_at (b ++ x) 1 = byte_at b 1) by (apply byte_at_app_l; lia).
  assert (Hs : path_record_size (b ++ x) = path_record_size b)
    by (unfold path_record_size; now rewrite Hb0).
  split; [exact Hs|]. split; [exact Hb0|].
  unfold path_record. rewrite Hs, Hb0, Hb1.
  assert (Hlen : (8 <= length b)%nat) by (unfold zlen in *; lia).
  rewrite !field_app by lia.
  rewrite firstn_skipn_app; [reflexivity|].
  unfold path_record_size, zlen in *. destruct (Z.odd (byte_at b 0)); lia.
Qed.

Section Loop.

Variable fs : @FileSystem R.
Variable order : ByteOrder.
Variable lba0 : Z.
Variable K : nat.

Let rd := r fs.
Let bs := BlockSize (pvd fs).
Let pts := PathTableSize (pvd fs).

Hypothesis Hok : reader_ok rd.
Hypothesis Hstable : reader_stable rd.
Hypothesis Hsector : SectorSize rd <= maxSectorLength * 2 - 264.
Hypothesis Hbs : 0 <= bs.
Hypothesis Hend : medium_ends rd lba0 K.

(** The loop appends the records that the bytes still to be decoded
    hold: the window and the blocks not yet read. *)
Lemma buildPaths_loop_holds :
  forall (fuel : nat) (rb : rolling) (n : Z) (acc ps : list path) (j : nat),
    rolling_ok rb ->
    rb_lba rb = lba0 + Z.of_nat j ->
    (j <= K)%nat ->
    (Z.to_nat (pts - n) + (K - j) < fuel)%nat ->
    table_holds Clean order pts (window rb ++ blocks rd bs (K - j) (rb_lba rb)) n ps ->
    buildPaths_loop Clean fuel fs order rb n acc = Done (acc ++ ps).
Proof.
  induction fuel as [|fuel IH]; intros rb n acc ps j Hrb Hlba Hj Hfuel Hholds; [lia|].
  cbn [buildPaths_loop]. fold pts bs rd.
  destruct (Z.ltb_spec n pts) as [Hlt|Hge].
  2:{ inversion Hholds; subst; try lia. now rewrite app_nil_r. }
  rewrite readPath_spec.
  pose proof (path_record_size_range (window rb)) as Hrange.
  destruct (Z.ltb_spec (zlen (window rb)) (path_record_size (window rb))) as [Hshort|Hfull].
  - (* the window does not hold a record: refill *)
    pose proof (@refill_spec _ _ rd bs rb Hok Hstable Hrb ltac:(lia) Hbs) as Hre.
    destruct Hend as [Hread Hfail].
    destruct (Nat.eq_dec j K) as [->|Hne].
    + rewrite Nat.sub_diag in Hholds; cbn [blocks] in Hholds.
      rewrite app_nil_r in Hholds.
      assert (Hnone : block rd bs (rb_lba rb) = None).
      { unfold block. rewrite Hlba.
        destruct (ReadSector rd (lba0 + Z.of_nat K) (maxSectorLength * 2)) as [d [e'|]];
          [reflexivity|contradiction]. }
      rewrite Hnone in Hre. destruct Hre as (rb' & e' & Hrf & _ & _). rewrite Hrf.
      inversion Hholds; subst; try lia. now rewrite app_nil_r.
    + assert (Hsome : exists blk, block rd bs (rb_lba rb) = Some blk).
      { unfold block. rewrite Hlba.
        pose proof (Hread (Z.of_nat j) ltac:(lia)) as Hr.
        destruct (ReadSector rd (lba0 + Z.of_nat j) (maxSectorLength * 2)) as [d [e'|]];
          [discriminate|eauto]. }
      destruct Hsome as (blk & Hblk). rewrite Hblk in Hre.
      destruct Hre as (rb' & Hrf & Hrb' & Hwin' & Hlba' & _). rewrite Hrf.
      apply (IH rb' n acc ps (S j) Hrb'); try lia.
      replace (K - j)%nat with (S (K - S j)) in Hholds by lia.
      cbn [blocks] in Hholds. rewrite Hblk, app_assoc, <- Hwin', <- Hlba' in Hholds.
      exact Hholds.
  - (* the window holds a record *)
    set (rest := blocks rd bs (K - j) (rb_lba rb)) in *.
    destruct (@path_record_app order (window rb) rest Hfull) as (Hs & Hb0 & Hrec).
    assert (Hzl : zlen (window rb) <= zlen (window rb ++ rest))
      by (rewrite zlen_app; pose proof (zlen_nonneg rest); lia).
    destruct (Z.ltb_spec 247 (byte_at (window rb) 0)) as [Hbig|Hsmall].
    + exfalso. inversion Hholds; subst; lia.
    + inversion Hholds as [| |t n' ps' Hn Hsz Hnl Htail]; subst; try lia.
      rewrite Hrec. rewrite Hs in Htail.
      cbn [path_record p_Size].
      destruct (@advance_spec rb (path_record_size (window rb)) Hrb ltac:(lia))
        as (Hrb2 & Hwin2 & Hlba2).
      rewrite (IH (advance rb (path_record_size (window rb)))
                  (n + path_record_size (window rb))
                  (acc ++ [path_record Clean order (window rb)]) ps' j Hrb2).
      * now rewrite <- app_assoc.
      * congruence.
      * exact Hj.
      * lia.
      * rewrite Hwin2, Hlba2. fold rest.
        rewrite skipn_app in Htail.
        replace (Z.to_nat (path_record_size (window rb)) - length (window rb))%nat
          with 0%nat in Htail by (unfold zlen in Hfull; lia).
        exact Htail.
Qed.

End Loop.

(** [C6]  [buildPaths] decodes the path table from the little-endian
    copy of its address with little-endian fields, and from the
    big-endian copy with big-endian fields exactly when the
    little-endian copy is zero.  On a medium whose sectors can be read
    from the table's first sector up to some sector that cannot, it
    appends the records that the blocks of those sectors hold by the
    layout of the format: each with the address and the parent number
    in the byte order of the copy in use, each taking 8 bytes plus the
    length of its name, plus one when that length is odd, one after
    the other until the declared size of the table is accounted for.
    Enough fuel always gives this result. *)
Theorem buildPaths_decodes (fs : FileSystem) (K : nat) (ps : list path) :
  reader_ok (r fs) ->
  reader_stable (r fs) ->
  SectorSize (r fs) <= maxSectorLength * 2 - 264 ->
  0 <= BlockSize (pvd fs) ->
  (PathTable0 (pvd fs) <> 0 ->
   medium_ends (r fs) (PathTable0 (pvd fs)) K ->
   table_holds Clean LittleEndian (PathTableSize (pvd fs))
               (blocks (r fs) (BlockSize (pvd fs)) K (PathTable0 (pvd fs))) 0 ps ->
   forall fuel,
     (Z.to_nat (PathTableSize (pvd fs)) + K < fuel)%nat ->
     buildPaths Clean fuel fs
     = Done {| r := r fs; pvd := pvd fs; svd := svd fs; paths := paths fs ++ ps |})
  /\
  (PathTable0 (pvd fs) = 0 ->
   medium_ends (r fs) (PathTable1 (pvd fs)) K ->
   table_holds Clean BigEndian (PathTableSize (pvd fs))
               (blocks (r fs) (BlockSize (pvd fs)) K (PathTable1 (pvd fs))) 0 ps ->
   forall fuel,
     (Z.to_nat (PathTableSize (pvd fs)) + K < fuel)%nat ->
     buildPaths Clean fuel fs
     = Done {| r := r fs; pvd := pvd fs; svd := svd fs; paths := paths fs ++ ps |}).
Proof.
  intros Hok Hstable Hsector Hbs.
  assert (Hgen : forall order lba,
             path_table_source (pvd fs) = (order, lba) ->
             medium_ends (r fs) lba K ->
             table_holds Clean order (PathTableSize (pvd fs))
                         (blocks (r fs) (BlockSize (pvd fs)) K lba) 0 ps ->
             forall fuel,
               (Z.to_nat (PathTableSize (pvd fs)) + K < fuel)%nat ->
               buildPaths Clean fuel fs
               = Done {| r := r fs; pvd := pvd fs; svd := svd fs;
                         paths := paths fs ++ ps |}).
  { intros order lba Hsrc Hend Hholds fuel Hfuel.
    unfold buildPaths. rewrite Hsrc.
    set (rb0 := {| rb_buf := repeat x00 (Z.to_nat (maxSectorLength * 2));
                   rb_start := 0; rb_end := 0; rb_lba := lba |}).
    assert (Hrb0 : rolling_ok rb0).
    { unfold rolling_ok, rb0; cbn [rb_buf rb_start rb_end].
      rewrite zlen_repeat, Z2Nat.id by (unfold maxSectorLength; lia).
      unfold maxSectorLength; lia. }
    rewrite (@buildPaths_loop_holds fs order lba K Hok Hstable Hsector Hbs Hend
               fuel rb0 0 (paths fs) ps 0%nat Hrb0); [reflexivity| | | |].
    - cbn; lia.
    - lia.
    - rewrite Z.sub_0_r, Nat.sub_0_r; exact Hfuel.
    - rewrite Nat.sub_0_r. exact Hholds. }
  split.
  - intros Hne. apply Hgen. unfold path_table_source.
    destruct (Z.eqb_spec (PathTable0 (pvd fs)) 0); [contradiction|reflexivity].
  - intros Heq. apply Hgen. unfold path_table_source. rewrite Heq. reflexivity.
Qed.

End PathTable.

(** ** Reading a file *)

Lemma slice_slice {A} (c : list A) (a b lo hi : Z) :
  0 <= a -> 0 <= lo -> a + hi <= b ->
  slice (slice c a b) lo hi = slice c (a + lo) (a + hi).
Proof.
  intros Ha Hlo Hhi; unfold slice.
  rewrite skipn_firstn_comm, firstn_firstn, skipn_skipn.
  f_equal; [lia|f_equal; lia].
Qed.

Unset Implicit Arguments.

Section FileReadAt.

Context {R : Type} `{Reader R}.

Variable f : @File R.
Variable content : list byte.
Variable K : Z.
Variable len off : Z.

Let rd := r (fs f).
Let bs := BlockSize (pvd (fs f)).
Let L := Length (fi f).
Let base := LBA (fi f).

Hypothesis Hok : reader_ok rd.
Hypothesis Hbs : 0 < bs.
Hypothesis Hback : backed_by f content.
Hypothesis HK : 0 <= K.
Hypothesis Hend : snd (ReadSector rd (base + K) (maxSectorLength * 2)) <> None.
Hypothesis Hoff : 0 <= off < L.

Lemma readable_before_end (k : Z) : 0 <= k -> k * bs < L -> k < K.
Proof.
  intros Hk Hlt.
  destruct (Z.lt_ge_cases k K) as [|Hge]; [assumption|exfalso].
  destruct Hback as [_ Hblocks].
  destruct (Hblocks K HK) as (d & Hrd & _).
  - fold bs L. nia.
  - fold rd base in Hrd. rewrite Hrd in Hend. now apply Hend.
Qed.

(** Once the whole file has been stored the loop only reads on until a
    sector read fails. *)
Lemma ReadAt_loop_drain :
  forall (fuel : nat) (k : Z) (buf acc : list byte),
    zlen buf = maxSectorLength * 2 ->
    0 <= k <= K ->
    off + zlen acc = L ->
    zlen acc < len ->
    (Z.to_nat (K - k) < fuel)%nat ->
    ReadAt_loop fuel f len off (base + k) 0 buf acc = Done acc.
Proof.
  induction fuel as [|fuel IH]; intros k buf acc Hbuf Hk Hpos Hlen Hfuel; [lia|].
  cbn [ReadAt_loop]. fold rd bs L. rewrite Hbuf.
  destruct (Hok (base + k) (maxSectorLength * 2) ltac:(unfold maxSectorLength; lia)) as [Hle _].
  destruct (ReadSector rd (base + k) (maxSectorLength * 2)) as [d err] eqn:Hrd;
    cbn [fst] in Hle.
  destruct err as [e|]; [reflexivity|].
  assert (Hne : k <> K) by (intros ->; rewrite Hrd in Hend; now apply Hend).
  pose proof (zlen_nonneg d) as Hd0.
  replace (L - (off + zlen acc)) with 0 by lia.
  set (e := if zlen d >? bs then bs else zlen d).
  assert (He : 0 <= e) by (subst e; destruct (zlen d >? bs); lia).
  replace (if 0 <? e - 0 then 0 + 0 else e) with 0
    by (destruct (Z.ltb_spec 0 (e - 0)); lia).
  cbn [Z.ltb Z.compare]. rewrite slice_empty by lia.
  rewrite zlen_nil, Z.min_r by lia. cbn [Z.to_nat firstn]. rewrite app_nil_r.
  destruct (Z.geb_spec (zlen acc) len); [lia|].
  destruct (Z.geb_spec (off + 0) L); [lia|]. cbn [orb].
  replace (base + k + 1) with (base + (k + 1)) by lia.
  apply IH; try lia. rewrite zlen_blit_0; lia.
Qed.

Lemma ReadAt_loop_content :
  forall (fuel : nat) (k s : Z) (buf acc : list byte),
    zlen buf = maxSectorLength * 2 ->
    0 <= k -> 0 <= s < bs ->
    off + zlen acc = k * bs + s ->
    k * bs + s < L ->
    acc = slice content off (k * bs + s) ->
    zlen acc <= len ->
    (Z.to_nat (K - k) < fuel)%nat ->
    ReadAt_loop fuel f len off (base + k) s buf acc
    = Done (slice content off (Z.min (off + len) L)).
Proof.
  induction fuel as [|fuel IH]; intros k s buf acc Hbuf Hk Hs Hpos HltL Hacc Hlen Hfuel; [lia|].
  assert (HkK : k < K) by (apply readable_before_end; nia).
  pose proof (zlen_nonneg acc) as Hacc0.
  destruct Hback as [Hclen Hblocks]. fold L in Hclen.
  destruct (Hblocks k Hk ltac:(fold bs L; nia)) as (d & Hrd & Hdlen & Hdata).
  fold rd base bs L in Hrd, Hdlen, Hdata.
  cbn [ReadAt_loop]. fold rd bs L. rewrite Hbuf, Hrd.
  destruct (Hok (base + k) (maxSectorLength * 2) ltac:(unfold maxSectorLength; lia)) as [Hle _].
  rewrite Hrd in Hle; cbn [fst] in Hle.
  replace (if zlen d >? bs then bs else zlen d) with bs
    by (destruct (Z.gtb_spec (zlen d) bs); lia).
  set (pos := k * bs + s) in *.
  replace (L - (off + zlen acc)) with (L - pos) by lia.
  set (e := if L - pos <? bs - s then s + (L - pos) else bs).
  assert (He : s <= e /\ e <= bs /\ k * bs + e <= L /\
               (e = bs \/ k * bs + e = L))
    by (subst e pos; destruct (Z.ltb_spec (L - (k * bs + s)) (bs - s)); lia).
  destruct He as (Hse & Heb & HeL & Hecase).
  destruct (Z.ltb_spec e s); [lia|].
  assert (Hb : slice (blit buf 0 d) s e = slice content pos (k * bs + e)).
  { rewrite slice_blit_0 by lia.
    rewrite <- (@slice_slice_0 _ d (Z.min bs (L - k * bs)) s e) by lia.
    rewrite Hdata.
    rewrite slice_slice by nia. reflexivity. }
  rewrite Hb.
  assert (Hblen : zlen (slice content pos (k * bs + e)) = k * bs + e - pos)
    by (apply zlen_slice; subst pos; nia).
  rewrite Hblen.
  set (m := Z.min (len - zlen acc) (k * bs + e - pos)).
  assert (Hm : 0 <= m) by (subst m pos; lia).
  rewrite firstn_slice by exact Hm.
  assert (Hacc' : acc ++ slice content pos (Z.min (k * bs + e) (pos + m))
                  = slice content off (pos + m)).
  { rewrite Z.min_r by (subst m; lia).
    rewrite Hacc. apply slice_cat; subst pos; lia. }
  rewrite Hacc'.
  assert (Hlen' : zlen (slice content off (pos + m)) = zlen acc + m)
    by (rewrite zlen_slice; subst m pos; lia).
  rewrite Hlen'.
  destruct (Z.geb_spec (zlen acc + m) len) as [Hfull|Hmore].
  { cbn [orb]. do 2 f_equal. subst m pos; lia. }
  destruct (Z.geb_spec (off + m) L) as [Hall|Hnot].
  { cbn [orb]. do 2 f_equal. subst m pos; lia. }
  cbn [orb].
  assert (Hmeq : m = k * bs + e - pos) by (subst m; lia).
  replace (base + k + 1) with (base + (k + 1)) by lia.
  destruct (Z.lt_ge_cases (pos + m) L) as [Hin|Hout].
  - (* the next block holds more of the file *)
    assert (e = bs) by lia.
    apply IH; try lia.
    + rewrite zlen_blit_0; lia.
    + f_equal; lia.
  - (* the file has been stored; the loop drains *)
    assert (Hdone : pos + m = L) by lia.
    rewrite ReadAt_loop_drain; try lia.
    + do 2 f_equal. lia.
    + rewrite zlen_blit_0; lia.
Qed.

End FileReadAt.

Set Implicit Arguments.

Lemma concat_slices {A} (content : list A) (c : Z) (n : nat) :
  0 < c ->
  concat (map (fun i => slice content (Z.of_nat i * c)
                              (Z.min (Z.of_nat i * c + c) (zlen content)))
              (seq 0 n))
  = slice content 0 (Z.min (Z.of_nat n * c) (zlen content)).
Proof.
  intros Hc. pose proof (zlen_nonneg content) as HL.
  induction n as [|n IH]; [now rewrite slice_empty by lia|].
  rewrite seq_S, map_app, concat_app, IH. cbn [map concat Nat.add]. rewrite app_nil_r.
  destruct (Z.le_gt_cases (Z.of_nat n * c) (zlen content)) as [Hin|Hout].
  - rewrite (Z.min_l (Z.of_nat n * c)) by lia.
    rewrite slice_cat by lia. f_equal. lia.
  - rewrite (slice_empty content (lo := Z.of_nat n * c)) by lia.
    rewrite app_nil_r. f_equal. lia.
Qed.

(** [C3]  For a file known by its content, [ReadAt] at an offset
    below the declared length stores the bytes of the content from
    that offset on, as many as the destination holds and no more than
    the content has left, and returns no error; so reads at
    successive offsets put together give back the content, and never
    more than the declared length.  [ReadAt] at an offset at or
    beyond the declared length stores nothing and returns end-of-data.
    The medium is finite: some sector after the file cannot be read,
    and fuel beyond its distance always gives the result. *)
Theorem File_ReadAt_content {R : Type} `{Reader R}
    (f : @File R) (content : list byte) (K : Z) :
  IsDir (fi f) = false ->
  reader_ok (r (fs f)) ->
  0 < BlockSize (pvd (fs f)) ->
  backed_by f content ->
  0 <= K ->
  snd (ReadSector (r (fs f)) (LBA (fi f) + K) (maxSectorLength * 2)) <> None ->
  (forall len off fuel,
      0 <= len -> 0 <= off < Length (fi f) -> (Z.to_nat K < fuel)%nat ->
      ReadAt fuel f len off
      = Done (slice content off (Z.min (off + len) (Length (fi f))), None))
  /\
  (forall len off fuel,
      Length (fi f) <= off -> ReadAt fuel f len off = Done ([], Some EOF))
  /\
  (forall c n fuel,
      0 < c -> Length (fi f) <= Z.of_nat n * c -> (Z.to_nat K < fuel)%nat ->
      concat (map (fun i => stored (ReadAt fuel f c (Z.of_nat i * c))) (seq 0 n))
      = content).
Proof.
  intros Hfile Hok Hbs Hback HK Hend.
  assert (Hout : forall len off fuel,
             Length (fi f) <= off -> ReadAt fuel f len off = Done ([], Some EOF)).
  { intros len off fuel Hoff. unfold ReadAt. rewrite Hfile.
    destruct (Z.geb_spec off (Length (fi f))); [reflexivity|lia]. }
  cut (forall len off fuel,
          0 <= len -> 0 <= off < Length (fi f) -> (Z.to_nat K < fuel)%nat ->
          ReadAt fuel f len off
          = Done (slice content off (Z.min (off + len) (Length (fi f))), None)).
  { intros Hin. split; [exact Hin|]. split; [exact Hout|].
    intros c n fuel Hc Hn Hfuel.
    destruct Hback as [Hclen _].
    rewrite (map_ext _ (fun i => slice content (Z.of_nat i * c)
                                       (Z.min (Z.of_nat i * c + c) (zlen content)))).
    - rewrite concat_slices by exact Hc.
      rewrite Z.min_r by lia. rewrite slice_0_firstn.
      apply firstn_all2. unfold zlen; lia.
    - intros i. rewrite Hclen.
      destruct (Z.lt_ge_cases (Z.of_nat i * c) (Length (fi f))) as [Hlt|Hge].
      + rewrite Hin by lia. reflexivity.
      + rewrite Hout by lia. cbn [stored]. rewrite slice_empty; [reflexivity|lia]. }
  intros len off fuel Hlen Hoff Hfuel.
  { unfold ReadAt. rewrite Hfile.
    destruct (Z.geb_spec off (Length (fi f))); [lia|].
    destruct (Z.ltb_spec off 0); [lia|].
    destruct (Z.eqb_spec (BlockSize (pvd (fs f))) 0); [lia|].
    rewrite Z.quot_div_nonneg, Z.rem_mod_nonneg by lia.
    pose proof (Z.div_mod off (BlockSize (pvd (fs f))) ltac:(lia)) as Hdm.
    pose proof (Z.mod_pos_bound off (BlockSize (pvd (fs f))) Hbs) as Hmod.
    assert (Hdiv : 0 <= off / BlockSize (pvd (fs f))) by (apply Z.div_pos; lia).
    rewrite (ReadAt_loop_content f content K len off Hok Hbs Hback HK Hend Hoff).
    + reflexivity.
    + rewrite zlen_repeat, Z2Nat.id; unfold maxSectorLength; lia.
    + exact Hdiv.
    + exact Hmod.
    + rewrite zlen_nil. lia.
    + lia.
    + rewrite slice_empty; [reflexivity|lia].
    + rewrite zlen_nil; lia.
    + lia. }
Qed.

(** ** Reading a directory *)

Section Readdir.

Variable Clean : string -> string.
Context {R : Type} `{Reader R}.

(** [readDir] against the layout: it asks for more bytes when one of
    its guards holds, panics when the name is longer than 222 bytes,
    and otherwise returns the record of the layout. *)
Lemma readDir_spec (p : list byte) :
  readDir Clean p
  = if (zlen p <? 34) || (zlen p <? 34 + byte_at p 32)
       || (negb (Z.land (byte_at p 25) modeDir =? 0) && (zlen p <? byte_at p 0))
    then Done (inr ErrUnexpectedEOF)
    else if 222 <? byte_at p 32 then Panic
         else Done (inl (directory_record Clean p)).
Proof.
  unfold readDir. pose proof (byte_at_range p 32) as Hr.
  destruct (Z.ltb_spec (zlen p) 34) as [|H34]; [reflexivity|].
  destruct (Z.ltb_spec (zlen p) (34 + byte_at p 32)) as [|Hname]; [reflexivity|].
  rewrite !orb_false_l.
  destruct (negb (Z.land (byte_at p 25) modeDir =? 0) && (zlen p <? byte_at p 0));
    [reflexivity|].
  destruct (Z.ltb_spec 222 (byte_at p 32)) as [Hbig|Hsmall].
  - replace ((33 + byte_at p 32) mod 256) with (33 + byte_at p 32 - 256)
      by (apply Z.mod_unique with (q := 1); lia).
    destruct (Z.ltb_spec (33 + byte_at p 32 - 256) 33); [reflexivity|lia].
  - rewrite Z.mod_small by lia.
    destruct (Z.ltb_spec (33 + byte_at p 32) 33); [lia|].
    assert (Hlen : (34 <= length p)%nat) by (unfold zlen in *; lia).
    unfold directory_record.
    replace (Uint32 LittleEndian (slice p 2 (zlen p))) with (field LittleEndian p 2 4)
      by (apply (@field_4 LittleEndian p 2); lia).
    replace (Uint32 LittleEndian (slice p 10 (zlen p))) with (field LittleEndian p 10 4)
      by (apply (@field_4 LittleEndian p 10); lia).
    replace (Uint16 LittleEndian (slice p 28 (zlen p))) with (field LittleEndian p 28 2)
      by (apply (@field_2 LittleEndian p 28); lia).
    replace (slice p 18 25) with (firstn 7 (skipn 18 p))
      by (symmetry; apply (@slice_firstn_skipn _ p 18 7); lia).
    replace (slice p 33 (33 + byte_at p 32))
      with (firstn (Z.to_nat (byte_at p 32)) (skipn 33 p))
      by (symmetry; apply (@slice_firstn_skipn _ p 33 (byte_at p 32)); lia).
    reflexivity.
Qed.

Lemma readDir_inr (p : list byte) (e : error) :
  readDir Clean p = Done (inr e) -> zlen p < 289.
Proof.
  rewrite readDir_spec.
  pose proof (byte_at_range p 32). pose proof (byte_at_range p 0).
  destruct (Z.ltb_spec (zlen p) 34); [lia|].
  destruct (Z.ltb_spec (zlen p) (34 + byte_at p 32)); [lia|].
  destruct (Z.ltb_spec (zlen p) (byte_at p 0)); [lia|].
  rewrite andb_false_r, !orb_false_l.
  destruct (222 <? byte_at p 32); discriminate.
Qed.

Lemma readDir_inl (p : list byte) (d : directory) :
  readDir Clean p = Done (inl d) ->
  d = directory_record Clean p /\ Siz d = byte_at p 0 /\
  34 + byte_at p 32 <= zlen p /\ byte_at p 32 <= 222 /\
  (IsDir d = true -> Siz d <= zlen p).
Proof.
  rewrite readDir_spec.
  destruct (Z.ltb_spec (zlen p) 34); [discriminate|].
  destruct (Z.ltb_spec (zlen p) (34 + byte_at p 32)); [discriminate|].
  rewrite !orb_false_l.
  destruct (negb (Z.land (byte_at p 25) modeDir =? 0) && (zlen p <? byte_at p 0))
    eqn:Hdir; [discriminate|].
  destruct (Z.ltb_spec 222 (byte_at p 32)); [discriminate|].
  intros Hd. apply (f_equal (fun v => match v with
                                      | Done (inl a) => a
                                      | _ => directory_zero
                                      end)) in Hd.
  cbv beta iota in Hd. subst d.
  split; [reflexivity|]. split; [reflexivity|]. split; [lia|]. split; [lia|].
  unfold IsDir, directory_record. cbn [Flags Siz]. intros Hisdir.
  rewrite Hisdir in Hdir. cbn [andb] in Hdir. apply Z.ltb_ge in Hdir. exact Hdir.
Qed.

(** The record at the front of a slice does not depend on the bytes
    behind it. *)
Lemma directory_record_app (p x : list byte) :
  34 + byte_at p 32 <= zlen p ->
  directory_record Clean (p ++ x) = directory_record Clean p /\
  (forall i, 0 <= i < 34 -> byte_at (p ++ x) i = byte_at p i).
Proof.
  intros Hname. pose proof (byte_at_range p 32) as Hr.
  assert (Hb : forall i, 0 <= i < 34 -> byte_at (p ++ x) i = byte_at p i)
    by (intros i Hi; apply byte_at_app_l; lia).
  split; [|exact Hb].
  assert (Hlen : (34 <= length p)%nat) by (unfold zlen in *; lia).
  unfold directory_record. rewrite !Hb by lia.
  rewrite !field_app by lia.
  rewrite (@firstn_skipn_app _ p x 18 7) by lia.
  rewrite (@firstn_skipn_app _ p x 33) by (unfold zlen in *; lia).
  reflexivity.
Qed.




Section Loop.

Variable f : @File R.
Variable n : Z.

Let rd := r (fs f).
Let bs := BlockSize (pvd (fs f)).

Hypothesis Hok : reader_ok rd.
Hypothesis Hstable : reader_stable rd.
Hypothesis Hsector : SectorSize rd <= maxSectorLength * 2 - 289.
Hypothesis Hbs : 0 <= bs.

(** The loop keeps the rolling buffer in range. *)
Lemma Readdir_loop_ok :
  forall (fuel : nat) (rb : rolling) (i : Z) (acc : list directory) rb' acc' x,
    rolling_ok rb ->
    Readdir_loop Clean fuel f n rb i acc = Done (rb', acc', x) ->
    zlen (rb_buf rb') = maxSectorLength * 2 /\
    match x with ExitError _ => True | _ => rolling_ok rb' end.
Proof.
  induction fuel as [|fuel IH]; intros rb i acc rb' acc' x Hrb Hrun; [discriminate|].
  cbn [Readdir_loop] in Hrun. fold rd bs in Hrun.
  destruct (negb (Length (fi f) =? 0) && (i >=? Length (fi f))).
  { inversion Hrun; subst. split; [apply Hrb|exact Hrb]. }
  destruct (readDir Clean (window rb)) as [[d|e]| |] eqn:Hrd; try discriminate.
  - destruct (readDir_inl _ Hrd) as (_ & Hsiz & _).
    pose proof (byte_at_range (window rb) 0) as Hrange.
    destruct (Siz d =? 0).
    { inversion Hrun; subst. split; [apply Hrb|exact Hrb]. }
    destruct (@advance_spec rb (Siz d) Hrb ltac:(lia)) as (Hadv & _ & _).
    destruct ((n >? 0) && (zlen (acc ++ [d]) >=? n)).
    + inversion Hrun; subst. split; [apply Hadv|exact Hadv].
    + eapply IH; eauto.
  - pose proof (readDir_inr _ Hrd) as Hshort.
    pose proof (@refill_spec _ _ rd bs rb Hok Hstable Hrb ltac:(lia) Hbs) as Hre.
    destruct (block rd bs (rb_lba rb)) as [blk|].
    + destruct Hre as (rb1 & Hrf & Hok1 & _). rewrite Hrf in Hrun. eapply IH; eauto.
    + destruct Hre as (rb1 & e1 & Hrf & _ & Hlen). rewrite Hrf in Hrun.
      inversion Hrun; subst. split; [exact Hlen|exact I].
Qed.

Variable K : nat.
Hypothesis Hend : medium_ends rd (LBA (fi f)) K.


End Loop.



End Readdir.

(** ** The file system on an Image *)

Lemma Image_reader_ok {B : Type} `{Buffer B} (m : Image.Image B) :
  ImageSpec.buffer_ok (Image.buffer m) -> 0 <= Image.size (Image.sector m) ->
  reader_ok m.
Proof.
  intros Hb Hsize lba blen Hlen; split.
  - pose proof (@ImageProofs.ReadSector_length _ _ m lba blen Hb Hlen Hsize). cbn. lia.
  - intros Hnone. now apply ImageProofs.ReadSector_success in Hnone.
Qed.

Lemma Image_reader_stable {B : Type} `{Buffer B} (m : Image.Image B) : reader_stable m.
Proof.
  intros lba l1 l2 H1 H2; cbn in *. unfold Image.SectorSize in *. unfold Image.ReadSector.
  replace (if l1 >? Image.size (Image.sector m) then Image.size (Image.sector m) else l1)
    with (Image.size (Image.sector m)) by (destruct (Z.gtb_spec l1 (Image.size (Image.sector m))); lia).
  replace (if l2 >? Image.size (Image.sector m) then Image.size (Image.sector m) else l2)
    with (Image.size (Image.sector m)) by (destruct (Z.gtb_spec l2 (Image.size (Image.sector m))); lia).
  destruct (buf_ReadAt _ _ _) as [d [e|]]; [reflexivity|].
  destruct (Z.ltb_spec l1 (Image.size (Image.sector m))); [lia|].
  destruct (Z.ltb_spec l2 (Image.size (Image.sector m))); [lia|]. reflexivity.
Qed.

Module VolumeExamples.
Import Examples.

Lemma volume_reader_ok : reader_ok volume_image.
Proof. apply Image_reader_ok; [apply MultiFile_buffer_ok|cbn; lia]. Qed.

(** [findVolumes] on the small volume. *)
Example findVolumes_volume :
  verdict (findVolumes clean_id volume_fs0) = Done None /\
  match findVolumes clean_id volume_fs0 with
  | Done (fs', _) => pvd fs' = pvd volume_fs
  | _ => False
  end.
Proof. split; vm_compute; reflexivity. Qed.

Lemma single_image_reader_ok (data : list byte) (s : Image.sectorFormat) :
  0 <= Image.size s ->
  reader_ok {| Image.buffer := single data; Image.sector := s |}.
Proof. intros Hs. apply Image_reader_ok; [apply MultiFile_buffer_ok|exact Hs]. Qed.



Lemma volume_sector_size : SectorSize volume_image = 2048.
Proof. reflexivity. Qed.

Lemma volume_path_table :
  table_holds clean_id LittleEndian 10 (blocks volume_image 2048 3 18) 0 [root_path].
Proof.
  assert (Hsz : path_record_size (blocks volume_image 2048 3 18) = 10)
    by (vm_compute; reflexivity).
  assert (Hlen : zlen (blocks volume_image 2048 3 18) = 6144) by (vm_compute; reflexivity).
  assert (Hb0 : byte_at (blocks volume_image 2048 3 18) 0 = 1) by (vm_compute; reflexivity).
  assert (Hrec : root_path
                 = path_record clean_id LittleEndian (blocks volume_image 2048 3 18))
    by (vm_compute; reflexivity).
  rewrite Hrec.
  apply table_record; [lia|rewrite Hsz, Hlen; lia|rewrite Hb0; lia|].
  apply table_done. rewrite Hsz. lia.
Qed.

Lemma volume_be_path_table :
  table_holds clean_id BigEndian 10 (blocks volume_be_image 2048 3 18) 0 [root_path].
Proof.
  assert (Hsz : path_record_size (blocks volume_be_image 2048 3 18) = 10)
    by (vm_compute; reflexivity).
  assert (Hlen : zlen (blocks volume_be_image 2048 3 18) = 6144)
    by (vm_compute; reflexivity).
  assert (Hb0 : byte_at (blocks volume_be_image 2048 3 18) 0 = 1)
    by (vm_compute; reflexivity).
  assert (Hrec : root_path
                 = path_record clean_id BigEndian (blocks volume_be_image 2048 3 18))
    by (vm_compute; reflexivity).
  rewrite Hrec.
  apply table_record; [lia|rewrite Hsz, Hlen; lia|rewrite Hb0; lia|].
  apply table_done. rewrite Hsz. lia.
Qed.

(** [findVolumes] on the volume with the big-endian table only. *)
Example findVolumes_volume_be :
  verdict (findVolumes clean_id volume_be_fs0) = Done None /\
  match findVolumes clean_id volume_be_fs0 with
  | Done (fs', _) => pvd fs' = pvd volume_be_fs
  | _ => False
  end.
Proof. split; vm_compute; reflexivity. Qed.

(** The small volume, whose descriptor names the little-endian table,
    and the volume with the big-endian table only: on both the record
    of the root is appended. *)
Lemma buildPaths_decodes_witness :
  (medium_ends volume_image 18 3 /\
   table_holds clean_id LittleEndian 10 (blocks volume_image 2048 3 18) 0 [root_path] /\
   buildPaths clean_id 20 volume_fs
   = Done {| r := volume_image; pvd := pvd volume_fs; svd := svd volume_fs;
             paths := [] ++ [root_path] |}) /\
  (medium_ends volume_be_image 18 3 /\
   table_holds clean_id BigEndian 10 (blocks volume_be_image 2048 3 18) 0 [root_path] /\
   buildPaths clean_id 20 volume_be_fs
   = Done {| r := volume_be_image; pvd := pvd volume_be_fs; svd := svd volume_be_fs;
             paths := [] ++ [root_path] |}).
Proof.
  assert (Hend : medium_ends volume_image 18 3).
  { split.
    - intros j Hj.
      assert (Hcases : j = 0 \/ j = 1 \/ j = 2) by lia.
      destruct Hcases as [Hc|[Hc|Hc]]; subst j; vm_compute; reflexivity.
    - vm_compute; discriminate. }
  assert (Hend_be : medium_ends volume_be_image 18 3).
  { split.
    - intros j Hj.
      assert (Hcases : j = 0 \/ j = 1 \/ j = 2) by lia.
      destruct Hcases as [Hc|[Hc|Hc]]; subst j; vm_compute; reflexivity.
    - vm_compute; discriminate. }
  split.
  - split; [exact Hend|]. split; [exact volume_path_table|].
    destruct (@buildPaths_decodes clean_id _ _ volume_fs 3 [root_path] volume_reader_ok
                (Image_reader_stable volume_image)
                ltac:(change (SectorSize (r volume_fs)) with 2048;
                      unfold maxSectorLength; lia)
                ltac:(change (BlockSize (pvd volume_fs)) with 2048; lia))
      as (Hle & _).
    apply (Hle ltac:(change (PathTable0 (pvd volume_fs)) with 18; lia) Hend
               volume_path_table 20%nat).
    change (PathTableSize (pvd volume_fs)) with 10. lia.
  - split; [exact Hend_be|]. split; [exact volume_be_path_table|].
    destruct (@buildPaths_decodes clean_id _ _ volume_be_fs 3 [root_path]
                (@single_image_reader_ok volume_be_bytes format_iso2048 ltac:(cbn; lia))
                (Image_reader_stable volume_be_image)
                ltac:(change (SectorSize (r volume_be_fs)) with 2048;
                      unfold maxSectorLength; lia)
                ltac:(change (BlockSize (pvd volume_be_fs)) with 2048; lia))
      as (_ & Hbe).
    apply (Hbe eq_refl Hend_be volume_be_path_table 20%nat).
    change (PathTableSize (pvd volume_be_fs)) with 10. lia.
Defined.

(** The same on the face of it: the one record of the table. *)
Example buildPaths_volume :
  match buildPaths clean_id 20 volume_fs with
  | Done v => paths v = [root_path]
  | _ => False
  end.
Proof. vm_compute; reflexivity. Qed.

Lemma file_backed_by_hello : backed_by file_handle hello.
Proof.
  split; [reflexivity|].
  intros k Hk Hlt. assert (k = 0) by (cbn in Hlt; lia). subst k.
  eexists; split; [vm_compute; reflexivity|].
  split; [vm_compute; discriminate|vm_compute; reflexivity].
Qed.

Lemma File_ReadAt_content_witness :
  backed_by file_handle hello /\
  ReadAt 5 file_handle 3 1 = Done ([x45; x4c; x4c], None) /\
  ReadAt 5 file_handle 100 2 = Done ([x4c; x4c; x4f], None) /\
  ReadAt 5 file_handle 3 5 = Done ([], Some EOF).
Proof.
  destruct (@File_ReadAt_content _ _ file_handle hello 1) as (Hin & Hout & _).
  - reflexivity.
  - exact volume_reader_ok.
  - change (BlockSize (pvd (fs file_handle))) with 2048; lia.
  - exact file_backed_by_hello.
  - lia.
  - vm_compute; discriminate.
  - split; [exact file_backed_by_hello|].
    split; [|split].
    + rewrite (Hin 3 1 5%nat); [reflexivity|lia|cbn; lia|lia].
    + rewrite (Hin 100 2 5%nat); [reflexivity|lia|cbn; lia|lia].
    + apply Hout; cbn; lia.
Defined.

Lemma root_handle_ok : rolling_ok (dp root_handle).
Proof.
  unfold rolling_ok; cbn [dp root_handle makeFile rb_buf rb_start rb_end].
  rewrite zlen_repeat. unfold maxSectorLength. lia.
Qed.




(** The three calls, evaluated: the first call on a fresh handle of
    the root directory returns its three records and leaves the handle
    at the end of the directory; the next returns no record and
    end-of-data; the one after it returns the records again. *)
Example Readdir_three_calls_on_volume :
  listing (Readdir clean_id 10 root_handle (-1)) = Done (root_listing, None) /\
  dp_eof (handle_after (Readdir clean_id 10 root_handle (-1))) = true /\
  listing (Readdir clean_id 10
             (handle_after (Readdir clean_id 10 root_handle (-1))) (-1))
  = Done ([], Some EOF) /\
  listing (Readdir clean_id 10
             (handle_after
                (Readdir clean_id 10
                   (handle_after (Readdir clean_id 10 root_handle (-1))) (-1))) (-1))
  = Done (root_listing, None).
Proof. repeat split; vm_compute; reflexivity. Qed.

End VolumeExamples.

(** * Further properties *)

(** ** MultiFile: what the constructor builds and what a lookup can return *)

Module MultiFileMore.
Import MultiFile MultiFileSpec MultiFileCursor.

Lemma fileAt_search_bounds (offs : list Z) (pos : Z) :
  forall (fuel lo hi : nat),
    (lo <= hi)%nat ->
    (lo <= fileAt_search fuel offs pos lo hi <= hi)%nat.
Proof.
  induction fuel as [|fuel IH]; intros lo hi Hle; cbn [fileAt_search]; [lia|].
  destruct (Nat.ltb_spec lo hi) as [Hlt|]; [|lia].
  assert (Hhalf : ((hi - lo) / 2 < hi - lo)%nat) by (apply Nat.div_lt; lia).
  destruct (nth (lo + (hi - lo) / 2) offs 0 <? pos).
  - pose proof (IH (lo + (hi - lo) / 2 + 1)%nat hi ltac:(lia)). lia.
  - pose proof (IH lo (lo + (hi - lo) / 2)%nat ltac:(lia)). lia.
Qed.

(** The index [fileAt] reads [files] at is never the last one when
    there are two files or more. *)
Lemma fileAt_index (r : MultiFile) (pos : Z) (f : osFile) :
  (2 <= length (files r))%nat ->
  fileAt r pos = Some f ->
  exists i, (i + 2 <= length (files r))%nat /\ nth i (files r) None = Some f.
Proof.
  intros Hn; unfold fileAt.
  destruct ((length (files r) =? 0)%nat || (pos <? 0)); [discriminate|].
  pose proof (@fileAt_search_bounds (offs r) pos (length (files r)) 0
                (length (files r) - 1) ltac:(lia)) as Hb.
  set (lo := fileAt_search (length (files r)) (offs r) pos 0 (length (files r) - 1)) in *.
  set (lo' := if (0 <? lo)%nat then (lo - 1)%nat else lo).
  assert (Hlo' : (lo' + 2 <= length (files r))%nat)
    by (subst lo'; destruct (Nat.ltb_spec 0 lo); lia).
  destruct (nth lo' (offs r) 0 >? pos); [discriminate|].
  intros Hf; exists lo'; split; assumption.
Qed.

(** The handles the loop stores are the sources in order, the total
    size is their sum and the boundaries are those of [boundaries]. *)
Lemma set_nth_app_repeat {A} (done : list A) (x z : A) (k : nat) :
  set_nth (length done) x (done ++ repeat z (S k)) = (done ++ [x]) ++ repeat z k.
Proof.
  unfold set_nth.
  rewrite firstn_app, Nat.sub_diag, firstn_O, app_nil_r, firstn_all.
  rewrite skipn_app, skipn_all2 by lia.
  replace (S (length done) - length done)%nat with 1%nat by lia.
  cbn [repeat skipn app]. now rewrite <- app_assoc.
Qed.

Lemma nth_app_repeat_last {A} (done : list A) (z d : A) (k : nat) :
  nth (length done) (done ++ repeat z (S k)) d = z.
Proof. rewrite app_nth2 by lia. now rewrite Nat.sub_diag. Qed.

Lemma NewMultiFile_loop_success (h : hostfs) :
  forall names (fs : list osFile) (done : list Z) r w r' w',
    files r = map Some fs ++ repeat None (length names) ->
    offs r = done ++ repeat 0 (length names) ->
    length done = length fs ->
    0 <= last done 0 ->
    0 <= size r ->
    last done 0 + total_size h names < 2 ^ 63 ->
    size r + total_size h names < 2 ^ 63 ->
    NewMultiFile_loop h names (length fs) r w = (r', None, None, w') ->
    exists fs',
      files r' = map Some (fs ++ fs') /\
      map f_data fs' = map (source_data h) names /\
      fds_of fs' = seq (next_fd w) (length names) /\
      offs r' = done ++ boundaries (Nat.eqb (length fs) 0) (last done 0)
                                   (map (source_size h) names) /\
      size r' = size r + total_size h names /\
      pos r' = pos r.
Proof.
  induction names as [|name rest IH];
    intros fs done r w r' w' Hfiles Hoffs Hlen Hprev Hsize Hsum1 Hsum2 Hrun.
  - cbn in Hrun; inversion Hrun; subst.
    exists []. cbn in *. rewrite !app_nil_r in *.
    repeat split; auto. unfold total_size; cbn; lia.
  - cbn [NewMultiFile_loop] in Hrun. unfold bind, os_Open in Hrun.
    destruct (h name) as [hf|] eqn:Hh; [|unfold ret in Hrun; discriminate].
    set (f := {| fd := next_fd w; f_data := h_data hf; f_stat_ok := h_stat_ok hf |}) in *.
    set (w1 := {| next_fd := S (next_fd w); open_fds := next_fd w :: open_fds w |}) in *.
    unfold os_Stat in Hrun; cbn [f_stat_ok f_data f] in Hrun.
    destruct (h_stat_ok hf); [|unfold ret in Hrun; discriminate].
    set (sz := zlen (h_data hf)) in *.
    assert (Hsz : 0 <= sz) by apply zlen_nonneg.
    assert (Hss : source_size h name = sz) by (unfold source_size; now rewrite Hh).
    assert (Hsd : source_data h name = h_data hf) by (unfold source_data; now rewrite Hh).
    pose proof (MultiFileProofs.total_size_nonneg h rest) as Htot.
    assert (Hts : total_size h (name :: rest) = sz + total_size h rest)
      by (unfold total_size; cbn [map fold_right]; now rewrite Hss).
    rewrite Hts in *.
    match type of Hrun with
    | context [if nth _ (offs ?x) 0 <? 0 then _ else _] => set (r2 := x) in *
    end.
    set (v := if (length fs =? 0)%nat then 0 else last done 0 + sz).
    assert (Hv : 0 <= v) by (subst v; destruct (length fs =? 0)%nat; lia).
    assert (Hf2 : files r2 = map Some (fs ++ [f]) ++ repeat None (length rest)).
    { assert (Hx : files r2 = set_nth (length fs) (Some f) (files r))
        by (subst r2; destruct (length fs); reflexivity).
      rewrite Hx, Hfiles. apply MultiFileProofs.set_nth_files. }
    assert (Ho2 : offs r2 = (done ++ [v]) ++ repeat 0 (length rest)).
    { subst r2 v. destruct (length fs) as [|j] eqn:Hl.
      - cbn [offs Nat.eqb]. rewrite Hoffs.
        destruct done; [|cbn in Hlen; lia]. reflexivity.
      - cbn [offs Nat.eqb]. rewrite Hoffs. rewrite <- Hlen. cbn [length].
        assert (Hnth : nth j done 0 = last done 0).
        { clear - Hlen. destruct done as [|d0 done' _] using rev_ind; [cbn in Hlen; lia|].
          rewrite last_last. rewrite length_app in Hlen; cbn [length] in Hlen.
          replace j with (length done') by lia. now rewrite nth_middle. }
        rewrite app_nth1 by lia. rewrite Hnth, wrap64_small by lia.
        apply set_nth_app_repeat. }
    assert (Hs2 : size r2 = size r + sz).
    { assert (Hx : size r2 = wrap64 (size r + sz))
        by (subst r2; destruct (length fs); reflexivity).
      rewrite Hx, wrap64_small; lia. }
    assert (Hp2 : pos r2 = pos r) by (subst r2; destruct (length fs); reflexivity).
    assert (Hnth2 : nth (length fs) (offs r2) 0 = v).
    { rewrite Ho2, <- Hlen, <- app_assoc. cbn [app]. now rewrite nth_middle. }
    rewrite Hnth2 in Hrun.
    destruct (Z.ltb_spec v 0); [lia|].
    replace (S (length fs)) with (length (fs ++ [f])) in Hrun
      by (rewrite length_app; cbn; lia).
    destruct (IH (fs ++ [f]) (done ++ [v]) r2 w1 r' w' Hf2 Ho2) as
        (fs' & H1 & H2 & H3 & H4 & H5 & H6); auto.
    + rewrite !length_app; cbn; lia.
    + now rewrite last_last.
    + lia.
    + rewrite last_last. subst v. destruct (length fs =? 0)%nat; lia.
    + lia.
    + exists (f :: fs'). rewrite <- app_assoc in H1, H4; cbn [app] in H1, H4.
      rewrite last_last in H4.
      replace ((length (fs ++ [f]) =? 0)%nat) with false in H4
        by (rewrite length_app; cbn; symmetry; apply Nat.eqb_neq; lia).
      repeat split.
      * exact H1.
      * cbn [map f_data f]. now rewrite H2, Hsd.
      * cbn [fds_of map fd f length seq]. f_equal. exact H3.
      * cbn [map boundaries]. rewrite Hss. fold v. exact H4.
      * lia.
      * congruence.
Qed.

Lemma NewMultiFile_success_loop (h : hostfs) (names : list string) (w : World)
    (m : MultiFile) (w' : World) :
  NewMultiFile h names w = (inl m, w') ->
  NewMultiFile_loop h names 0
    {| files := repeat None (length names); offs := repeat 0 (length names);
       size := 0; pos := 0 |} w
  = (m, None, None, w').
Proof.
  intros Hnew. unfold NewMultiFile in Hnew. unfold bind at 1 in Hnew.
  match type of Hnew with
  | context [NewMultiFile_loop h names 0 ?x w] => set (r0 := x) in *
  end.
  destruct (NewMultiFile_loop h names 0 r0 w) as [[[r' result] err] w1] eqn:Hrun.
  destruct (@MultiFileProofs.NewMultiFile_loop_inv h names (@nil osFile) r0 w _ _ _ _
              eq_refl Hrun) as (fs' & leaked & _ & _ & _ & _ & _ & _ & H7).
  destruct result as [e|].
  - cbv [bind ret] in Hnew. destruct err; [destruct (Close r' w1)|]; discriminate.
  - destruct (H7 eq_refl) as (_ & _ & ->).
    cbv [bind ret] in Hnew. inversion Hnew; subst. reflexivity.
Qed.

(** [X1]  What a successful construction leaves: the handles are the
    sources in the order given, each with the data of its source;
    [Size] is the sum of their sizes; the position is zero; and the
    boundaries are those of [boundaries]: zero for the first source,
    and for every later source the boundary before it plus that
    source's own size. *)
Theorem NewMultiFile_builds (h : hostfs) (names : list string) (w w' : World)
    (m : MultiFile) :
  total_size h names < 2 ^ 63 ->
  NewMultiFile h names w = (inl m, w') ->
  map (option_map f_data) (files m) = map (fun n => Some (source_data h n)) names /\
  offs m = boundaries true 0 (map (source_size h) names) /\
  Size m = total_size h names /\
  pos m = 0.
Proof.
  intros Hsum Hnew. apply NewMultiFile_success_loop in Hnew.
  destruct (@NewMultiFile_loop_success h names [] []
              {| files := repeat None (length names); offs := repeat 0 (length names);
                 size := 0; pos := 0 |} w m w') as
      (fs' & H1 & H2 & _ & H4 & H5 & H6); cbn [length last size app map];
    try lia; try reflexivity; try exact Hnew.
  cbn [app Nat.eqb length last size pos] in *.
  repeat split; auto.
  rewrite H1, map_map. cbn [option_map].
  rewrite <- (map_map f_data Some), H2, map_map. reflexivity.
Qed.

Lemma NewMultiFile_builds_witness :
  exists m w',
    NewMultiFile Examples.host_ab ["a"; "b"]%string Examples.w0 = (inl m, w') /\
    offs m = [0; 2] /\ Size m = 5.
Proof.
  destruct (NewMultiFile Examples.host_ab ["a"; "b"]%string Examples.w0) as [[m|e] w']
    eqn:Hnew; [|vm_compute in Hnew; discriminate].
  destruct (@NewMultiFile_builds Examples.host_ab ["a"; "b"]%string Examples.w0 w' m)
    as (_ & Ho & Hs & _); [vm_compute; reflexivity|exact Hnew|].
  exists m, w'. repeat split; assumption.
Defined.

(** [X2]  In a MultiFile built from two sources or more, [fileAt]
    never returns the handle of the last source, whatever the
    position. *)
Theorem fileAt_never_last_source (h : hostfs) (names : list string) (w w' : World)
    (m : MultiFile) :
  (2 <= length names)%nat ->
  NewMultiFile h names w = (inl m, w') ->
  forall p, fileAt m p <> nth (length names - 1) (files m) None.
Proof.
  intros Hn Hnew p. apply NewMultiFile_success_loop in Hnew.
  destruct (@MultiFileProofs.NewMultiFile_loop_inv h names (@nil osFile)
              {| files := repeat None (length names); offs := repeat 0 (length names);
                 size := 0; pos := 0 |} w _ _ _ _
              eq_refl Hnew) as (fs' & leaked & H1 & _ & H3 & _ & _ & _ & H7).
  destruct (H7 eq_refl) as (_ & Hlen & _).
  cbn [app] in H1. rewrite Hlen, Nat.sub_diag in H1. cbn [repeat] in H1.
  rewrite app_nil_r in H1.
  assert (Hfd : forall i f, (i < length names)%nat ->
                            nth i (files m) None = Some f -> fd f = (next_fd w + i)%nat).
  { intros i f Hi Hf. rewrite H1 in Hf.
    assert (Hnth : nth_error (map Some fs') i = Some (Some f)).
    { rewrite <- Hf. apply nth_error_nth'. rewrite length_map; lia. }
    rewrite nth_error_map in Hnth.
    destruct (nth_error fs' i) as [g|] eqn:Hg; [|discriminate].
    inversion Hnth; subst g.
    assert (Hfds : nth_error (fds_of fs') i = Some (fd f))
      by (unfold fds_of; rewrite nth_error_map, Hg; reflexivity).
    rewrite H3, Hlen in Hfds.
    rewrite nth_error_nth' with (d := 0%nat) in Hfds by (rewrite length_seq; lia).
    rewrite seq_nth in Hfds by lia. congruence. }
  assert (Hfiles : length (files m) = length names)
    by (rewrite H1, length_map; exact Hlen).
  destruct (fileAt m p) as [f|] eqn:Hat.
  - destruct (@fileAt_index m p f ltac:(lia) Hat) as (i & Hi & Hf).
    intros Hlast. symmetry in Hlast.
    pose proof (Hfd i f ltac:(lia) Hf). pose proof (Hfd (length names - 1)%nat f ltac:(lia) Hlast). lia.
  - intros Hlast. symmetry in Hlast. rewrite H1 in Hlast.
    assert (Hnth : nth_error (map Some fs') (length names - 1) = Some None).
    { rewrite <- Hlast. apply nth_error_nth'. rewrite length_map; lia. }
    rewrite nth_error_map in Hnth.
    destruct (nth_error fs' (length names - 1)); discriminate.
Qed.

Lemma fileAt_never_last_source_witness :
  fileAt MoreExamples.multifile_ab 4
  <> Some {| fd := 1; f_data := [x04; x05]; f_stat_ok := true |} /\
  fileAt MoreExamples.multifile_ab 4
  = Some {| fd := 0; f_data := [x01; x02; x03]; f_stat_ok := true |}.
Proof.
  split; [|reflexivity].
  apply (@fileAt_never_last_source Examples.host_ab ["a"; "b"]%string Examples.w0
           {| next_fd := 2; open_fds := [1; 0]%nat |} MoreExamples.multifile_ab).
  - cbn; lia.
  - vm_compute; reflexivity.
Defined.

Lemma remove_all_keeps (d : nat) (xs l : list nat) :
  ~ In d xs -> remove_all xs (d :: l) = d :: remove_all xs l.
Proof.
  revert l; induction xs as [|x xs IH]; intros l Hd; [reflexivity|].
  rewrite !MultiFileProofs.remove_all_cons. unfold remove_fd at 1; cbn [filter].
  destruct (Nat.eqb_spec x d) as [->|Hxd]; [exfalso; apply Hd; now left|].
  cbn [negb]. apply IH. intros Hin; apply Hd; now right.
Qed.

(** Where the loop stops on a failure of [Stat]: the handles stored so
    far, and above them in the list of open descriptors the handle
    that was opened and not stored. *)
Lemma NewMultiFile_loop_stat_failure (h : hostfs) :
  forall names fs r w r' n err w',
    files r = map Some fs ++ repeat None (length names) ->
    NewMultiFile_loop h names (length fs) r w = (r', Some (ErrStat n), err, w') ->
    exists fs',
      files r' = map Some (fs ++ fs') ++ repeat None (length names - length fs') /\
      (length fs' < length names)%nat /\
      fds_of fs' = seq (next_fd w) (length fs') /\
      open_fds w' = (next_fd w + length fs')%nat :: rev (fds_of fs') ++ open_fds w /\
      err <> None /\
      n = nth (length fs') names ""%string /\
      source_ok h n = false.
Proof.
  induction names as [|name rest IH]; intros fs r w r' n err w' Hfiles Hrun.
  - cbn in Hrun; inversion Hrun.
  - cbn [NewMultiFile_loop] in Hrun. unfold bind, os_Open in Hrun.
    destruct (h name) as [hf|] eqn:Hh; [|unfold ret in Hrun; inversion Hrun].
    set (f := {| fd := next_fd w; f_data := h_data hf; f_stat_ok := h_stat_ok hf |}) in *.
    set (w1 := {| next_fd := S (next_fd w); open_fds := next_fd w :: open_fds w |}) in *.
    destruct (os_Stat f) as [sz|e] eqn:Hstat.
    + match type of Hrun with
      | context [if nth _ (offs ?x) 0 <? 0 then _ else _] => set (r2 := x) in *
      end.
      assert (Hf2 : files r2 = map Some (fs ++ [f]) ++ repeat None (length rest)).
      { assert (Hs : files r2 = set_nth (length fs) (Some f) (files r))
          by (subst r2; destruct (length fs); reflexivity).
        rewrite Hs, Hfiles. apply MultiFileProofs.set_nth_files. }
      destruct (nth (length fs) (offs r2) 0 <? 0);
        [unfold ret in Hrun; inversion Hrun|].
      replace (S (length fs)) with (length (fs ++ [f])) in Hrun
        by (rewrite length_app; cbn; lia).
      destruct (IH _ _ _ _ _ _ _ Hf2 Hrun) as (fs' & H1 & H2 & H3 & H4 & H5 & H6 & H7).
      exists (f :: fs'). cbn [length fds_of map rev nth] in *.
      rewrite <- app_assoc in H1; cbn [app] in H1.
      split; [exact H1|]. split; [lia|].
      split; [fold (fds_of fs'); rewrite H3; reflexivity|].
      split; [|auto].
      rewrite H4. fold (fds_of fs'). subst w1; cbn [fd f next_fd open_fds].
      replace (S (next_fd w) + length fs')%nat with (next_fd w + S (length fs'))%nat by lia.
      rewrite <- !app_assoc. reflexivity.
    + unfold ret in Hrun; inversion Hrun; subst.
      exists []. cbn [length app rev fds_of map seq nth].
      rewrite app_nil_r, Nat.sub_0_r, Nat.add_0_r.
      repeat split; auto; try lia; try discriminate.
      unfold source_ok; rewrite Hh.
      unfold os_Stat in Hstat; cbn [f_stat_ok f] in Hstat.
      destruct (h_stat_ok hf); [discriminate|reflexivity].
Qed.

(** [X3]  When [Stat] fails on a source, the constructor closes the
    handles of the sources before it and leaves open the handle it had
    just opened for the failing one: afterwards exactly one more
    descriptor is open than before the call, and no caller holds it.
    The source named in the error is the first that does not pass
    [Stat]. *)
Theorem NewMultiFile_Stat_failure_leaks_handle (h : hostfs) (names : list string)
    (w w' : World) (n : string) :
  world_ok w ->
  NewMultiFile h names w = (inr (ErrStat n), w') ->
  exists k,
    (k < length names)%nat /\ n = nth k names ""%string /\
    source_ok h n = false /\
    open_fds w' = (next_fd w + k)%nat :: open_fds w /\
    ~ is_open w (next_fd w + k)%nat.
Proof.
  intros Hw Hnew. unfold NewMultiFile in Hnew. unfold bind at 1 in Hnew.
  match type of Hnew with
  | context [NewMultiFile_loop h names 0 ?x w] => set (r0 := x) in *
  end.
  destruct (NewMultiFile_loop h names 0 r0 w) as [[[r' result] err] w1] eqn:Hrun.
  assert (Hres : result = Some (ErrStat n)).
  { destruct result as [e|]; cbv [bind ret] in Hnew.
    - destruct err; [destruct (Close r' w1)|]; inversion Hnew; reflexivity.
    - destruct err; [destruct (Close r' w1)|]; discriminate. }
  subst result.
  destruct (@NewMultiFile_loop_stat_failure h names (@nil osFile) r0 w _ _ _ _
              eq_refl Hrun) as (fs' & H1 & H2 & H3 & H4 & H5 & H6 & H7).
  exists (length fs'). split; [exact H2|]. split; [exact H6|]. split; [exact H7|].
  split.
  - destruct err as [e|]; [|congruence].
    unfold bind at 1 in Hnew. unfold bind at 1 in Hnew.
    pose proof (MultiFileProofs.close_all_files fs' (length names - length fs') w1) as Hc.
    cbn [app] in H1. unfold Close in Hnew. rewrite H1 in Hnew.
    unfold bind at 1 in Hnew.
    destruct (close_all _ w1) as [u w2]; cbn [snd] in Hc; subst w2.
    cbv [bind ret] in Hnew. inversion Hnew; subst w'. cbn [open_fds].
    rewrite H4, remove_all_keeps.
    + f_equal. rewrite H3. apply MultiFileProofs.remove_all_fresh. exact Hw.
    + rewrite H3, in_seq. lia.
  - unfold is_open. intros Hin. apply Hw in Hin. lia.
Qed.

Lemma NewMultiFile_Stat_failure_leaks_handle_witness :
  exists k,
    (k < 2)%nat /\ "x"%string = nth k ["a"; "x"]%string ""%string /\
    source_ok MoreExamples.host_nostat "x" = false /\
    [1%nat] = (0 + k)%nat :: [] /\
    ~ is_open Examples.w0 (0 + k)%nat.
Proof.
  apply (@NewMultiFile_Stat_failure_leaks_handle MoreExamples.host_nostat
           ["a"; "x"]%string Examples.w0 {| next_fd := 2; open_fds := [1%nat] |}
           "x"%string).
  - intros d Hd; destruct Hd.
  - vm_compute; reflexivity.
Defined.

Lemma one_source_fileAt (r : MultiFile) (f : osFile) (p : Z) :
  files r = [Some f] -> offs r = [0] -> 0 <= p -> fileAt r p = Some f.
Proof.
  intros Hf Ho Hp. unfold fileAt. rewrite Hf, Ho. cbn.
  destruct (Z.ltb_spec p 0); [lia|]. cbn.
  destruct p; try reflexivity; lia.
Qed.

Lemma one_source_ReadAt (r : MultiFile) (data : list byte) (len off : Z) :
  one_source r data -> 0 <= len -> off < 2 ^ 63 ->
  ReadAt r len off = contiguous_ReadAt [data] len off.
Proof.
  intros (f & Hf & Hd & Ho) Hlen Hoff.
  unfold contiguous_ReadAt, contiguous. cbn [concat]. rewrite app_nil_r.
  destruct (Z.ltb_spec off 0) as [Hneg|Hpos].
  { unfold ReadAt, ReadAt_fuel, fileAt. rewrite Hf. cbn [length Nat.eqb orb].
    destruct (Z.ltb_spec off 0); [reflexivity|lia]. }
  unfold ReadAt, ReadAt_fuel. rewrite (one_source_fileAt r Hf Ho) by lia.
  cbn [ReadAt_loop]. unfold os_ReadAt.
  destruct (Z.ltb_spec off 0); [lia|].
  rewrite zlen_nil, Z.sub_0_r; cbn [app]. rewrite Hd.
  set (d := slice data off (off + len)).
  destruct (Z.ltb_spec (zlen d) len) as [Hshort|Hfull]; [|reflexivity].
  destruct (Z.eqb_spec (zlen d) len); [lia|].
  pose proof (zlen_nonneg d).
  pose proof (wrap64_range (off + zlen d)).
  destruct (Z.ltb_spec (wrap64 (off + zlen d)) 0) as [Hw|Hw].
  - unfold fileAt. rewrite Hf. cbn [length Nat.eqb orb].
    destruct (Z.ltb_spec (wrap64 (off + zlen d)) 0); [reflexivity|lia].
  - rewrite (one_source_fileAt r Hf Ho) by lia.
    rewrite MultiFileProofs.same_file_refl. reflexivity.
Qed.

Lemma NewMultiFile_one_source (h : hostfs) (name : string) (w w' : World)
    (m : MultiFile) :
  source_size h name < 2 ^ 63 ->
  NewMultiFile h [name] w = (inl m, w') ->
  one_source m (source_data h name) /\ size m = source_size h name /\ pos m = 0.
Proof.
  intros Hsz Hnew. apply NewMultiFile_success_loop in Hnew.
  assert (Htot : total_size h [name] = source_size h name)
    by (unfold total_size; cbn; lia).
  destruct (@NewMultiFile_loop_success h [name] [] []
              {| files := repeat None 1; offs := repeat 0 1; size := 0; pos := 0 |}
              w m w') as (fs' & H1 & H2 & _ & H4 & H5 & H6);
    cbn [length last size app map]; try lia; try reflexivity; try exact Hnew.
  cbn [app Nat.eqb length last size pos map boundaries] in *.
  destruct fs' as [|f [|g fs']]; try discriminate.
  cbn [map] in *. inversion H2.
  repeat split; try lia; auto.
  exists f. repeat split; auto.
Qed.

(** [X4]  A MultiFile built from one source reads as that source: for
    every destination length and every offset, [ReadAt] stores the
    bytes of the source from the offset on, as many as fit, and
    reports end-of-data exactly when the destination is not filled. *)
Theorem NewMultiFile_single_source_ReadAt (h : hostfs) (name : string) (w w' : World)
    (m : MultiFile) (len off : Z) :
  source_size h name < 2 ^ 63 ->
  NewMultiFile h [name] w = (inl m, w') ->
  0 <= len -> off < 2 ^ 63 ->
  ReadAt m len off = contiguous_ReadAt [source_data h name] len off.
Proof.
  intros Hsz Hnew Hlen Hoff.
  destruct (NewMultiFile_one_source h name w Hsz Hnew) as (Hone & _).
  apply one_source_ReadAt; assumption.
Qed.

Lemma NewMultiFile_single_source_ReadAt_witness :
  exists m w',
    NewMultiFile Examples.host_ab ["a"%string] Examples.w0 = (inl m, w') /\
    ReadAt m 2 1 = ([x02; x03], None) /\
    ReadAt m 4 1 = ([x02; x03], Some EOF).
Proof.
  destruct (NewMultiFile Examples.host_ab ["a"%string] Examples.w0) as [[m|e] w']
    eqn:Hnew; [|vm_compute in Hnew; discriminate].
  exists m, w'. split; [reflexivity|]. split.
  - rewrite (@NewMultiFile_single_source_ReadAt Examples.host_ab "a"%string
               Examples.w0 w' m 2 1); [reflexivity|vm_compute; reflexivity|exact Hnew|lia|lia].
  - rewrite (@NewMultiFile_single_source_ReadAt Examples.host_ab "a"%string
               Examples.w0 w' m 4 1); [reflexivity|vm_compute; reflexivity|exact Hnew|lia|lia].
Defined.

(** [X5]  [Read] on a MultiFile of one source, from a position inside
    [int64]: the bytes returned are those of the source from the
    current position.  When the destination is filled the position
    advances by its length; when the source runs out first, the bytes
    left are returned together with end-of-data and the position is
    not moved, so that the next [Read] returns the same bytes again. *)
Theorem MultiFile_Read_single_source (r : MultiFile) (data : list byte) (len : Z) :
  one_source r data -> 0 <= pos r -> 0 < len -> pos r + len < 2 ^ 63 ->
  fst (fst (Read r len)) = (if pos r + len <=? zlen data
                            then with_pos r (pos r + len) else r) /\
  snd (fst (Read r len)) = slice data (pos r) (pos r + len) /\
  snd (Read r len) = (if pos r + len <=? zlen data then None else Some EOF).
Proof.
  intros Hone Hpos Hlen Hmax. unfold Read.
  rewrite (one_source_ReadAt Hone) by lia.
  unfold contiguous_ReadAt, contiguous. cbn [concat]. rewrite app_nil_r.
  destruct (Z.ltb_spec (pos r) 0); [lia|].
  set (d := slice data (pos r) (pos r + len)).
  assert (Hd : zlen d = Z.min len (Z.max 0 (zlen data - pos r))).
  { unfold d, zlen. rewrite slice_length. lia. }
  destruct (Z.leb_spec (pos r + len) (zlen data)) as [Hfull|Hshort].
  - destruct (Z.ltb_spec (zlen d) len); [lia|]. cbn [fst snd].
    repeat split. f_equal. rewrite wrap64_small; lia.
  - destruct (Z.ltb_spec (zlen d) len); [|lia]. cbn [fst snd]. repeat split.
Qed.

Lemma MultiFile_Read_single_source_witness :
  Read (with_pos (Examples.single [x01; x02; x03]) 1) 2
  = (with_pos (with_pos (Examples.single [x01; x02; x03]) 1) 3, [x02; x03], None) /\
  Read (with_pos (Examples.single [x01; x02; x03]) 1) 4
  = (with_pos (Examples.single [x01; x02; x03]) 1, [x02; x03], Some EOF).
Proof.
  set (r := with_pos (Examples.single [x01; x02; x03]) 1).
  assert (Hone : one_source r [x01; x02; x03])
    by (eexists; repeat split; reflexivity).
  pose proof (@MultiFile_Read_single_source r [x01; x02; x03] 2 Hone
                ltac:(cbn; lia) ltac:(lia) ltac:(cbn; lia)) as (H1 & H2 & H3).
  pose proof (@MultiFile_Read_single_source r [x01; x02; x03] 4 Hone
                ltac:(cbn; lia) ltac:(lia) ltac:(cbn; lia)) as (H4 & H5 & H6).
  split.
  - destruct (Read r 2) as [[a b] c]; cbn [fst snd] in *; subst; reflexivity.
  - destruct (Read r 4) as [[a b] c]; cbn [fst snd] in *; subst; reflexivity.
Defined.

(** [X6]  [Seek] never leaves a negative position, also when the sum
    of the offset and the base overflows [int64]; it changes nothing
    but the position; a successful call returns the new position, and
    that is the offset added to the base chosen by [whence], reduced
    to [int64]; a failing call returns zero with [ErrInvalid] and
    leaves the MultiFile as it was. *)
Theorem MultiFile_Seek_position (r : MultiFile) (off whence : Z) :
  - 2 ^ 63 <= off < 2 ^ 63 ->
  0 <= pos r ->
  let '(r', n, err) := Seek r off whence in
  0 <= pos r' /\
  files r' = files r /\ offs r' = offs r /\ size r' = size r /\
  match err with
  | None =>
      n = pos r' /\
      exists base, pos r' = wrap64 (off + base) /\
                   ((whence = 0 /\ base = 0) \/ (whence = 1 /\ base = pos r) \/
                    (whence = 2 /\ base = size r))
  | Some e => e = ErrInvalid /\ n = 0 /\ r' = r
  end.
Proof.
  intros Hoff Hpos. unfold Seek, seek_target, SEEK_SET, SEEK_CUR, SEEK_END.
  destruct (Z.eqb_spec whence 0) as [->|H0];
    [|destruct (Z.eqb_spec whence 1) as [->|H1];
      [|destruct (Z.eqb_spec whence 2) as [->|H2]]].
  - destruct (Z.ltb_spec off 0); cbn [pos files offs size with_pos];
      repeat split; auto; try lia.
    exists 0. rewrite Z.add_0_r, wrap64_small by lia. auto.
  - destruct (Z.ltb_spec (wrap64 (off + pos r)) 0); cbn [pos files offs size with_pos];
      repeat split; auto; try lia.
    exists (pos r). auto.
  - destruct (Z.ltb_spec (wrap64 (off + size r)) 0); cbn [pos files offs size with_pos];
      repeat split; auto; try lia.
    exists (size r). auto 6.
  - repeat split; auto.
Qed.

Lemma MultiFile_Seek_position_witness :
  (exists r', Seek MoreExamples.multifile_ab (-2) 2 = (r', 3, None) /\ pos r' = 3) /\
  (Seek MoreExamples.multifile_ab (-6) 2 = (MoreExamples.multifile_ab, 0, Some ErrInvalid)).
Proof.
  pose proof (@MultiFile_Seek_position MoreExamples.multifile_ab (-2) 2
                ltac:(lia) ltac:(cbn; lia)) as H1.
  pose proof (@MultiFile_Seek_position MoreExamples.multifile_ab (-6) 2
                ltac:(lia) ltac:(cbn; lia)) as H2.
  split.
  - destruct (Seek MoreExamples.multifile_ab (-2) 2) as [[r' n] err] eqn:Hs.
    vm_compute in Hs. inversion Hs; subst. eexists; split; reflexivity.
  - destruct (Seek MoreExamples.multifile_ab (-6) 2) as [[r' n] [e|]] eqn:Hs.
    + destruct H2 as (_ & _ & _ & _ & -> & -> & ->). reflexivity.
    + vm_compute in Hs; discriminate.
Defined.

(** When [fileAt] answers every position with the same handle, the
    MultiFile reads as that one file. *)
Lemma constant_fileAt_ReadAt (r : MultiFile) (f : osFile) (len off : Z) :
  files r <> [] ->
  (forall p, 0 <= p -> fileAt r p = Some f) ->
  0 <= len -> off < 2 ^ 63 ->
  ReadAt r len off = contiguous_ReadAt [f_data f] len off.
Proof.
  intros Hne Hat Hlen Hoff.
  assert (Hnone : forall p, p < 0 -> fileAt r p = None).
  { intros p Hp. unfold fileAt. destruct (files r); [congruence|].
    cbn [length Nat.eqb orb]. destruct (Z.ltb_spec p 0); [reflexivity|lia]. }
  unfold contiguous_ReadAt, contiguous. cbn [concat]. rewrite app_nil_r.
  unfold ReadAt, ReadAt_fuel.
  destruct (Z.ltb_spec off 0) as [Hneg|Hpos]; [now rewrite Hnone|].
  rewrite Hat by lia.
  cbn [ReadAt_loop]. unfold os_ReadAt.
  destruct (Z.ltb_spec off 0); [lia|].
  rewrite zlen_nil, Z.sub_0_r; cbn [app].
  set (d := slice (f_data f) off (off + len)).
  destruct (Z.ltb_spec (zlen d) len) as [Hshort|Hfull]; [|reflexivity].
  destruct (Z.eqb_spec (zlen d) len); [lia|].
  pose proof (zlen_nonneg d).
  pose proof (wrap64_range (off + zlen d)).
  destruct (Z.lt_ge_cases (wrap64 (off + zlen d)) 0) as [Hw|Hw].
  - rewrite Hnone by lia. reflexivity.
  - rewrite Hat by lia. rewrite MultiFileProofs.same_file_refl. reflexivity.
Qed.

(** [X19]  A MultiFile built from two sources reads as the first
    source alone: [fileAt] answers every position with the handle of
    the first source, so for every destination length and offset
    [ReadAt] returns what a read of the first source at that offset
    returns, and no byte of the second source is ever returned. *)
Theorem NewMultiFile_two_sources_read_first_only (h : hostfs) (a b : string)
    (w w' : World) (m : MultiFile) (len off : Z) :
  total_size h [a; b] < 2 ^ 63 ->
  NewMultiFile h [a; b] w = (inl m, w') ->
  0 <= len -> off < 2 ^ 63 ->
  ReadAt m len off = contiguous_ReadAt [source_data h a] len off.
Proof.
  intros Hsz Hnew Hlen Hoff. apply NewMultiFile_success_loop in Hnew.
  destruct (@NewMultiFile_loop_success h [a; b] [] []
              {| files := repeat None 2; offs := repeat 0 2; size := 0; pos := 0 |}
              w m w') as (fs' & H1 & H2 & _ & H4 & _);
    cbn [length last size app map]; try lia; try reflexivity; try exact Hnew.
  cbn [app Nat.eqb length last map boundaries] in *.
  destruct fs' as [|fa [|fb [|fc fs']]]; try discriminate.
  cbn [map] in *. injection H2 as Ha Hb.
  rewrite <- Ha. apply constant_fileAt_ReadAt; try assumption.
  - rewrite H1. discriminate.
  - intros p Hp. unfold fileAt. rewrite H1, H4.
    cbn [length Nat.eqb orb].
    destruct (Z.ltb_spec p 0); [lia|].
    assert (Hs : fileAt_search 2 [0; 0 + source_size h b] p 0 (2 - 1)
                 = if 0 <? p then 1%nat else 0%nat)
      by (cbn; destruct (0 <? p); reflexivity).
    rewrite Hs.
    destruct (0 <? p);
      change ((if 0 >? p then None else Some fa) = Some fa);
      destruct (Z.gtb_spec 0 p); [lia|reflexivity|lia|reflexivity].
Qed.

Lemma NewMultiFile_two_sources_read_first_only_witness :
  ReadAt MoreExamples.multifile_ab 2 3 = ([], Some EOF) /\
  ReadAt MoreExamples.multifile_ab 5 1 = ([x02; x03], Some EOF).
Proof.
  assert (Hnew : NewMultiFile Examples.host_ab ["a"; "b"]%string Examples.w0
                 = (inl MoreExamples.multifile_ab,
                    {| next_fd := 2; open_fds := [1; 0]%nat |}))
    by (vm_compute; reflexivity).
  assert (Hsz : total_size Examples.host_ab ["a"; "b"]%string < 2 ^ 63)
    by (vm_compute; reflexivity).
  split.
  - rewrite (NewMultiFile_two_sources_read_first_only _ _ _ _ Hsz Hnew); [reflexivity|lia|lia].
  - rewrite (NewMultiFile_two_sources_read_first_only _ _ _ _ Hsz Hnew); [reflexivity|lia|lia].
Defined.

End MultiFileMore.

Module ImageMore.
Import Image ImageSpec ImageProofs.

(** [X7]  For an image that [NewImage] accepted, on a buffer that
    reports a size that is not negative, the sector size is between
    2048 and 2448 and [NumSectors] is the size of the buffer divided by
    the sector size, rounded up: the least number of sectors that
    cover the buffer. *)
Theorem NewImage_NumSectors_ceiling {B : Type} `{Buffer B} (b : B) (m : Image B) :
  buffer_ok b ->
  0 <= buf_Size b ->
  NewImage b = inl m ->
  2048 <= SectorSize m <= 2448 /\
  buf_Size b <= NumSectors m * SectorSize m < buf_Size b + SectorSize m.
Proof.
  intros Hb Hsize Hnew.
  pose proof (NewImage_spec Hb) as Hspec. rewrite Hnew in Hspec.
  destruct Hspec as (Hbuf & k & Hk & _).
  apply nth_error_In, sectorFormats_size in Hk.
  unfold NumSectors, SectorSize. rewrite Hbuf.
  set (sz := size (sector m)) in *. set (len := buf_Size b) in *.
  split; [exact Hk|].
  pose proof (Z.quot_rem' len sz) as Hqr.
  pose proof (Z.rem_bound_pos len sz Hsize ltac:(lia)) as Hr.
  destruct (Z.eqb_spec (Z.rem len sz) 0) as [H0|H0]; nia.
Qed.

Lemma NewImage_NumSectors_ceiling_witness :
  exists m, NewImage (Examples.single (Examples.iso2048_17 ++ [x00])) = inl m /\
            NumSectors m = 18.
Proof.
  set (b := Examples.single (Examples.iso2048_17 ++ [x00])).
  assert (Hsel : Examples.selected (Examples.iso2048_17 ++ [x00])
                 = Some Examples.format_iso2048) by (vm_compute; reflexivity).
  assert (Hs : buf_Size b = 17 * 2048 + 1) by (vm_compute; reflexivity).
  unfold Examples.selected in Hsel. fold b in Hsel.
  destruct (NewImage b) as [m|e] eqn:Hnew; [|discriminate].
  exists m. split; [reflexivity|].
  pose proof (@NewImage_NumSectors_ceiling _ _ b m (MultiFile_buffer_ok b)
                ltac:(rewrite Hs; lia) Hnew) as (_ & Hc).
  unfold SectorSize in Hc. inversion Hsel as [Hsec]. rewrite Hsec, Hs in Hc.
  cbn [size Examples.format_iso2048] in Hc. lia.
Defined.

(** [X8]  [ReadSector] of an image over a MultiFile of one source,
    into a destination that holds a sector: what is stored is the
    source from the physical offset of the sector on, a whole sector
    or what the source has left, and the call succeeds exactly when
    the whole sector lies inside the source; otherwise (also for a
    physical offset below zero) the error is end-of-data. *)
Theorem ReadSector_over_single_source (r : MultiFile.MultiFile) (data : list byte)
    (s : sectorFormat) (lba blen : Z) :
  MultiFileCursor.one_source r data ->
  pos_fits s lba ->
  2048 <= size s <= blen ->
  ReadSector {| buffer := r; sector := s |} lba blen
  = MultiFile.contiguous_ReadAt [data] (size s) (lba * size s + start s + offset s).
Proof.
  intros Hone Hfits Hsz. unfold ReadSector. cbn [buffer sector].
  rewrite (sector_pos_fits Hfits).
  replace (if blen >? size s then size s else blen) with (size s)
    by (destruct (Z.gtb_spec blen (size s)); lia).
  change (buf_ReadAt r (size s) (lba * size s + start s + offset s))
    with (MultiFile.ReadAt r (size s) (lba * size s + start s + offset s)).
  rewrite (MultiFileMore.one_source_ReadAt Hone)
    by (destruct Hfits as (_ & _ & ?); lia).
  unfold MultiFile.contiguous_ReadAt.
  destruct (lba * size s + start s + offset s <? 0); [reflexivity|].
  set (d := slice _ _ _).
  destruct (Z.ltb_spec (zlen d) (size s)); [reflexivity|].
  destruct (Z.ltb_spec blen (size s)); [lia|].
  destruct (Z.ltb_spec (zlen d) minSectorLength); [unfold minSectorLength in *; lia|].
  reflexivity.
Qed.

Lemma ReadSector_over_single_source_witness :
  ReadSector Examples.ten_image 0 2048 = (Examples.ten_bytes, Some EOF) /\
  ReadSector {| buffer := Examples.single Examples.ten_bytes;
                sector := {| size := 2048; offset := -8; start := 0 |} |} 0 2048
  = ([], Some EOF).
Proof.
  assert (Hone : MultiFileCursor.one_source (Examples.single Examples.ten_bytes)
                   Examples.ten_bytes) by (eexists; repeat split; reflexivity).
  split.
  - unfold Examples.ten_image.
    rewrite (@ReadSector_over_single_source _ _ Examples.format_iso2048 0 2048 Hone);
      [reflexivity|unfold pos_fits; cbn; lia|cbn; lia].
  - rewrite (@ReadSector_over_single_source _ _ {| size := 2048; offset := -8; start := 0 |}
               0 2048 Hone);
      [reflexivity|unfold pos_fits; cbn; lia|cbn; lia].
Defined.

(** [X9]  [NumSectors] counts from the size of the whole buffer, while
    [ReadSector] reads behind the header and the pregap of the format.
    So with a format of the table whose header and pregap together
    are positive, on a MultiFile of one source that is not empty, the
    last sector that [NumSectors] counts cannot be read, whatever the
    destination. *)
Theorem last_counted_sector_unreadable (r : MultiFile.MultiFile) (data : list byte)
    (s : sectorFormat) (blen : Z) :
  MultiFileCursor.one_source r data ->
  MultiFile.size r = zlen data ->
  0 < zlen data < 2 ^ 62 ->
  In s sectorFormats ->
  0 < start s + offset s ->
  0 <= blen ->
  let m := {| buffer := r; sector := s |} in
  snd (ReadSector m (NumSectors m - 1) blen) <> None.
Proof.
  intros Hone Hsize Hlen Hin Hpre Hblen m.
  pose proof (sectorFormats_size Hin) as Hsz.
  assert (Hoff : -8 <= offset s <= 150 * 2048 /\ 0 <= start s <= 24).
  { cbn in Hin. repeat (destruct Hin as [<-|Hin]; [cbn; lia|]). contradiction. }
  unfold NumSectors, m. cbn [buffer sector].
  change (buf_Size r) with (MultiFile.size r). rewrite Hsize.
  set (sz := size s) in *. set (len := zlen data) in *.
  pose proof (Z.quot_rem' len sz) as Hqr.
  pose proof (Z.rem_bound_pos len sz ltac:(lia) ltac:(lia)) as Hr.
  assert (Hq : 0 <= Z.quot len sz) by (apply Z.quot_pos; lia).
  set (n := if Z.rem len sz =? 0 then Z.quot len sz else Z.quot len sz + 1).
  assert (Hn : len <= n * sz < len + sz /\ 1 <= n).
  { subst n. destruct (Z.eqb_spec (Z.rem len sz) 0); nia. }
  assert (Hfits : pos_fits s (n - 1)).
  { unfold pos_fits. fold sz. nia. }
  unfold ReadSector. cbn [buffer sector]. rewrite (sector_pos_fits Hfits). fold sz.
  set (l := if blen >? sz then sz else blen).
  assert (Hl : l = Z.min blen sz) by (subst l; destruct (Z.gtb_spec blen sz); lia).
  change (buf_ReadAt r l ((n - 1) * sz + start s + offset s))
    with (MultiFile.ReadAt r l ((n - 1) * sz + start s + offset s)).
  rewrite (MultiFileMore.one_source_ReadAt Hone) by nia.
  unfold MultiFile.contiguous_ReadAt, MultiFile.contiguous. cbn [concat].
  rewrite app_nil_r.
  destruct ((n - 1) * sz + start s + offset s <? 0); [cbn; discriminate|].
  set (d := slice _ _ _).
  destruct (Z.ltb_spec (zlen d) l); [cbn; discriminate|].
  destruct (Z.ltb_spec blen sz); [cbn; discriminate|].
  exfalso.
  assert (Hd : zlen d <= Z.max 0 (len - ((n - 1) * sz + start s + offset s))).
  { unfold d, zlen, len. rewrite slice_length. unfold zlen. lia. }
  nia.
Qed.

Lemma last_counted_sector_unreadable_witness :
  NumSectors {| buffer := Examples.single Examples.ten_bytes;
                sector := Examples.format_raw2352 |} = 1 /\
  snd (ReadSector {| buffer := Examples.single Examples.ten_bytes;
                     sector := Examples.format_raw2352 |} 0 2352) <> None.
Proof.
  set (m := {| buffer := Examples.single Examples.ten_bytes;
               sector := Examples.format_raw2352 |}).
  assert (Hn : NumSectors m = 1) by (vm_compute; reflexivity).
  split; [exact Hn|].
  change 0 with (1 - 1). rewrite <- Hn.
  apply (@last_counted_sector_unreadable (Examples.single Examples.ten_bytes)
           Examples.ten_bytes Examples.format_raw2352 2352).
  - eexists; repeat split; reflexivity.
  - reflexivity.
  - vm_compute; split; reflexivity.
  - cbn; auto.
  - cbn; lia.
  - lia.
Defined.

End ImageMore.

(** ** More on the file system *)

Lemma lor_range (n a b : Z) :
  0 < n -> 0 <= a < 2 ^ n -> 0 <= b < 2 ^ n -> 0 <= Z.lor a b < 2 ^ n.
Proof.
  intros Hn Ha Hb.
  assert (H0 : 0 <= Z.lor a b) by (apply Z.lor_nonneg; lia).
  split; [exact H0|].
  destruct (Z.eq_dec (Z.lor a b) 0) as [->|Hnz]; [apply Z.pow_pos_nonneg; lia|].
  apply Z.log2_lt_pow2; [lia|].
  rewrite Z.log2_lor by lia.
  assert (Hla : Z.log2 a < n).
  { destruct (Z.eq_dec a 0) as [->|]; [cbn; lia|apply Z.log2_lt_pow2; lia]. }
  assert (Hlb : Z.log2 b < n).
  { destruct (Z.eq_dec b 0) as [->|]; [cbn; lia|apply Z.log2_lt_pow2; lia]. }
  lia.
Qed.

Lemma shiftl_byte_range (x k n : Z) :
  0 <= x <= 255 -> 0 <= k -> k + 8 <= n -> 0 <= Z.shiftl x k < 2 ^ n.
Proof.
  intros Hx Hk Hn. rewrite Z.shiftl_mul_pow2 by lia.
  assert (Hp : 0 < 2 ^ k) by (apply Z.pow_pos_nonneg; lia).
  assert (Hs : 2 ^ (k + 8) <= 2 ^ n) by (apply Z.pow_le_mono_r; lia).
  rewrite Z.pow_add_r in Hs by lia. change (2 ^ 8) with 256 in Hs. nia.
Qed.

Lemma Uint16_range (r : ByteOrder) (b : list byte) : 0 <= Uint16 r b < 2 ^ 16.
Proof.
  pose proof (byte_at_range b 0). pose proof (byte_at_range b 1).
  unfold Uint16; destruct r; apply lor_range; try lia;
    try (apply shiftl_byte_range; lia).
Qed.

Lemma Uint32_range (r : ByteOrder) (b : list byte) : 0 <= Uint32 r b < 2 ^ 32.
Proof.
  pose proof (byte_at_range b 0). pose proof (byte_at_range b 1).
  pose proof (byte_at_range b 2). pose proof (byte_at_range b 3).
  unfold Uint32; destruct r;
    repeat (apply lor_range; try lia; try (apply shiftl_byte_range; lia)).
Qed.

Section FileSystemMore.

Variable Clean : string -> string.
Context {R : Type} `{Reader R}.

Lemma decode_volume_block_size (buf : list byte) (p : primaryVolumeDescriptor) :
  decode_volume Clean buf = Done p -> 0 <= BlockSize p < 2 ^ 16.
Proof.
  unfold decode_volume. destruct (readDir Clean _) as [root| |]; try discriminate.
  intros Hp.
  apply (f_equal (fun v => match v with Done a => BlockSize a | _ => 0 end)) in Hp.
  cbn [BlockSize] in Hp. rewrite <- Hp. apply Uint16_range.
Qed.

Lemma findVolumes_loop_state :
  forall (k : nat) (fs : FileSystem) (sector : Z) (buf : list byte) fs' e,
    findVolumes_loop Clean k fs sector buf = Done (fs', e) ->
    r fs' = r fs /\ paths fs' = paths fs /\
    (e = None ->
     (pvd fs' = pvd fs \/ 0 <= BlockSize (pvd fs') <= SectorSize (r fs)) /\
     (svd fs' = svd fs \/ 0 <= BlockSize (svd fs') <= SectorSize (r fs))).
Proof.
  induction k as [|k IH]; intros fs sector buf fs' e Hrun; cbn [findVolumes_loop] in Hrun.
  { inversion Hrun; subst. repeat split; discriminate. }
  destruct (ReadSector (r fs) sector (zlen buf)) as [d err].
  destruct err as [x|]; [inversion Hrun; subst; repeat split; discriminate|].
  set (buf' := blit buf 0 d) in *.
  destruct ((byte_at buf' 0 =? 1) || (byte_at buf' 0 =? 2)).
  - destruct (decode_volume Clean buf') as [p| |] eqn:Hp; try discriminate.
    pose proof (decode_volume_block_size _ Hp) as Hbs.
    destruct (byte_at buf' 0 =? 2); cbn [r] in Hrun.
    + destruct (Z.gtb_spec (BlockSize p) (SectorSize (r fs)));
        [inversion Hrun; subst; repeat split; discriminate|].
      destruct (IH _ _ _ _ _ Hrun) as (Hr & Hpa & He). cbn [r paths pvd svd] in *.
      split; [exact Hr|]. split; [exact Hpa|]. intros He0.
      destruct (He He0) as [Hpvd Hsvd]. split; [exact Hpvd|].
      right. destruct Hsvd as [->|Hb]; [lia|exact Hb].
    + destruct (Z.gtb_spec (BlockSize p) (SectorSize (r fs)));
        [inversion Hrun; subst; repeat split; discriminate|].
      destruct (IH _ _ _ _ _ Hrun) as (Hr & Hpa & He). cbn [r paths pvd svd] in *.
      split; [exact Hr|]. split; [exact Hpa|]. intros He0.
      destruct (He He0) as [Hpvd Hsvd]. split; [|exact Hsvd].
      right. destruct Hpvd as [->|Hb]; [lia|exact Hb].
  - destruct (byte_at buf' 0 =? 255).
    + inversion Hrun; subst. repeat split; auto.
    + exact (IH _ _ _ _ _ Hrun).
Qed.

(** [X10]  [findVolumes] changes nothing of the file system but the
    two volume descriptors, and when it succeeds each of them is
    either as it was before the call or has a block size between zero
    and the sector size of the reader. *)
Theorem findVolumes_block_size_within_sector (fs fs' : FileSystem) (e : option error) :
  findVolumes Clean fs = Done (fs', e) ->
  r fs' = r fs /\ paths fs' = paths fs /\
  (e = None ->
   (pvd fs' = pvd fs \/ 0 <= BlockSize (pvd fs') <= SectorSize (r fs)) /\
   (svd fs' = svd fs \/ 0 <= BlockSize (svd fs') <= SectorSize (r fs))).
Proof.
  unfold findVolumes. intros Hrun.
  exact (findVolumes_loop_state _ _ _ _ Hrun).
Qed.

Lemma findVolumes_loop_no_descriptor (v : FileSystem) (t : Z) :
  reader_ok (r v) ->
  vd_readable (r v) t -> vd_type (r v) t = 255 ->
  forall (k : nat) (sector : Z) (buf : list byte),
    zlen buf = maxSectorLength ->
    sector <= t < sector + Z.of_nat k ->
    (forall j, sector <= j < t ->
               vd_readable (r v) j /\ vd_type (r v) j <> 1 /\
               vd_type (r v) j <> 2 /\ vd_type (r v) j <> 255) ->
    findVolumes_loop Clean k v sector buf = Done (v, None).
Proof.
  intros Hok Hrd Hty.
  induction k as [|k IH]; intros sector buf Hbuf Ht Hpass; [lia|].
  cbn [findVolumes_loop]. rewrite Hbuf.
  destruct (Hok sector maxSectorLength ltac:(unfold maxSectorLength; lia)) as [Hle Hmin].
  destruct (Z.eq_dec sector t) as [->|Hne].
  - unfold vd_readable, vd_type, vd_read in Hrd, Hty.
    destruct (ReadSector (r v) t maxSectorLength) as [d err]; cbn [fst snd] in *.
    subst err. specialize (Hmin eq_refl). unfold minSectorLength in Hmin.
    rewrite byte_at_blit_0 by lia. rewrite Hty. reflexivity.
  - destruct (Hpass sector ltac:(lia)) as (Hr & H1 & H2 & H255).
    unfold vd_readable, vd_type, vd_read in Hr, H1, H2, H255.
    destruct (ReadSector (r v) sector maxSectorLength) as [d err]; cbn [fst snd] in *.
    subst err. specialize (Hmin eq_refl). unfold minSectorLength in Hmin.
    rewrite byte_at_blit_0 by lia.
    destruct (Z.eqb_spec (byte_at d 0) 1); [contradiction|].
    destruct (Z.eqb_spec (byte_at d 0) 2); [contradiction|].
    destruct (Z.eqb_spec (byte_at d 0) 255); [contradiction|].
    cbn [orb]. apply IH.
    + rewrite zlen_blit_0; lia.
    + lia.
    + intros j Hj. apply Hpass. lia.
Qed.

(** [X11]  A medium that has no volume descriptor before its set
    terminator is accepted: when the sectors from 16 on can be read
    and are neither primary nor supplementary descriptors, up to a
    sector that can be read and is the terminator, [findVolumes]
    succeeds and returns the file system as it was given, with the
    descriptors it had before the call. *)
Theorem findVolumes_accepts_medium_without_descriptor (v : FileSystem) (t : Z) :
  reader_ok (r v) ->
  16 <= t < NumSectors (r v) ->
  (forall j, 16 <= j < t ->
             vd_readable (r v) j /\ vd_type (r v) j <> 1 /\
             vd_type (r v) j <> 2 /\ vd_type (r v) j <> 255) ->
  vd_readable (r v) t ->
  vd_type (r v) t = 255 ->
  findVolumes Clean v = Done (v, None).
Proof.
  intros Hok Ht Hpass Hrd Hty. unfold findVolumes.
  apply (@findVolumes_loop_no_descriptor v t Hok Hrd Hty).
  - rewrite zlen_repeat. unfold maxSectorLength. lia.
  - lia.
  - exact Hpass.
Qed.

(** [X12]  A record that [readDir] decodes depends only on the bytes
    of the record: bytes that follow in the slice change nothing.
    Its fields are in the range of their width, and the slice held
    the 33 bytes of the fixed part, the name and one byte more (and
    for a directory the whole record). *)
Theorem readDir_record (p x : list byte) (d : directory) :
  readDir Clean p = Done (inl d) ->
  readDir Clean (p ++ x) = Done (inl d) /\
  0 <= Siz d <= 255 /\
  0 <= LBA d < 2 ^ 32 /\
  0 <= Length d < 2 ^ 32 /\
  0 <= Seq d < 2 ^ 16 /\
  length (Time d) = 7%nat /\
  34 + byte_at p 32 <= zlen p /\
  (IsDir d = true -> Siz d <= zlen p).
Proof.
  intros Hd.
  destruct (@readDir_inl Clean _ _ Hd) as (Hrec & Hsiz & Hname & Hnl & Hdir).
  pose proof (zlen_nonneg x) as Hx.
  pose proof (byte_at_range p 32) as H32. pose proof (byte_at_range p 0) as H0.
  destruct (@directory_record_app Clean p x Hname) as [Happ Hb].
  assert (Hlen : (34 <= length p)%nat) by (unfold zlen in *; lia).
  split.
  { rewrite readDir_spec, !Hb, zlen_app by lia.
    destruct (Z.ltb_spec (zlen p + zlen x) 34); [lia|].
    destruct (Z.ltb_spec (zlen p + zlen x) (34 + byte_at p 32)); [lia|].
    rewrite !orb_false_l.
    replace (negb (Z.land (byte_at p 25) modeDir =? 0)
             && (zlen p + zlen x <? byte_at p 0)) with false.
    2:{ symmetry. apply andb_false_iff.
        destruct (Z.land (byte_at p 25) modeDir =? 0) eqn:Hflag; [now left|right].
        apply Z.ltb_ge. rewrite <- Hsiz.
        assert (Hle : Siz d <= zlen p).
        { apply Hdir. rewrite Hrec. unfold IsDir, directory_record. cbn [Flags].
          rewrite Hflag. reflexivity. }
        lia. }
    destruct (Z.ltb_spec 222 (byte_at p 32)); [lia|].
    rewrite Happ, Hrec. reflexivity. }
  split; [rewrite Hsiz; exact H0|].
  assert (HLBA : LBA d = field LittleEndian p 2 4) by (rewrite Hrec; reflexivity).
  assert (HLength : Length d = field LittleEndian p 10 4) by (rewrite Hrec; reflexivity).
  assert (HSeq : Seq d = field LittleEndian p 28 2) by (rewrite Hrec; reflexivity).
  assert (HTime : Time d = firstn 7 (skipn 18 p)) by (rewrite Hrec; reflexivity).
  rewrite HLBA, HLength, HSeq, HTime.
  split; [rewrite (@field_4 LittleEndian p 2) by lia; apply Uint32_range|].
  split; [rewrite (@field_4 LittleEndian p 10) by lia; apply Uint32_range|].
  split; [rewrite (@field_2 LittleEndian p 28) by lia; apply Uint16_range|].
  split; [rewrite length_firstn, length_skipn; lia|].
  split; [exact Hname|exact Hdir].
Qed.

Lemma ReadAt_loop_bounds (f : @File R) (len off : Z) :
  forall (fuel : nat) (lba s : Z) (buf acc res : list byte),
    zlen acc <= len ->
    off + zlen acc <= Length (fi f) ->
    ReadAt_loop fuel f len off lba s buf acc = Done res ->
    zlen res <= len /\ off + zlen res <= Length (fi f).
Proof.
  induction fuel as [|fuel IH]; intros lba s buf acc res Hlen Hoff Hrun;
    [discriminate|].
  cbn [ReadAt_loop] in Hrun.
  destruct (ReadSector (r (fs f)) lba (zlen buf)) as [d err].
  destruct err as [x|]; [inversion Hrun; subst; split; assumption|].
  set (e1 := if zlen d >? BlockSize (pvd (fs f)) then BlockSize (pvd (fs f)) else zlen d)
    in *.
  set (left := Length (fi f) - (off + zlen acc)) in *.
  set (e2 := if left <? e1 - s then s + left else e1) in *.
  destruct (Z.ltb_spec e2 s) as [|He]; [discriminate|].
  set (b := slice (blit buf 0 d) s e2) in *.
  set (m := Z.min (len - zlen acc) (zlen b)) in *.
  assert (Hb : zlen b <= left).
  { pose proof (@zlen_slice_le _ (blit buf 0 d) s e2 ltac:(lia)).
    subst b e2. destruct (Z.ltb_spec left (e1 - s)); lia. }
  assert (Hacc : zlen (acc ++ firstn (Z.to_nat m) b) = zlen acc + m).
  { rewrite zlen_app. unfold zlen at 2. rewrite length_firstn.
    pose proof (zlen_nonneg b). unfold zlen in *. lia. }
  assert (Hm : 0 <= m) by (pose proof (zlen_nonneg b); lia).
  destruct ((zlen (acc ++ firstn (Z.to_nat m) b) >=? len)
            || (off + m >=? Length (fi f))).
  - inversion Hrun; subst res. rewrite Hacc. lia.
  - apply (IH _ _ _ _ _ ltac:(rewrite Hacc; lia) ltac:(rewrite Hacc; lia) Hrun).
Qed.

(** [X13]  Whatever the reader does, a [ReadAt] that returns stores no
    more bytes than the destination holds and none beyond the declared
    length of the file.  It returns an error exactly when the handle
    is a directory or the offset lies outside the file, and then it
    stores nothing; inside the file it returns no error, also when a
    sector could not be read and fewer bytes than asked for, or none,
    were stored. *)
Theorem File_ReadAt_bounds (f : @File R) (fuel : nat) (len off : Z)
    (d : list byte) (err : option error) :
  0 <= len ->
  ReadAt fuel f len off = Done (d, err) ->
  zlen d <= len /\
  (err = None <-> IsDir (fi f) = false /\ 0 <= off < Length (fi f)) /\
  (err = None -> off + zlen d <= Length (fi f)) /\
  (err <> None -> d = []).
Proof.
  intros Hlen Hrun. unfold ReadAt in Hrun.
  destruct (IsDir (fi f)) eqn:Hdir.
  { inversion Hrun; subst. cbn.
    repeat split; try discriminate; try lia; intros [? _]; discriminate. }
  destruct (Z.geb_spec off (Length (fi f))) as [Hge|Hlt].
  { inversion Hrun; subst. cbn.
    repeat split; try discriminate; try lia; intros [_ ?]; lia. }
  destruct (Z.ltb_spec off 0) as [Hneg|Hpos].
  { inversion Hrun; subst. cbn.
    repeat split; try discriminate; try lia; intros [_ ?]; lia. }
  destruct (BlockSize (pvd (fs f)) =? 0); [discriminate|].
  destruct (ReadAt_loop fuel f len off _ _ _ []) as [acc| |] eqn:Hloop;
    try discriminate.
  inversion Hrun; subst d err.
  apply ReadAt_loop_bounds in Hloop; [|rewrite zlen_nil; lia|rewrite zlen_nil; lia].
  destruct Hloop as [H1 H2].
  repeat split; auto; try lia. intros Hne; contradiction.
Qed.

Lemma slice_clip {A} (c : list A) (lo hi : Z) :
  slice c lo (Z.min hi (zlen c)) = slice c lo hi.
Proof.
  destruct (Z.le_gt_cases hi (zlen c)) as [Hle|Hgt]; [now rewrite Z.min_l by lia|].
  rewrite Z.min_r by lia. unfold slice, zlen in *.
  rewrite !firstn_all2; [reflexivity| |]; rewrite length_skipn; lia.
Qed.

Lemma slice_beyond {A} (c : list A) (lo hi : Z) : zlen c <= lo -> slice c lo hi = [].
Proof.
  intros Hlo. unfold slice, zlen in *.
  rewrite skipn_all2 by lia. apply firstn_nil.
Qed.

Lemma ReadAt_content_in_range (f : @File R) (content : list byte) (K : Z)
    (len off : Z) (fuel : nat) :
  IsDir (fi f) = false ->
  reader_ok (r (fs f)) ->
  0 < BlockSize (pvd (fs f)) ->
  backed_by f content ->
  0 <= K ->
  snd (ReadSector (r (fs f)) (LBA (fi f) + K) (maxSectorLength * 2)) <> None ->
  0 <= len -> 0 <= off < Length (fi f) -> (Z.to_nat K < fuel)%nat ->
  ReadAt fuel f len off = Done (slice content off (off + len), None).
Proof.
  intros Hfile Hok Hbs Hback HK Hend Hlen Hoff Hfuel.
  unfold ReadAt. rewrite Hfile.
  destruct (Z.geb_spec off (Length (fi f))); [lia|].
  destruct (Z.ltb_spec off 0); [lia|].
  destruct (Z.eqb_spec (BlockSize (pvd (fs f))) 0); [lia|].
  rewrite Z.quot_div_nonneg, Z.rem_mod_nonneg by lia.
  pose proof (Z.div_mod off (BlockSize (pvd (fs f))) ltac:(lia)) as Hdm.
  pose proof (Z.mod_pos_bound off (BlockSize (pvd (fs f))) Hbs) as Hmod.
  assert (Hdiv : 0 <= off / BlockSize (pvd (fs f))) by (apply Z.div_pos; lia).
  rewrite (ReadAt_loop_content f content K len off Hok Hbs Hback HK Hend Hoff).
  - destruct Hback as [Hclen _]. rewrite <- Hclen, slice_clip. reflexivity.
  - rewrite zlen_repeat, Z2Nat.id; unfold maxSectorLength; lia.
  - exact Hdiv.
  - exact Hmod.
  - rewrite zlen_nil. lia.
  - lia.
  - rewrite slice_empty; [reflexivity|lia].
  - rewrite zlen_nil; lia.
  - lia.
Qed.

(** [X14]  [Seek] from the start followed by [Read], on a file known
    by its content: [Seek] to an offset that is not negative moves the
    handle there, and [Read] then returns the bytes of the content
    from that offset on, as many as the destination holds, and moves
    the offset by their number; inside the file there is no error, at
    or beyond its end no byte and end-of-data.  So a [Read] from the
    start into a destination of the size that [Stat] reports returns
    the whole content, and its count is that size. *)
Theorem File_Seek_Read_content (f : @File R) (content : list byte) (K : Z)
    (k len : Z) (fuel : nat) :
  IsDir (fi f) = false ->
  reader_ok (r (fs f)) ->
  0 < BlockSize (pvd (fs f)) ->
  backed_by f content ->
  0 <= K ->
  snd (ReadSector (r (fs f)) (LBA (fi f) + K) (maxSectorLength * 2)) <> None ->
  (Z.to_nat K < fuel)%nat ->
  0 <= k -> 0 <= len -> k + len < 2 ^ 63 ->
  Seek f k SEEK_SET = (with_off f k, k, None) /\
  Read fuel (with_off f k) len
  = Done (with_off f (k + zlen (slice content k (k + len))),
          slice content k (k + len),
          if k <? Length (fi f) then None else Some EOF) /\
  (off f = 0 -> 0 < Size (fst (Stat f)) < 2 ^ 63 ->
   Read fuel f (Size (fst (Stat f)))
   = Done (with_off f (Size (fst (Stat f))), content, None)).
Proof.
  intros Hfile Hok Hbs Hback HK Hend Hfuel Hk Hlen Hmax.
  assert (Hread : forall o n, 0 <= o -> 0 <= n -> o + n < 2 ^ 63 ->
            Read fuel (with_off f o) n
            = Done (with_off f (o + zlen (slice content o (o + n))),
                    slice content o (o + n),
                    if o <? Length (fi f) then None else Some EOF)).
  { intros o n Ho Hn Hon. unfold Read. cbn [off with_off].
    pose proof (@zlen_slice_le _ content o (o + n) ltac:(lia)) as Hle.
    pose proof (zlen_nonneg (slice content o (o + n))) as Hge.
    destruct (Z.ltb_spec o (Length (fi f))) as [Hin|Hout].
    - rewrite (@ReadAt_content_in_range (with_off f o) content K n o fuel);
        try assumption; try lia; try (cbn [fi with_off]; lia).
      rewrite wrap64_small by lia. reflexivity.
    - destruct Hback as [Hclen _].
      rewrite slice_beyond by lia.
      unfold ReadAt. cbn [fi with_off]. rewrite Hfile.
      destruct (Z.geb_spec o (Length (fi f))); [|lia].
      rewrite zlen_nil, Z.add_0_r, wrap64_small by lia. reflexivity. }
  split; [|split].
  - unfold Seek, seek_target, SEEK_SET. cbn [Z.eqb].
    destruct (Z.ltb_spec k 0); [lia|reflexivity].
  - apply Hread; assumption.
  - intros Hoff Hsize. unfold Size, Stat in *. cbn [fst] in *.
    destruct Hback as [Hclen Hblocks].
    assert (Hf : f = with_off f 0) by (destruct f; cbn in *; subst; reflexivity).
    rewrite Hf at 1. rewrite Hread by lia.
    assert (Hall : slice content 0 (0 + Length (fi f)) = content).
    { rewrite slice_0_firstn. apply firstn_all2. unfold zlen in Hclen. lia. }
    rewrite Hall, Hclen.
    destruct (Z.ltb_spec 0 (Length (fi f))); [reflexivity|lia].
Qed.

Lemma Readdir_loop_records (f : @File R) (n : Z) :
  0 <= Length (fi f) ->
  forall (fuel : nat) (rb : rolling) (i : Z) (acc : list directory) rb' acc' x,
    Readdir_loop Clean fuel f n rb i acc = Done (rb', acc', x) ->
    (acc = [] -> i = 0) ->
    (forall d, In d acc -> 1 <= Siz d <= 255) ->
    (0 < n -> zlen acc < n) ->
    (forall d, In d acc' -> 1 <= Siz d <= 255) /\
    (0 < n -> zlen acc' <= n) /\
    (x = ExitLength \/ x = ExitCount -> acc' <> []).
Proof.
  intros HL. induction fuel as [|fuel IH]; intros rb i acc rb' acc' x Hrun Hi Hsiz Hn;
    [discriminate|].
  cbn [Readdir_loop] in Hrun.
  destruct (negb (Length (fi f) =? 0) && (i >=? Length (fi f))) eqn:Hexit.
  { inversion Hrun; subst. split; [exact Hsiz|]. split; [intros; lia|].
    intros _ Hnil. specialize (Hi Hnil). subst i.
    apply andb_true_iff in Hexit as [Hnz Hge].
    apply negb_true_iff, Z.eqb_neq in Hnz. apply Z.geb_le in Hge. lia. }
  destruct (readDir Clean (window rb)) as [[d|e]| |] eqn:Hrd; try discriminate.
  - destruct (@readDir_inl Clean _ _ Hrd) as (_ & Hs & _).
    pose proof (byte_at_range (window rb) 0) as Hrange.
    destruct (Z.eqb_spec (Siz d) 0) as [Hz|Hnz].
    { inversion Hrun; subst. split; [exact Hsiz|]. split; [intros; lia|].
      intros [?|?]; discriminate. }
    assert (Hsiz' : forall d', In d' (acc ++ [d]) -> 1 <= Siz d' <= 255).
    { intros d' Hin. apply in_app_iff in Hin as [Hin|[<-|[]]]; [auto|lia]. }
    assert (Hlen' : zlen (acc ++ [d]) = zlen acc + 1)
      by (rewrite zlen_app; reflexivity).
    destruct ((n >? 0) && (zlen (acc ++ [d]) >=? n)) eqn:Hcount.
    + inversion Hrun; subst. split; [exact Hsiz'|]. split; [intros; lia|].
      intros _ Hnil. apply app_eq_nil in Hnil as [_ Hnil]. discriminate.
    + apply (IH _ _ _ _ _ _ Hrun); [|exact Hsiz'|].
      * intros Hnil. apply app_eq_nil in Hnil as [_ Hnil]. discriminate.
      * intros Hpos. apply andb_false_iff in Hcount as [Hc|Hc].
        -- rewrite Z.gtb_ltb in Hc. apply Z.ltb_ge in Hc. lia.
        -- rewrite Z.geb_leb in Hc. apply Z.leb_gt in Hc. exact Hc.
  - destruct (refill (r (fs f)) (BlockSize (pvd (fs f))) rb) as [rb1 [e1|]].
    + inversion Hrun; subst. split; [exact Hsiz|]. split; [intros; lia|].
      intros [?|?]; discriminate.
    + apply (IH _ _ _ _ _ _ Hrun); assumption.
Qed.

(** [X15]  The records a call of [Readdir] returns: each has a record
    size between 1 and 255; with a positive count there are no more
    than that many; and a call that returns no error returns at least
    one record. *)
Theorem Readdir_records (f : @File R) (fuel : nat) (n : Z)
    (f' : @File R) (ds : list directory) (err : option error) :
  0 <= Length (fi f) ->
  Readdir Clean fuel f n = Done (f', ds, err) ->
  (forall d, In d ds -> 1 <= Siz d <= 255) /\
  (0 < n -> zlen ds <= n) /\
  (err = None -> ds <> []).
Proof.
  intros HL Hrun. unfold Readdir in Hrun.
  destruct (negb (IsDir (fi f))).
  { inversion Hrun; subst.
    split; [intros d []|]. split; [intros; cbn; lia|discriminate]. }
  destruct (dp_eof f).
  { inversion Hrun; subst.
    split; [intros d []|]. split; [intros; cbn; lia|discriminate]. }
  destruct (Readdir_loop Clean fuel f n (dp f) 0 []) as [[[rb acc] x]| |] eqn:Hloop;
    try discriminate.
  destruct (@Readdir_loop_records f n HL _ _ _ _ _ _ _ Hloop) as (Hsiz & Hcount & Hne).
  - reflexivity.
  - intros d [].
  - intros Hpos. rewrite zlen_nil. exact Hpos.
  - destruct x.
    + inversion Hrun; subst. split; [exact Hsiz|]. split; [exact Hcount|].
      intros _. apply Hne. now left.
    + destruct acc as [|a acc]; inversion Hrun; subst.
      * split; [intros d []|]. split; [intros; cbn; lia|discriminate].
      * split; [exact Hsiz|]. split; [exact Hcount|]. intros _; discriminate.
    + inversion Hrun; subst. split; [exact Hsiz|]. split; [exact Hcount|].
      intros _. apply Hne. now right.
    + inversion Hrun; subst. split; [exact Hsiz|]. split; [exact Hcount|].
      discriminate.
Qed.

(** [X16]  [Readdir] keeps the cursor of the handle inside its array:
    whatever way a call returns, from a handle whose cursor is in
    range, the handle it leaves has its cursor in range again, and
    the same file system, record and read offset. *)
Theorem Readdir_keeps_cursor_in_range (f : @File R) (fuel : nat) (n : Z)
    (f' : @File R) (ds : list directory) (err : option error) :
  reader_ok (r (fs f)) ->
  reader_stable (r (fs f)) ->
  SectorSize (r (fs f)) <= maxSectorLength * 2 - 289 ->
  0 <= BlockSize (pvd (fs f)) ->
  rolling_ok (dp f) ->
  Readdir Clean fuel f n = Done (f', ds, err) ->
  rolling_ok (dp f') /\ fs f' = fs f /\ fi f' = fi f /\ off f' = off f.
Proof.
  intros Hok Hstable Hsector Hbs Hrb Hrun. unfold Readdir in Hrun.
  assert (Hreset : forall b, zlen b = maxSectorLength * 2 -> forall lba,
             rolling_ok {| rb_buf := b; rb_start := 0; rb_end := 0; rb_lba := lba |}).
  { intros b Hb lba. unfold rolling_ok; cbn [rb_buf rb_start rb_end].
    unfold maxSectorLength in *. lia. }
  destruct (negb (IsDir (fi f))).
  { inversion Hrun; subst. split; [exact Hrb|]. split; [|split]; reflexivity. }
  destruct (dp_eof f).
  { inversion Hrun; subst. cbn [resetDir dp fs fi off].
    split; [apply Hreset; apply Hrb|]. split; [|split]; reflexivity. }
  destruct (Readdir_loop Clean fuel f n (dp f) 0 []) as [[[rb acc] x]| |] eqn:Hloop;
    try discriminate.
  destruct (@Readdir_loop_ok Clean _ _ f n Hok Hstable Hsector Hbs _ _ _ _ _ _ _ Hrb Hloop)
    as [Hlen Hx].
  destruct x.
  - inversion Hrun; subst. cbn [with_dp dp fs fi off].
    split; [exact Hx|]. split; [|split]; reflexivity.
  - destruct acc as [|a acc]; inversion Hrun; subst;
      cbn [resetDir with_dp dp fs fi off rb_buf].
    + split; [apply Hreset; exact Hlen|]. split; [|split]; reflexivity.
    + split; [exact Hx|]. split; [|split]; reflexivity.
  - inversion Hrun; subst. cbn [with_dp dp fs fi off].
    split; [exact Hx|]. split; [|split]; reflexivity.
  - inversion Hrun; subst. cbn [with_dp dp fs fi off].
    split; [|split; [|split]; reflexivity].
    unfold rolling_ok; cbn [rb_buf rb_start rb_end].
    destruct Hrb as (_ & Hs & He). split; [exact Hlen|]. split; [exact Hs|exact He].
Qed.

Lemma buildPaths_loop_appends (v : FileSystem) (order : ByteOrder) :
  forall (fuel : nat) (rb : rolling) (n : Z) (acc ps : list path),
    buildPaths_loop Clean fuel v order rb n acc = Done ps ->
    exists new,
      ps = acc ++ new /\
      Forall (fun p => 8 <= p_Size p <= 264) new /\
      n + table_bytes new <= Z.max n (PathTableSize (pvd v) + 263) /\
      (PathTableSize (pvd v) <= n -> new = []).
Proof.
  induction fuel as [|fuel IH]; intros rb n acc ps Hrun; [discriminate|].
  cbn [buildPaths_loop] in Hrun.
  destruct (Z.ltb_spec n (PathTableSize (pvd v))) as [Hin|Hout].
  2:{ inversion Hrun; subst. exists []. rewrite app_nil_r.
      split; [reflexivity|]. split; [constructor|]. split; [cbn; lia|reflexivity]. }
  destruct (readPath Clean order (window rb)) as [[p|e]| |] eqn:Hp; try discriminate.
  - destruct (@readPath_inl Clean _ _ _ Hp) as (_ & Hlo & Hhi & _).
    destruct (IH _ _ _ _ Hrun) as (new & Hps & Hall & Hsum & _).
    exists (p :: new). rewrite <- app_assoc in Hps. cbn [app] in Hps.
    split; [exact Hps|]. split; [constructor; [lia|exact Hall]|].
    split; [cbn [table_bytes fold_right]; fold (table_bytes new); lia|lia].
  - destruct (refill (r v) (BlockSize (pvd v)) rb) as [rb' [e'|]].
    + inversion Hrun; subst. exists []. rewrite app_nil_r.
      split; [reflexivity|]. split; [constructor|]. split; [cbn; lia|lia].
    + exact (IH _ _ _ _ Hrun).
Qed.

(** [X20]  Whatever the reader does, a [buildPaths] that returns has
    only appended to the list of paths and has left the reader and the
    descriptors alone.  Every record it appended takes between 8 and
    264 bytes, each was decoded before the declared size of the table
    was reached, so together they account for fewer than the declared
    size plus 264 bytes; and with a declared size of zero nothing is
    appended. *)
Theorem buildPaths_appends (v v' : FileSystem) (fuel : nat) :
  buildPaths Clean fuel v = Done v' ->
  r v' = r v /\ pvd v' = pvd v /\ svd v' = svd v /\
  exists ps,
    paths v' = paths v ++ ps /\
    Forall (fun p => 8 <= p_Size p <= 264) ps /\
    table_bytes ps <= Z.max 0 (PathTableSize (pvd v) + 263) /\
    (PathTableSize (pvd v) <= 0 -> ps = []).
Proof.
  unfold buildPaths. destruct (path_table_source (pvd v)) as [order lba].
  destruct (buildPaths_loop Clean fuel v order _ 0 (paths v)) as [ps| |] eqn:Hloop;
    try discriminate.
  intros Hv; inversion Hv; subst v'. cbn [r pvd svd paths].
  split; [reflexivity|]. split; [reflexivity|]. split; [reflexivity|].
  destruct (buildPaths_loop_appends _ _ _ _ _ _ Hloop) as (new & Hps & Hall & Hsum & Hz).
  exists new. split; [exact Hps|]. split; [exact Hall|]. split; [lia|exact Hz].
Qed.

Lemma fullPath_loop_returns (ps : list path) :
  (forall i, 1 <= i < zlen ps ->
             1 <= p_Parent (nth (Z.to_nat i) ps path_zero) <= i) ->
  forall (fuel : nat) (p : path) (s : string),
    1 <= p_Parent p ->
    (Z.to_nat (p_Parent p) < fuel)%nat ->
    exists res, fullPath_loop fuel ps p s = Some res.
Proof.
  intros Hwf. induction fuel as [|fuel IH]; intros p s Hp Hfuel; [lia|].
  cbn [fullPath_loop].
  destruct (negb ((0 <=? p_Parent p) && (p_Parent p <? zlen ps))) eqn:Hrange;
    [eexists; reflexivity|].
  apply negb_false_iff, andb_true_iff in Hrange as [_ Hlt]. apply Z.ltb_lt in Hlt.
  pose proof (Hwf (p_Parent p) ltac:(lia)) as Hnext.
  set (q := nth (Z.to_nat (p_Parent p)) ps path_zero) in *.
  destruct (Z.eqb_spec (p_Parent q) (p_Parent p)); [eexists; reflexivity|].
  apply IH; lia.
Qed.

(** [X21]  On a path table in which every entry but the first names a
    parent number between 1 and its own index, the walk of [fullPath]
    comes to an end for every entry with a parent number of at least
    1: fuel beyond that parent number always gives a result. *)
Theorem fullPath_returns (v : @FileSystem R) (p : path) (fuel : nat) :
  (forall i, 1 <= i < zlen (paths v) ->
             1 <= p_Parent (nth (Z.to_nat i) (paths v) path_zero) <= i) ->
  1 <= p_Parent p ->
  (Z.to_nat (p_Parent p) < fuel)%nat ->
  exists s, fullPath Clean fuel v p = Some s.
Proof.
  intros Hwf Hp Hfuel. unfold fullPath.
  destruct (@fullPath_loop_returns (paths v) Hwf fuel p (p_Name p) Hp Hfuel) as (res & ->).
  eexists; reflexivity.
Qed.

Lemma fullPath_loop_cycle (ps : list path) :
  (forall q, In q ps ->
             0 <= p_Parent q < zlen ps /\
             p_Parent (nth (Z.to_nat (p_Parent q)) ps path_zero) <> p_Parent q) ->
  forall (fuel : nat) (p : path) (s : string),
    In p ps -> fullPath_loop fuel ps p s = None.
Proof.
  intros Hcyc. induction fuel as [|fuel IH]; intros p s Hin; [reflexivity|].
  cbn [fullPath_loop]. destruct (Hcyc p Hin) as [Hrange Hne].
  destruct (Z.leb_spec 0 (p_Parent p)); [|lia].
  destruct (Z.ltb_spec (p_Parent p) (zlen ps)); [|lia].
  cbn [andb negb].
  destruct (Z.eqb_spec (p_Parent (nth (Z.to_nat (p_Parent p)) ps path_zero))
                       (p_Parent p)); [contradiction|].
  apply IH. apply nth_In. unfold zlen in *. lia.
Qed.

(** [X22]  [fullPath] has no bound on its walk: on a path table in
    which every entry names a parent inside the table and no entry has
    the parent number of the entry it names, the walk never leaves
    the loop, for any entry of the table and any amount of fuel. *)
Theorem fullPath_never_returns_on_cycle (v : @FileSystem R) (p : path) (fuel : nat) :
  (forall q, In q (paths v) ->
             0 <= p_Parent q < zlen (paths v) /\
             p_Parent (nth (Z.to_nat (p_Parent q)) (paths v) path_zero) <> p_Parent q) ->
  In p (paths v) ->
  fullPath Clean fuel v p = None.
Proof.
  intros Hcyc Hin. unfold fullPath.
  rewrite (@fullPath_loop_cycle (paths v) Hcyc fuel p (p_Name p) Hin). reflexivity.
Qed.

End FileSystemMore.

Module MoreVolumeExamples.
Import Examples MoreExamples.

Lemma blank_reader_ok : reader_ok blank_image.
Proof.
  apply Image_reader_ok; [apply MultiFile_buffer_ok|cbn; lia].
Qed.

Lemma findVolumes_block_size_within_sector_witness :
  exists fs',
    findVolumes clean_id volume_fs0 = Done (fs', None) /\
    r fs' = volume_image /\ paths fs' = [] /\
    (pvd fs' = pvd_zero \/ 0 <= BlockSize (pvd fs') <= 2048).
Proof.
  destruct (findVolumes clean_id volume_fs0) as [[fs' e]| |] eqn:Hrun.
  2,3: exfalso; apply (f_equal (@verdict _)) in Hrun; vm_compute in Hrun;
       discriminate Hrun.
  assert (He : e = None).
  { apply (f_equal (@verdict _)) in Hrun. vm_compute in Hrun. congruence. }
  subst e.
  destruct (@findVolumes_block_size_within_sector clean_id _ _ volume_fs0 fs' None Hrun)
    as (Hr & Hp & Hbs).
  exists fs'. split; [reflexivity|]. split; [exact Hr|]. split; [exact Hp|].
  exact (proj1 (Hbs eq_refl)).
Defined.

Lemma findVolumes_accepts_medium_without_descriptor_witness :
  selected blank_bytes = Some format_iso2048 /\
  findVolumes clean_id blank_fs = Done (blank_fs, None).
Proof.
  split; [vm_compute; reflexivity|].
  apply (@findVolumes_accepts_medium_without_descriptor clean_id _ _ blank_fs 17).
  - exact blank_reader_ok.
  - vm_compute. split; [discriminate|reflexivity].
  - intros j Hj. assert (j = 16) by lia. subst j.
    split; [vm_compute; reflexivity|]. split; [|split]; vm_compute; discriminate.
  - vm_compute; reflexivity.
  - vm_compute; reflexivity.
Defined.

Lemma readDir_record_witness :
  readDir clean_id (dir_record 20 5 0 x41 ++ [x00]) = Done (inl file_record) /\
  readDir clean_id ((dir_record 20 5 0 x41 ++ [x00]) ++ hello) = Done (inl file_record).
Proof.
  assert (Hd : readDir clean_id (dir_record 20 5 0 x41 ++ [x00]) = Done (inl file_record))
    by (vm_compute; reflexivity).
  split; [exact Hd|].
  exact (proj1 (@readDir_record clean_id (dir_record 20 5 0 x41 ++ [x00]) hello
                  file_record Hd)).
Defined.

Lemma File_ReadAt_bounds_witness :
  (ReadAt 5 file_handle 3 1 = Done ([x45; x4c; x4c], None) /\
   1 + zlen [x45; x4c; x4c] <= Length (fi file_handle)) /\
  (ReadAt 5 (makeFile volume_fs far_record) 5 0 = Done ([], None) /\
   0 <= 0 < Length far_record).
Proof.
  assert (H1 : ReadAt 5 file_handle 3 1 = Done ([x45; x4c; x4c], None))
    by (vm_compute; reflexivity).
  assert (H2 : ReadAt 5 (makeFile volume_fs far_record) 5 0 = Done ([], None))
    by (vm_compute; reflexivity).
  destruct (@File_ReadAt_bounds _ _ file_handle 5 3 1 _ _ ltac:(lia) H1)
    as (_ & _ & B1 & _).
  destruct (@File_ReadAt_bounds _ _ (makeFile volume_fs far_record) 5 5 0 _ _
              ltac:(lia) H2) as (_ & B2 & _).
  split; split; [exact H1|exact (B1 eq_refl)|exact H2|exact (proj2 (proj1 B2 eq_refl))].
Defined.

Lemma File_Seek_Read_content_witness :
  Seek file_handle 1 SEEK_SET = (with_off file_handle 1, 1, None) /\
  Read 5 (with_off file_handle 1) 3
  = Done (with_off file_handle 4, [x45; x4c; x4c], None) /\
  Read 5 file_handle 5 = Done (with_off file_handle 5, hello, None).
Proof.
  destruct (@File_Seek_Read_content _ _ file_handle hello 1 1 3 5) as (H1 & H2 & H3).
  - reflexivity.
  - exact VolumeExamples.volume_reader_ok.
  - change (BlockSize (pvd (fs file_handle))) with 2048; lia.
  - exact VolumeExamples.file_backed_by_hello.
  - lia.
  - vm_compute; discriminate.
  - lia.
  - lia.
  - lia.
  - lia.
  - split; [exact H1|]. split; [exact H2|].
    apply H3; [reflexivity|cbn; lia].
Defined.

Lemma Readdir_records_witness :
  listing (Readdir clean_id 10 root_handle 2) = Done (firstn 2 root_listing, None) /\
  (forall d, In d (firstn 2 root_listing) -> 1 <= Siz d <= 255) /\
  zlen (firstn 2 root_listing) <= 2.
Proof.
  assert (Hl : listing (Readdir clean_id 10 root_handle 2)
               = Done (firstn 2 root_listing, None)) by (vm_compute; reflexivity).
  split; [exact Hl|].
  destruct (Readdir clean_id 10 root_handle 2) as [[[f' ds] err]| |] eqn:Hrun;
    [|discriminate Hl|discriminate Hl].
  cbn [listing] in Hl. inversion Hl; subst ds err.
  assert (HL : 0 <= Length (fi root_handle))
    by (change (Length (fi root_handle)) with 2048; lia).
  destruct (@Readdir_records clean_id _ _ root_handle 10 2 f' _ _ HL Hrun)
    as (Hsiz & Hcount & _).
  split; [exact Hsiz|apply Hcount; lia].
Defined.

Lemma Readdir_keeps_cursor_in_range_witness :
  rolling_ok (dp (handle_after (Readdir clean_id 10 root_handle (-1)))).
Proof.
  destruct (Readdir clean_id 10 root_handle (-1)) as [[[f' ds] err]| |] eqn:Hrun.
  2,3: exfalso; apply (f_equal (fun res => match res with Done _ => true | _ => false end))
         in Hrun; vm_compute in Hrun; discriminate.
  cbn [handle_after].
  apply (@Readdir_keeps_cursor_in_range clean_id _ _ root_handle 10 (-1) f' ds err).
  - exact VolumeExamples.volume_reader_ok.
  - apply Image_reader_stable.
  - change (SectorSize (r (fs root_handle))) with 2048. unfold maxSectorLength; lia.
  - change (BlockSize (pvd (fs root_handle))) with 2048; lia.
  - exact VolumeExamples.root_handle_ok.
  - exact Hrun.
Defined.

Lemma buildPaths_appends_witness :
  exists v', buildPaths clean_id 20 volume_fs = Done v' /\
             paths v' = [root_path] /\ table_bytes (paths v') = 10.
Proof.
  pose proof VolumeExamples.buildPaths_volume as Hp.
  destruct (buildPaths clean_id 20 volume_fs) as [v'| |] eqn:Hrun;
    [|contradiction|contradiction].
  destruct (@buildPaths_appends clean_id _ _ volume_fs v' 20 Hrun)
    as (_ & _ & _ & ps & Hps & _).
  exists v'. split; [reflexivity|]. split; [exact Hp|]. rewrite Hp. reflexivity.
Defined.

Lemma fullPath_returns_witness :
  fullPath clean_id 3
    {| r := volume_image; pvd := pvd_zero; svd := pvd_zero; paths := nested_paths |}
    (nth 3 nested_paths path_zero)
  = Some "/B/C"%string.
Proof.
  destruct (@fullPath_returns clean_id _
              {| r := volume_image; pvd := pvd_zero; svd := pvd_zero;
                 paths := nested_paths |}
              (nth 3 nested_paths path_zero) 3) as (s & Hs).
  - intros i Hi. cbn [paths] in *. change (zlen nested_paths) with 4 in Hi.
    assert (Hc : i = 1 \/ i = 2 \/ i = 3) by lia.
    destruct Hc as [Hc|[Hc|Hc]]; subst i; split; vm_compute; discriminate.
  - cbn; lia.
  - cbn; lia.
  - rewrite Hs. vm_compute in Hs. symmetry; exact Hs.
Defined.

Lemma fullPath_never_returns_on_cycle_witness :
  fullPath clean_id 1000
    {| r := volume_image; pvd := pvd_zero; svd := pvd_zero; paths := cyclic_paths |}
    (nth 1 cyclic_paths path_zero)
  = None.
Proof.
  apply (@fullPath_never_returns_on_cycle clean_id _
           {| r := volume_image; pvd := pvd_zero; svd := pvd_zero;
              paths := cyclic_paths |}).
  - intros q Hq. cbn [paths] in *.
    destruct Hq as [<-|[<-|[]]]; (split; [cbn; lia|cbn; discriminate]).
  - cbn. auto.
Defined.

End MoreVolumeExamples.

(** ** The driver *)

Module DriverProofs.
Import Driver.

Lemma contains_from_spec (v : Z) :
  forall (a : list Z) (i : Z),
    (~ In v a -> contains_from a v i = -1) /\
    (In v a ->
     exists k, contains_from a v i = i + Z.of_nat k /\
               nth_error a k = Some v /\
               forall j, (j < k)%nat -> nth_error a j <> Some v).
Proof.
  induction a as [|x a IH]; intros i; cbn [contains_from].
  - split; [reflexivity|intros []].
  - destruct (Z.eqb_spec x v) as [->|Hne].
    + split; [intros Hn; exfalso; apply Hn; now left|].
      intros _. exists 0%nat. split; [cbn; lia|]. split; [reflexivity|].
      intros j Hj; lia.
    + destruct (IH (i + 1)) as [Hout Hin]. split.
      * intros Hn. apply Hout. intros Hv; apply Hn; now right.
      * intros [Hx|Hv]; [congruence|].
        destruct (Hin Hv) as (k & Hc & Hk & Hfirst).
        exists (S k). split; [lia|]. split; [exact Hk|].
        intros [|j] Hj; cbn [nth_error]; [congruence|apply Hfirst; lia].
Qed.

(** [X17]  [contains] returns -1 exactly when the value does not occur
    in the slice; otherwise it returns the index of its first
    occurrence.  So the test [contains(a, v) >= 0] of its caller holds
    exactly when the value occurs. *)
Theorem contains_first_index (a : list Z) (v : Z) :
  (contains a v = -1 <-> ~ In v a) /\
  (0 <= contains a v <-> In v a) /\
  (In v a ->
   contains a v < zlen a /\
   nth_error a (Z.to_nat (contains a v)) = Some v /\
   forall j, (j < Z.to_nat (contains a v))%nat -> nth_error a j <> Some v).
Proof.
  unfold contains. destruct (contains_from_spec v a 0) as [Hout Hin].
  assert (Hdec : In v a \/ ~ In v a)
    by (destruct (in_dec Z.eq_dec v a); [left|right]; assumption).
  split; [|split].
  - split; [|exact Hout].
    intros Hm Hv. destruct (Hin Hv) as (k & Hc & _). lia.
  - split.
    + intros Hge. destruct Hdec as [Hv|Hn]; [exact Hv|]. rewrite (Hout Hn) in Hge. lia.
    + intros Hv. destruct (Hin Hv) as (k & Hc & _). lia.
  - intros Hv. destruct (Hin Hv) as (k & Hc & Hk & Hfirst).
    rewrite Hc. cbn [Z.add]. rewrite Nat2Z.id.
    split; [|split; assumption].
    assert (k < length a)%nat by (apply nth_error_Some; congruence).
    unfold zlen; lia.
Qed.

Lemma getTCPPort_loop_outcome (listen : nat -> option Z) (OpenPorts : list Z) :
  forall (k i : nat),
    match getTCPPort_loop k i listen OpenPorts with
    | Port p =>
        p <> 0 /\ ~ In p OpenPorts /\
        exists t, (i <= t < i + k)%nat /\ listen t = Some p /\
                  forall j, (i <= j < t)%nat -> rejected listen OpenPorts j
    | ListenFailed =>
        exists t, (i <= t < i + k)%nat /\ listen t = None /\
                  forall j, (i <= j < t)%nat -> rejected listen OpenPorts j
    | NoPort => forall j, (i <= j < i + k)%nat -> rejected listen OpenPorts j
    end.
Proof.
  induction k as [|k IH]; intros i; cbn [getTCPPort_loop].
  { intros j Hj; lia. }
  destruct (listen i) as [p|] eqn:Hp.
  2:{ exists i. split; [lia|]. split; [exact Hp|]. intros j Hj; lia. }
  destruct (contains_first_index OpenPorts p) as (_ & Hge & _).
  destruct (Z.geb_spec (contains OpenPorts p) 0) as [Hin|Hout].
  - change (negb (0 =? 0)) with false. cbv iota.
    assert (Hrej : rejected listen OpenPorts i)
      by (exists p; split; [exact Hp|right; apply Hge; lia]).
    specialize (IH (S i)).
    destruct (getTCPPort_loop k (S i) listen OpenPorts) as [q| |].
    + destruct IH as (Hq & Hnin & t & Ht & Hl & Hbefore).
      split; [exact Hq|]. split; [exact Hnin|].
      exists t. split; [lia|]. split; [exact Hl|].
      intros j Hj. destruct (Nat.eq_dec j i) as [->|]; [exact Hrej|apply Hbefore; lia].
    + destruct IH as (t & Ht & Hl & Hbefore).
      exists t. split; [lia|]. split; [exact Hl|].
      intros j Hj. destruct (Nat.eq_dec j i) as [->|]; [exact Hrej|apply Hbefore; lia].
    + intros j Hj. destruct (Nat.eq_dec j i) as [->|]; [exact Hrej|apply IH; lia].
  - destruct (Z.eqb_spec p 0) as [->|Hnz]; cbn [negb].
    + assert (Hrej : rejected listen OpenPorts i)
        by (exists 0; split; [exact Hp|now left]).
      specialize (IH (S i)).
      destruct (getTCPPort_loop k (S i) listen OpenPorts) as [q| |].
      * destruct IH as (Hq & Hnin & t & Ht & Hl & Hbefore).
        split; [exact Hq|]. split; [exact Hnin|].
        exists t. split; [lia|]. split; [exact Hl|].
        intros j Hj. destruct (Nat.eq_dec j i) as [->|]; [exact Hrej|apply Hbefore; lia].
      * destruct IH as (t & Ht & Hl & Hbefore).
        exists t. split; [lia|]. split; [exact Hl|].
        intros j Hj. destruct (Nat.eq_dec j i) as [->|]; [exact Hrej|apply Hbefore; lia].
      * intros j Hj. destruct (Nat.eq_dec j i) as [->|]; [exact Hrej|apply IH; lia].
    + split; [exact Hnz|]. split; [intros Hv; apply Hge in Hv; lia|].
      exists i. split; [lia|]. split; [exact Hp|]. intros j Hj; lia.
Qed.

(** [X18]  [getTCPPort] makes at most six attempts.  The port it
    returns is not zero, is not in the list of open ports, and is the
    one the system handed out at the first attempt that was not
    rejected; a failure to listen at an attempt reached ends the call
    with that failure; and the call ends with "unable to allocate tcp
    port" when all six attempts were rejected. *)
Theorem getTCPPort_outcome (listen : nat -> option Z) (OpenPorts : list Z) :
  match getTCPPort listen OpenPorts with
  | Port p =>
      p <> 0 /\ ~ In p OpenPorts /\
      exists t, (t < 6)%nat /\ listen t = Some p /\
                forall j, (j < t)%nat -> rejected listen OpenPorts j
  | ListenFailed =>
      exists t, (t < 6)%nat /\ listen t = None /\
                forall j, (j < t)%nat -> rejected listen OpenPorts j
  | NoPort => forall j, (j < 6)%nat -> rejected listen OpenPorts j
  end.
Proof.
  unfold getTCPPort. pose proof (getTCPPort_loop_outcome listen OpenPorts 6 0) as Hl.
  destruct (getTCPPort_loop 6 0 listen OpenPorts) as [p| |].
  - destruct Hl as (Hp & Hn & t & Ht & Hlt & Hb).
    split; [exact Hp|]. split; [exact Hn|].
    exists t. split; [lia|]. split; [exact Hlt|]. intros j Hj; apply Hb; lia.
  - destruct Hl as (t & Ht & Hlt & Hb).
    exists t. split; [lia|]. split; [exact Hlt|]. intros j Hj; apply Hb; lia.
  - intros j Hj; apply Hl; lia.
Qed.

End DriverProofs.
